(** * YTrie: a static predecessor index over sorted unsigned 64-bit keys

    Shallow embedding of YTrie.cpp (calcDepth, constructBST,
    addRegularTrieLeaf, addIrregularTrieLeaf, YTrie::split,
    YTrie::constructTrie, the constructor and YTrie::getPredecessor) and
    the properties of the index proved on it.

    Conventions.
    - [uint64_t] and [int64_t] values are [Z]; conversions between the two
      are written out ([u64], [i64]).
    - A vector is a [list]; [v[i]] is [vec_at v i], which is undefined
      outside the vector, as in C++.
    - A [TrieNode*] that points to a representative is the index of that
      representative in [representatives_]: every representative is created
      by a [push_back] on that vector and never removed, so index and
      pointer determine each other.  [None] is [nullptr].
    - [lookup_] (an [unordered_map<string, TrieNode*>]) is a [gmap string
      TrieNodePtr].
    - A call either returns, throws a C++ exception, or runs into behaviour
      the language leaves undefined: the [outcome] type. *)

From Stdlib Require Import ZArith Lia String Ascii List Sorted.
From stdpp Require Import base option list strings gmap sorting.

Local Open Scope Z_scope.

(** ** Outcomes of a call *)

Inductive outcome (A : Type) : Type :=
| Ret (a : A)        (* normal return *)
| Throws             (* a C++ exception leaves the call *)
| Undefined.         (* undefined behaviour: out-of-range access, null dereference, ... *)
Arguments Ret {A} a.
Arguments Throws {A}.
Arguments Undefined {A}.

Definition bind {A B : Type} (m : outcome A) (f : A -> outcome B) : outcome B :=
  match m with
  | Ret a => f a
  | Throws => Throws
  | Undefined => Undefined
  end.

Notation "'do' x <- m ; k" := (bind m (fun x => k))
  (at level 10, x pattern, m at level 100, k at level 200).

(** ** Machine integers *)

Definition u64 (z : Z) : Z := z mod 2 ^ 64.
Definition i64 (z : Z) : Z := (z + 2 ^ 63) mod 2 ^ 64 - 2 ^ 63.
Definition LLONG_MAX : Z := 2 ^ 63 - 1.

(** [v[i]] on a vector; [i] is the index after conversion to [size_t]. *)
Definition vec_at {A : Type} (v : list A) (i : Z) : outcome A :=
  if (0 <=? i) && (i <? Z.of_nat (length v))
  then match v !! Z.to_nat i with Some a => Ret a | None => Undefined end
  else Undefined.

(** [v[i]] read as a pointer from a vector of representatives: the pointer
    is the index. *)
Definition ptr_at {A : Type} (v : list A) (i : Z) : outcome (option Z) :=
  if (0 <=? i) && (i <? Z.of_nat (length v))
  then Ret (Some i)
  else Undefined.

(** [v[i] = a]. *)
Definition vec_set {A : Type} (v : list A) (i : Z) (a : A) : outcome (list A) :=
  if (0 <=? i) && (i <? Z.of_nat (length v))
  then Ret (<[Z.to_nat i := a]> v)
  else Undefined.

(** ** Floating point used by calcDepth

    [calcDepth] converts the last key to [double] and applies [std::log2]
    and [std::floor].  The conversion is IEEE-754 round-to-nearest-even on a
    53-bit significand; every [uint64_t] converts to a double that holds an
    integer, so doubles in its image are represented by that integer. *)

Definition to_double (v : Z) : Z :=
  if v <? 2 ^ 53 then v
  else
    let e := Z.log2 v - 52 in
    let q := v / 2 ^ e in
    let r := v mod 2 ^ e in
    let half := 2 ^ (e - 1) in
    if r <? half then q * 2 ^ e
    else if half <? r then (q + 1) * 2 ^ e
    else if Z.even q then q * 2 ^ e else (q + 1) * 2 ^ e.

(** The math library is a parameter: [floor_log2 x] is
    [(int64_t)std::floor(std::log2(x))] for a double [x >= 1] holding an
    integer.  What is assumed of it holds for every implementation whose
    [log2] is exact on powers of two and has an error below one unit in the
    last place: the result is the exact integer logarithm on powers of two,
    and on arguments whose relative distance to the next power of two is at
    least [2^-32]. *)
Record Libm : Type := {
  floor_log2 : Z -> Z;
  floor_log2_pow2 : forall k, 0 <= k <= 64 -> floor_log2 (2 ^ k) = k;
  floor_log2_inside : forall k x, 0 <= k <= 63 -> 2 ^ k <= x ->
    x * 2 ^ 32 <= (2 ^ 32 - 1) * 2 ^ (k + 1) -> floor_log2 x = k
}.

(** [int64_t calcDepth(std::vector<uint64_t> values)].  [values.back()] on
    an empty vector is undefined; [log2(0)] is minus infinity, whose
    conversion to [int64_t] is undefined. *)
Definition calcDepth (L : Libm) (values : list Z) : outcome Z :=
  match last values with
  | None => Undefined
  | Some v => if v =? 0 then Undefined else Ret (floor_log2 L (to_double v))
  end.

(** ** Blocks *)

(** Modelled from the spec: class BST (its header and implementation are not
    among the sources).  A block holds a contiguous run of keys and never
    looks at keys outside itself; it is represented by the keys it holds. *)
Definition BST : Type := list Z.

(** Modelled from the spec: the constructor [BST(group)], which builds the
    block from an ordered group of keys. *)
Definition BST_new (group : list Z) : BST := group.

(** Modelled from the spec: [BST::getPredecessor(lowerBound, limit)] returns
    the largest key stored in the block that is at most [limit], and
    [lowerBound] unchanged when no stored key qualifies. *)
Definition BST_getPredecessor (b : BST) (lowerBound limit : Z) : Z :=
  match filter (fun k => k <= limit) b with
  | [] => lowerBound
  | k :: ks => foldr Z.max k ks
  end.

(** [constructBST(position, groupSize, values)]: the group is the iterator
    range [begin + position - (groupSize - 1), begin + position + 1). *)
Definition constructBST (position groupSize : Z) (values : list Z) : outcome BST :=
  let first := position - (groupSize - 1) in
  let stop := position + 1 in
  if (0 <=? first) && (first <=? stop) && (stop <=? Z.of_nat (length values))
  then Ret (BST_new (take (Z.to_nat (stop - first)) (drop (Z.to_nat first) values)))
  else Undefined.

(** ** Trie nodes *)

(** Modelled from the spec: class TrieNode (declared in a header that is not
    among the sources).  A leaf node, built by [TrieNode(value, previous,
    bst)], is a representative: it carries the block's maximum key, its
    block and the [previous]/[next] links; [next] starts as [nullptr] and is
    set by [setNext]. *)
Record TrieNode : Type := {
  value : Z;
  previous : option Z;
  next : option Z;
  binarySearchTree : BST
}.

(** Modelled from the spec: [TrieNode::setNext], which sets the [next]
    link of a representative. *)
Definition setNext (n : TrieNode) (nx : option Z) : TrieNode :=
  {| value := value n; previous := previous n; next := nx;
     binarySearchTree := binarySearchTree n |}.

(** Modelled from the spec: the two kinds of [TrieNode] (the class is
    declared in the missing header).  What a [TrieNode*] stored in [lookup_]
    can be: null, a representative ([isLeaf()] holds), or an inner node
    built by [TrieNode(leftMax, rightMin)]; inner nodes are never changed
    after their creation and are referenced from [lookup_] only, so they
    are stored by value. *)
Inductive TrieNodePtr : Type :=
| nullNode
| leafNode (r : Z)
| innerNode (leftMax rightMin : option Z).

(** ** The splitter *)

(** [representatives->back()] as a pointer. *)
Definition back_ptr (representatives : list TrieNode) : outcome (option Z) :=
  ptr_at representatives (Z.of_nat (length representatives) - 1).

(** [representatives[size - 2]->setNext(representatives[size - 1])]. *)
Definition link_last (representatives : list TrieNode) : outcome (list TrieNode) :=
  let size := Z.of_nat (length representatives) in
  do n <- vec_at representatives (size - 2);
  do p <- ptr_at representatives (size - 1);
  vec_set representatives (size - 2) (setNext n p).

(** [addRegularTrieLeaf(values, index, representatives, depth)]: the
    representative of the full block that ends at [index].  The first one
    has no predecessor; every other one is linked behind the last one so
    far. *)
Definition addRegularTrieLeaf (values : list Z) (index : Z)
    (representatives : list TrieNode) (depth : Z) : outcome (list TrieNode) :=
  if index =? u64 (depth - 1) then
    do v <- vec_at values index;
    do b <- constructBST index depth values;
    Ret (representatives ++
         [{| value := v; previous := None; next := None; binarySearchTree := b |}])
  else
    do v <- vec_at values index;
    do prev <- back_ptr representatives;
    do b <- constructBST index depth values;
    link_last (representatives ++
         [{| value := v; previous := prev; next := None; binarySearchTree := b |}]).

(** [addIrregularTrieLeaf(values, representatives, depth)]: the
    representative of the trailing block of [size % depth] keys, linked
    behind the last representative so far. *)
Definition addIrregularTrieLeaf (values : list Z)
    (representatives : list TrieNode) (depth : Z) : outcome (list TrieNode) :=
  let size := Z.of_nat (length values) in
  do v <- match last values with Some v => Ret v | None => Undefined end;
  do prev <- back_ptr representatives;
  do g <- (if depth =? 0 then Undefined else Ret (size mod depth));
  do b <- constructBST (size - 1) g values;
  link_last (representatives ++
       [{| value := v; previous := prev; next := None; binarySearchTree := b |}]).

(** The [for] loop of [YTrie::split]; [i] is the [int64_t] counter, compared
    with [values.size()] after conversion to [size_t].  Every iteration
    with [depth_ >= 1] advances [i], so [length values + 1] rounds of fuel
    are never used up. *)
Fixpoint split_loop (fuel : nat) (depth_ : Z) (values : list Z) (i : Z)
    (representatives : list TrieNode) : outcome (list TrieNode) :=
  if u64 i <? Z.of_nat (length values) then
    match fuel with
    | O => Undefined
    | S fuel' =>
        do reps <- addRegularTrieLeaf values (u64 i) representatives (u64 depth_);
        split_loop fuel' depth_ values (i + depth_) reps
    end
  else Ret representatives.

(** [void YTrie::split(std::vector<uint64_t> values)], from an empty
    [representatives_]. *)
Definition split (depth_ : Z) (values : list Z) : outcome (list TrieNode) :=
  let size := Z.of_nat (length values) in
  do reps <- split_loop (S (length values)) depth_ values (depth_ - 1) [];
  do rem <- (if u64 depth_ =? 0 then Undefined else Ret (size mod u64 depth_));
  if negb (rem =? 0) then addIrregularTrieLeaf values reps (u64 depth_)
  else Ret reps.

(** ** The trie builder *)

(** State of the [for] loop of [constructTrie] that looks for the split
    point and strips the current bit. *)
Record scan_state : Type := {
  splitIndex : Z;
  leftMax : option Z;
  rightMin : option Z;
  foundSplit : bool;
  representativeValues : list Z
}.

(** One iteration of that loop at index [i].  The comparison
    [representativeValues[i] >= split] is made on [uint64_t]. *)
Definition scan_body (i leftRange split : Z) (representatives : list TrieNode)
    (s : scan_state) : outcome scan_state :=
  do v <- vec_at (representativeValues s) i;
  if split <=? v then
    do s1 <-
      (if negb (foundSplit s) then
         do lm <- (if negb (i =? leftRange)
                   then ptr_at representatives (i - 1)
                   else Ret (leftMax s));
         do rm <- ptr_at representatives i;
         Ret {| splitIndex := i; leftMax := lm; rightMin := rm;
                foundSplit := true;
                representativeValues := representativeValues s |}
       else Ret s);
    do vals <- vec_set (representativeValues s1) i (u64 (v - split));
    Ret {| splitIndex := splitIndex s1; leftMax := leftMax s1;
           rightMin := rightMin s1; foundSplit := foundSplit s1;
           representativeValues := vals |}
  else Ret s.

(** [cnt] iterations, from index [i]. *)
Fixpoint scan_loop (cnt : nat) (i leftRange split : Z)
    (representatives : list TrieNode) (s : scan_state) : outcome scan_state :=
  match cnt with
  | O => Ret s
  | S cnt' =>
      do s' <- scan_body i leftRange split representatives s;
      scan_loop cnt' (i + 1) leftRange split representatives s'
  end.

(** [lookup_.insert({key, node})]: an existing entry is kept. *)
Definition lookup_insert_new (key : string) (node : TrieNodePtr)
    (lookup_ : gmap string TrieNodePtr) : gmap string TrieNodePtr :=
  match lookup_ !! key with
  | Some _ => lookup_
  | None => <[key := node]> lookup_
  end.

(** [bitHistory.compare(bitHistory.size(), 1, "0") == 0]: the compared
    substring starts at position [size()]. *)
Definition last_bit_is_zero (bitHistory : string) : bool :=
  String.eqb (substring (String.length bitHistory) 1 bitHistory) "0".

(** [1LL << exponent], converted to [uint64_t] for the comparison with the
    values; a shift by 64 or more, or by a negative count, is undefined.
    The source evaluates the shift at the leaf step too, with the count
    [-1]; its result is not used there, and the leaf step of the model does
    not evaluate it. *)
Definition split_border (exponent : Z) : outcome Z :=
  if (0 <=? exponent) && (exponent <? 64) then Ret (u64 (i64 (Z.shiftl 1 exponent)))
  else Undefined.

(** The inner-node branch of [constructTrie] up to the insertion of the new
    node: the loop state after the scan and [lookup_] after the insertion. *)
Definition inner_step (exponent : Z) (representatives : list TrieNode)
    (bitHistory : string) (leftRange rightRange : Z)
    (st : list Z * gmap string TrieNodePtr)
    : outcome (scan_state * gmap string TrieNodePtr) :=
  do split <- split_border exponent;
  do s <- scan_loop (Z.to_nat (rightRange - leftRange + 1)) leftRange leftRange
            split representatives
            {| splitIndex := rightRange + 1; leftMax := None; rightMin := None;
               foundSplit := false; representativeValues := fst st |};
  do lm <- (match leftMax s, rightMin s with
            | None, None => ptr_at representatives rightRange
            | lm, _ => Ret lm
            end);
  Ret (s, lookup_insert_new bitHistory (innerNode lm (rightMin s)) (snd st)).

(** The leaf branch of [constructTrie]. *)
Definition leaf_step (representatives : list TrieNode)
    (bitHistory : string) (leftRange rightRange : Z)
    (st : list Z * gmap string TrieNodePtr)
    : outcome (list Z * gmap string TrieNodePtr) :=
  do p <- (if last_bit_is_zero bitHistory
           then ptr_at representatives leftRange
           else ptr_at representatives rightRange);
  match p with
  | Some r => Ret (fst st, lookup_insert_new bitHistory (leafNode r) (snd st))
  | None => Undefined
  end.

(** [YTrie::constructTrie]; the call with exponent [e] is
    [constructTrie_rec (e + 1)]: the recursion stops at exponent [-1].  The
    state threaded through the calls is the vector [representativeValues]
    and the member [lookup_]; the left subtree is built before the right
    one, on the same vector. *)
Fixpoint constructTrie_rec (level : nat) (representatives : list TrieNode)
    (bitHistory : string) (leftRange rightRange : Z)
    (st : list Z * gmap string TrieNodePtr)
    : outcome (list Z * gmap string TrieNodePtr) :=
  match level with
  | S level' =>
      do r <- inner_step (Z.of_nat level') representatives bitHistory
                leftRange rightRange st;
      do st1 <- (if leftRange <? splitIndex (fst r)
                 then constructTrie_rec level' representatives (bitHistory +:+ "0")
                        leftRange (splitIndex (fst r) - 1)
                        (representativeValues (fst r), snd r)
                 else Ret (representativeValues (fst r), snd r));
      if splitIndex (fst r) <=? rightRange
      then constructTrie_rec level' representatives (bitHistory +:+ "1")
             (splitIndex (fst r)) rightRange st1
      else Ret st1
  | O => leaf_step representatives bitHistory leftRange rightRange st
  end.

(** The call [constructTrie(representatives, representativeValues, exponent,
    bitHistory, leftRange, rightRange)] on a given [lookup_].  An exponent
    below [-1] never reaches the leaf step and shifts by a negative count. *)
Definition constructTrie (representatives : list TrieNode)
    (representativeValues : list Z) (lookup_ : gmap string TrieNodePtr)
    (exponent : Z) (bitHistory : string) (leftRange rightRange : Z)
    : outcome (list Z * gmap string TrieNodePtr) :=
  if exponent <? -1 then Undefined
  else constructTrie_rec (Z.to_nat (exponent + 1)) representatives bitHistory
         leftRange rightRange (representativeValues, lookup_).

(** ** The index *)

Record YTrie : Type := {
  depth_ : Z;
  representatives_ : list TrieNode;
  lookup_ : gmap string TrieNodePtr
}.

(** [YTrie::YTrie(std::vector<uint64_t> values)]. *)
Definition YTrie_new (L : Libm) (values : list Z) : outcome YTrie :=
  do d <- calcDepth L values;
  do reps <- split d values;
  let representativeValues := map value reps in
  do st <- constructTrie reps representativeValues ∅ d EmptyString
             0 (Z.of_nat (length reps) - 1);
  Ret {| depth_ := d; representatives_ := reps; lookup_ := snd st |}.

(** ** Predecessor search *)

(** [std::bitset<n>(v).to_string()]: [n] characters, most significant bit
    first. *)
Fixpoint bitset_to_string (n : nat) (v : Z) : string :=
  match n with
  | O => EmptyString
  | S n' => String (if Z.testbit v (Z.of_nat n') then "1"%char else "0"%char)
                   (bitset_to_string n' v)
  end.

(** [s.substr(pos)], with [pos] converted to [size_t]; a position behind the
    end throws [std::out_of_range]. *)
Definition substr_from (s : string) (pos : Z) : outcome string :=
  let size := Z.of_nat (String.length s) in
  if u64 pos <=? size
  then Ret (substring (Z.to_nat (u64 pos)) (Z.to_nat (size - u64 pos)) s)
  else Throws.

(** [s.substr(0, count)], with [count] converted to [size_t]; the count is
    cut at the end of the string. *)
Definition substr_prefix (s : string) (count : Z) : string :=
  substring 0 (Z.to_nat (Z.min (u64 count) (Z.of_nat (String.length s)))) s.

(** [lookup_[key]]: the subscript operator adds a null entry for a missing
    key. *)
Definition lookup_index (key : string) (lookup_ : gmap string TrieNodePtr)
    : TrieNodePtr * gmap string TrieNodePtr :=
  match lookup_ !! key with
  | Some p => (p, lookup_)
  | None => (nullNode, <[key := nullNode]> lookup_)
  end.

(** One iteration of the [while (lowRange <= highRange)] loop on the
    variables [(lowRange, highRange, bestMatchingNode)].
    [lookup_[partBitString]] is evaluated only after [count] found the key,
    so it reads the entry and adds nothing.  The division is the truncating
    one of C++; [round] is applied to its integer result. *)
Definition search_step (lookup_ : gmap string TrieNodePtr) (fullBitString : string)
    (v : Z * Z * TrieNodePtr) : Z * Z * TrieNodePtr :=
  let '(lowRange, highRange, bestMatchingNode) := v in
  let middle := Z.quot (lowRange + highRange) 2 in
  let partBitString := substr_prefix fullBitString middle in
  match lookup_ !! partBitString with
  | Some node =>
      (if lowRange =? middle then lowRange + 1 else middle, highRange, node)
  | None =>
      (lowRange, if highRange =? middle then highRange - 1 else middle,
       bestMatchingNode)
  end.

(** The loop; [None]: the fuel did not suffice. *)
Fixpoint search_loop (fuel : nat) (lookup_ : gmap string TrieNodePtr)
    (fullBitString : string) (v : Z * Z * TrieNodePtr) : option TrieNodePtr :=
  if fst (fst v) <=? snd (fst v) then
    match fuel with
    | O => None
    | S fuel' =>
        search_loop fuel' lookup_ fullBitString (search_step lookup_ fullBitString v)
    end
  else Some (snd v).

(** The part of [getPredecessor] after the loop.  The result is converted to
    the return type [int64_t]. *)
Definition answer (representatives : list TrieNode) (bestMatchingNode : TrieNodePtr)
    (limit : Z) : outcome Z :=
  match bestMatchingNode with
  | nullNode => Undefined
  | leafNode r =>
      do n <- vec_at representatives r;
      Ret (i64 (value n))
  | innerNode (Some l) _ =>
      do lm <- vec_at representatives l;
      match next lm with
      | Some nx =>
          do n <- vec_at representatives nx;
          Ret (i64 (BST_getPredecessor (binarySearchTree n) (value lm) limit))
      | None => Ret (i64 (value lm))
      end
  | innerNode None (Some r) =>
      do rm <- vec_at representatives r;
      match previous rm with
      | Some p =>
          do pn <- vec_at representatives p;
          Ret (i64 (BST_getPredecessor (binarySearchTree rm) (value pn) limit))
      | None => Ret (i64 (BST_getPredecessor (binarySearchTree rm) 0 limit))
      end
  | innerNode None None => Ret LLONG_MAX
  end.

(** The node the loop of [getPredecessor] ends with, and [lookup_] after the
    initial lookup of the empty path.  The loop runs at most [highRange - lowRange + 1]
    times, which is the fuel it is given. *)
Definition bestMatchingNode (t : YTrie) (limit : Z)
    : outcome (TrieNodePtr * gmap string TrieNodePtr) :=
  let lowRange := 0 in
  let highRange := depth_ t + 1 in
  do fullBitString <- substr_from (bitset_to_string 64 limit) (64 - (depth_ t + 1));
  let start := lookup_index EmptyString (lookup_ t) in
  match search_loop (Z.to_nat (highRange - lowRange + 1)) (snd start)
          fullBitString (lowRange, highRange, fst start) with
  | Some best => Ret (best, snd start)
  | None => Undefined
  end.

(** [int64_t YTrie::getPredecessor(uint64_t limit)]: the result and the
    index after the call. *)
Definition getPredecessor (t : YTrie) (limit : Z) : outcome (Z * YTrie) :=
  do r <- bestMatchingNode t limit;
  do a <- answer (representatives_ t) (fst r) limit;
  Ret (a, {| depth_ := depth_ t; representatives_ := representatives_ t;
             lookup_ := snd r |}).

(** ** A math library for evaluation: the exact integer logarithm *)

Definition exact_libm : Libm.
Proof.
  refine {| floor_log2 := Z.log2 |}.
  - intros k H. apply Z.log2_pow2. lia.
  - intros k x Hk Hlo Hhi. apply Z.log2_unique; [lia|]. split; [exact Hlo|].
    replace (Z.succ k) with (k + 1) by lia.
    assert (0 < 2 ^ (k + 1)) by (apply Z.pow_pos_nonneg; lia).
    nia.
Defined.

(** The key sequence of the concrete scenario. *)
Definition scenario : list Z := [3; 5; 9; 12; 20; 33; 40].

(** The index the constructor builds for the scenario. *)
Definition scenario_index : YTrie :=
  {| depth_ := 5;
     representatives_ :=
       [ {| value := 20; previous := None; next := Some 1;
            binarySearchTree := [3; 5; 9; 12; 20] |};
         {| value := 40; previous := Some 0; next := None;
            binarySearchTree := [33; 40] |} ];
     lookup_ :=
       list_to_map
         [ (EmptyString, innerNode (Some 0) (Some 1));
           ("0", innerNode None (Some 0));
           ("01", innerNode (Some 0) None);
           ("010", innerNode None (Some 0));
           ("0101", innerNode (Some 0) None);
           ("01010", innerNode (Some 0) None);
           ("010100", leafNode 0);
           ("1", innerNode (Some 1) None);
           ("10", innerNode None (Some 1));
           ("101", innerNode (Some 1) None);
           ("1010", innerNode (Some 1) None);
           ("10100", innerNode (Some 1) None);
           ("101000", leafNode 1) ]%string |}.

(** ** The specification of a predecessor query *)

(** The largest key that is at most [limit], if there is one. *)
Definition predecessor (keys : list Z) (limit : Z) : option Z :=
  match filter (fun k => k <= limit) keys with
  | [] => None
  | k :: ks => Some (foldr Z.max k ks)
  end.

(** ** Well-formedness of the lookup table *)

(** A pointer into a vector of [n] representatives. *)
Definition ptr_ok (n : Z) (p : option Z) : Prop :=
  match p with
  | None => True
  | Some i => 0 <= i < n
  end.

(** A table entry is a leaf or an inner node with at least one child
    pointer, and its pointers are valid. *)
Definition node_ok (n : Z) (node : TrieNodePtr) : Prop :=
  match node with
  | nullNode => False
  | leafNode r => 0 <= r < n
  | innerNode l r => (l <> None \/ r <> None) /\ ptr_ok n l /\ ptr_ok n r
  end.

Definition is_leaf (node : TrieNodePtr) : bool :=
  match node with
  | leafNode _ => true
  | _ => false
  end.

(** Every entry is well formed, and a leaf sits at a path of length
    [height] only. *)
Definition entries_ok (height : nat) (n : Z) (lk : gmap string TrieNodePtr) : Prop :=
  forall p node, lk !! p = Some node ->
    node_ok n node /\ (is_leaf node = true -> String.length p = height).

(** The parent path of every present path is present. *)
Definition parent_closed (lk : gmap string TrieNodePtr) : Prop :=
  forall p c, is_Some (lk !! (p +:+ String c EmptyString)) -> is_Some (lk !! p).

(** ** What the splitter builds *)

(** Every representative carries the last key of its block and is linked to
    its neighbours in the vector. *)
Definition links_ok (reps : list TrieNode) : Prop :=
  forall (i : nat) r, reps !! i = Some r ->
    last (binarySearchTree r) = Some (value r) /\
    previous r = (if decide (i = 0%nat) then None else Some (Z.of_nat i - 1)) /\
    next r = (if decide (S i = length reps) then None else Some (Z.of_nat i + 1)).

(** The blocks of the representatives, in order, make up the key sequence;
    every block but the last has [d] keys, and the last one has [n mod d]
    keys when that is not zero (and [d] otherwise). *)
Definition reps_spec (d : Z) (values : list Z) (reps : list TrieNode) : Prop :=
  concat (map binarySearchTree reps) = values /\
  links_ok reps /\
  forall (i : nat) r, reps !! i = Some r ->
    Z.of_nat (length (binarySearchTree r)) =
      (if decide (S i = length reps)
       then (if Z.of_nat (length values) mod d =? 0 then d
             else Z.of_nat (length values) mod d)
       else d).

(** The state of the loop of [split] after [k] iterations. *)
Definition split_inv (d : Z) (values : list Z) (k : nat) (reps : list TrieNode) : Prop :=
  length reps = k /\
  Z.of_nat k * d <= Z.of_nat (length values) /\
  concat (map binarySearchTree reps) = take (k * Z.to_nat d) values /\
  links_ok reps /\
  Forall (fun b : BST => Z.of_nat (length b) = d) (map binarySearchTree reps).

(** ** The trie over sorted representative values *)

(** [l[i]] as a total function. *)
Definition zth (l : list Z) (i : Z) : Z := default 0 (l !! Z.to_nat i).

(** The window [lo..hi] of [vals] that a call of [constructTrie] with
    [level = exponent + 1] works on: it is not empty, its values have
    [level] bits and increase strictly. *)
Definition window_ok (level : nat) (vals : list Z) (lo hi : Z) : Prop :=
  0 <= lo <= hi /\ hi < Z.of_nat (length vals) /\
  (forall j, lo <= j <= hi -> 0 <= zth vals j < 2 ^ Z.of_nat level) /\
  (forall i j, lo <= i -> i < j -> j <= hi -> zth vals i < zth vals j).

(** The loop of [constructTrie] before the iteration at index [i], on a
    window whose values were [vals] at the start. *)
Definition scan_inv (vals : list Z) (lo hi split i : Z) (s : scan_state) : Prop :=
  length (representativeValues s) = length vals /\
  (forall j, 0 <= j ->
     zth (representativeValues s) j =
       if decide (lo <= j < i /\ split <= zth vals j) then zth vals j - split
       else zth vals j) /\
  ((foundSplit s = false /\ splitIndex s = hi + 1 /\ leftMax s = None /\
    rightMin s = None /\ forall j, lo <= j < i -> zth vals j < split)
   \/
   (foundSplit s = true /\ lo <= splitIndex s < i /\
    rightMin s = Some (splitIndex s) /\
    leftMax s = (if decide (splitIndex s = lo) then None else Some (splitIndex s - 1)) /\
    split <= zth vals (splitIndex s) /\
    forall j, lo <= j < splitIndex s -> zth vals j < split)).

(** What the node that the search ends in says about the query value [x],
    on the window [lo..hi] of values [w]: a leaf holds [x] itself; an inner
    node with a right side only starts, at [a], the values above [x]; an
    inner node with a left side only ends, at [b], the values below [x]. *)
Definition good (w : Z -> Z) (lo hi : Z) (node : TrieNodePtr) (x : Z) : Prop :=
  match node with
  | leafNode i => lo <= i <= hi /\ w i = x
  | innerNode None (Some a) =>
      lo <= a <= hi /\ x < w a /\ (forall j, lo <= j < a -> w j < x)
  | innerNode (Some b) None =>
      lo <= b <= hi /\ w b < x /\ (forall j, b < j <= hi -> x < w j)
  | _ => False
  end.

(** ** The calls of the recursive construction *)

(** A call of [constructTrie]: its level ([exponent + 1]), path, window and
    the state it starts from. *)
Record call : Type := {
  c_level : nat;
  c_path : string;
  c_lo : Z;
  c_hi : Z;
  c_state : list Z * gmap string TrieNodePtr
}.

(** [subcall reps c c']: the call [c] makes the recursive call [c'], for
    its left subtree or, after the left subtree is finished, for its right
    subtree. *)
Inductive subcall (reps : list TrieNode) : call -> call -> Prop :=
| subcall_left level' path lo hi st s lk1 :
    inner_step (Z.of_nat level') reps path lo hi st = Ret (s, lk1) ->
    lo < splitIndex s ->
    subcall reps
      {| c_level := S level'; c_path := path; c_lo := lo; c_hi := hi; c_state := st |}
      {| c_level := level'; c_path := path +:+ "0"; c_lo := lo;
         c_hi := splitIndex s - 1; c_state := (representativeValues s, lk1) |}
| subcall_right level' path lo hi st s lk1 st1 :
    inner_step (Z.of_nat level') reps path lo hi st = Ret (s, lk1) ->
    (if lo <? splitIndex s
     then constructTrie_rec level' reps (path +:+ "0") lo (splitIndex s - 1)
            (representativeValues s, lk1)
     else Ret (representativeValues s, lk1)) = Ret st1 ->
    splitIndex s <= hi ->
    subcall reps
      {| c_level := S level'; c_path := path; c_lo := lo; c_hi := hi; c_state := st |}
      {| c_level := level'; c_path := path +:+ "1"; c_lo := splitIndex s;
         c_hi := hi; c_state := st1 |}.

(** The call the constructor makes. *)
Definition initial_call (d : Z) (reps : list TrieNode) : call :=
  {| c_level := Z.to_nat (d + 1); c_path := EmptyString; c_lo := 0;
     c_hi := Z.of_nat (length reps) - 1; c_state := (map value reps, ∅) |}.

(** What holds at every call made on a valid input. *)
Definition call_ok (height : nat) (reps : list TrieNode) (c : call) : Prop :=
  length reps = length (fst (c_state c)) /\
  window_ok (c_level c) (fst (c_state c)) (c_lo c) (c_hi c) /\
  (c_level c <= 64)%nat /\
  (forall q, snd (c_state c) !! (c_path c +:+ q) = None) /\
  (String.length (c_path c) + c_level c = height)%nat.

(** The call that inserts the leaf of the key 20 in the scenario. *)
Definition scenario_leaf_call : call :=
  {| c_level := 0; c_path := "010100"; c_lo := 0; c_hi := 0;
     c_state :=
       ([0; 8],
        list_to_map
          [ (EmptyString, innerNode (Some 0) (Some 1));
            ("0", innerNode None (Some 0));
            ("01", innerNode (Some 0) None);
            ("010", innerNode None (Some 0));
            ("0101", innerNode (Some 0) None);
            ("01010", innerNode (Some 0) None) ]%string) |}.

(** ** Valid inputs *)

(** The inputs on which the index is meant to be used, as far as the code
    supports them: strictly ascending keys in [1, 2^63), at least as many
    keys as the depth [d] that [calcDepth] computes for them, a depth
    between 1 and 63, and every key below [2^(d+1)] (which holds when [d]
    is the exact [floor(log2(max))]). *)
Definition valid_input (L : Libm) (keys : list Z) (d : Z) : Prop :=
  StronglySorted Z.lt keys /\
  (forall k, k ∈ keys -> 1 <= k < 2 ^ 63) /\
  calcDepth L keys = Ret d /\
  1 <= d <= 63 /\ d <= Z.of_nat (length keys) /\
  (forall k, k ∈ keys -> k < 2 ^ (d + 1)).

(** ** Representatives below a path *)

(** The representative at index [j] lies below the path [q]: the bit string
    of its value, [depth_ + 1] bits wide, starts with [q]. *)
Definition below_path (t : YTrie) (q : string) (j : Z) : Prop :=
  0 <= j /\
  exists r rest, representatives_ t !! Z.to_nat j = Some r /\
    bitset_to_string (Z.to_nat (depth_ t + 1)) (value r) = q +:+ rest.

(** What the two pointers of an inner node at the path [p] stand for:
    [leftMax] is the last representative below [p0] and [rightMin] the
    first one below [p1]; a null pointer says that there is none. *)
Definition sides_ok (t : YTrie) (p : string) (l r : option Z) : Prop :=
  match l with
  | Some b => below_path t (p +:+ "0") b /\
              forall j, b < j -> ~ below_path t (p +:+ "0") j
  | None => forall j, ~ below_path t (p +:+ "0") j
  end /\
  match r with
  | Some a => below_path t (p +:+ "1") a /\
              forall j, j < a -> ~ below_path t (p +:+ "1") j
  | None => forall j, ~ below_path t (p +:+ "1") j
  end.

(** The same during the construction, over the representative values
    [orig] of the [n] representatives, [H] bits wide. *)
Definition sides_at (H : nat) (orig : Z -> Z) (n : Z) (p : string)
    (l r : option Z) : Prop :=
  match l with
  | Some b =>
      0 <= b < n /\
      (exists rest, bitset_to_string H (orig b) = (p +:+ "0") +:+ rest) /\
      forall j, b < j < n -> forall rest,
        bitset_to_string H (orig j) <> (p +:+ "0") +:+ rest
  | None =>
      forall j, 0 <= j < n -> forall rest,
        bitset_to_string H (orig j) <> (p +:+ "0") +:+ rest
  end /\
  match r with
  | Some a =>
      0 <= a < n /\
      (exists rest, bitset_to_string H (orig a) = (p +:+ "1") +:+ rest) /\
      forall j, 0 <= j < a -> forall rest,
        bitset_to_string H (orig j) <> (p +:+ "1") +:+ rest
  | None =>
      forall j, 0 <= j < n -> forall rest,
        bitset_to_string H (orig j) <> (p +:+ "1") +:+ rest
  end.

(** The window [lo..hi] of a call of [constructTrie] at [path] holds
    exactly the representatives below that path, and the values in the
    window are the bits that are left of them. *)
Definition window_below (H : nat) (orig : Z -> Z) (n : Z) (path : string)
    (level : nat) (vals : list Z) (lo hi : Z) : Prop :=
  forall j, 0 <= j < n ->
    (lo <= j <= hi ->
       bitset_to_string H (orig j) = path +:+ bitset_to_string level (zth vals j)) /\
    (~ (lo <= j <= hi) ->
       forall rest, bitset_to_string H (orig j) <> path +:+ rest).

(** * Proofs *)

(** ** Outcomes and vector accesses *)

Lemma bind_Ret {A B : Type} (m : outcome A) (f : A -> outcome B) (b : B) :
  bind m f = Ret b -> exists a, m = Ret a /\ f a = Ret b.
Proof. destruct m; simpl; intros H; try discriminate. eauto. Qed.

Ltac inv_bind H :=
  let a := fresh "a" in
  let E := fresh "E" in
  apply bind_Ret in H; destruct H as (a & E & H).

Lemma vec_at_Ret {A : Type} (v : list A) (i : Z) (a : A) :
  vec_at v i = Ret a <-> (0 <= i < Z.of_nat (length v)) /\ v !! Z.to_nat i = Some a.
Proof.
  unfold vec_at. destruct (0 <=? i) eqn:H0; destruct (i <? Z.of_nat (length v)) eqn:H1;
    simpl; try (split; [discriminate | lia]).
  destruct (v !! Z.to_nat i) eqn:E.
  - split; [intros [= ->]; split; [lia | reflexivity] | intros [_ [= ->]]; reflexivity].
  - split; [discriminate | intros [_ [=]]].
Qed.

Lemma vec_at_in_range {A : Type} (v : list A) (i : Z) :
  0 <= i < Z.of_nat (length v) -> exists a, vec_at v i = Ret a /\ v !! Z.to_nat i = Some a.
Proof.
  intros H. destruct (lookup_lt_is_Some_2 v (Z.to_nat i)) as [a Ha]; [lia|].
  exists a. split; [apply vec_at_Ret; auto | exact Ha].
Qed.

Lemma ptr_at_Ret {A : Type} (v : list A) (i : Z) (p : option Z) :
  ptr_at v i = Ret p <-> (0 <= i < Z.of_nat (length v)) /\ p = Some i.
Proof.
  unfold ptr_at. destruct (0 <=? i) eqn:H0; destruct (i <? Z.of_nat (length v)) eqn:H1;
    simpl; try (split; [discriminate | lia]).
  split; [intros [= <-]; split; [lia | reflexivity] | intros [_ ->]; reflexivity].
Qed.

Lemma vec_set_Ret {A : Type} (v : list A) (i : Z) (a : A) (v' : list A) :
  vec_set v i a = Ret v' <->
  (0 <= i < Z.of_nat (length v)) /\ v' = <[Z.to_nat i := a]> v.
Proof.
  unfold vec_set. destruct (0 <=? i) eqn:H0; destruct (i <? Z.of_nat (length v)) eqn:H1;
    simpl; try (split; [discriminate | lia]).
  split; [intros [= <-]; split; [lia | reflexivity] | intros [_ ->]; reflexivity].
Qed.

(** ** The prefix search loop *)

Lemma search_step_progress (lk : gmap string TrieNodePtr) (bits : string)
    (low high : Z) (b : TrieNodePtr) :
  0 <= low <= high ->
  exists low' high' b', search_step lk bits (low, high, b) = (low', high', b') /\
    ((low < low' /\ low' <= high + 1 /\ high' = high) \/
     (low' = low /\ high' < high /\ low - 1 <= high')).
Proof.
  intros H. unfold search_step.
  rewrite Z.quot_div_nonneg by lia.
  assert (Hm : low <= (low + high) / 2 <= high).
  { split; [apply Z.div_le_lower_bound | apply Z.div_le_upper_bound]; lia. }
  destruct (lk !! substr_prefix bits ((low + high) / 2)) as [node|].
  - eexists _, _, _. split; [reflexivity|]. left.
    destruct (Z.eqb_spec low ((low + high) / 2)); lia.
  - eexists _, _, _. split; [reflexivity|]. right.
    destruct (Z.eqb_spec high ((low + high) / 2)); lia.
Qed.

Lemma search_loop_fuel (lk : gmap string TrieNodePtr) (bits : string) (fuel : nat) :
  forall low high b, 0 <= low -> high - low + 1 <= Z.of_nat fuel ->
  exists node, search_loop fuel lk bits (low, high, b) = Some node.
Proof.
  induction fuel as [|fuel IH]; intros low high b Hlow Hf.
  - simpl. destruct (Z.leb_spec low high); [lia | eauto].
  - cbn [search_loop fst snd]. destruct (Z.leb_spec low high); [|eauto].
    destruct (search_step_progress lk bits low high b) as (l' & h' & b' & -> & Hs); [lia|].
    apply IH; lia.
Qed.

(** C10. For every depth [d >= 0] and every limit (every bit string and
    lookup table), each iteration of the prefix search loop either raises
    [lowRange] and keeps [highRange], or lowers [highRange] and keeps
    [lowRange], so the interval strictly shrinks; and the loop started on
    [0, d + 1] ends within the [d + 2] iterations it is given. *)
Theorem search_loop_terminates (lk : gmap string TrieNodePtr) (bits : string)
    (d : Z) (best : TrieNodePtr) :
  0 <= d ->
  (forall low high b, 0 <= low <= high ->
     exists low' high' b', search_step lk bits (low, high, b) = (low', high', b') /\
       ((low < low' /\ low' <= high + 1 /\ high' = high) \/
        (low' = low /\ high' < high /\ low - 1 <= high'))) /\
  exists node, search_loop (Z.to_nat (d + 2)) lk bits (0, d + 1, best) = Some node.
Proof.
  intros Hd. split.
  - intros low high b H. apply search_step_progress, H.
  - apply search_loop_fuel; lia.
Qed.

Lemma search_loop_terminates_witness :
  0 <= 5 /\
  exists node, search_loop (Z.to_nat (5 + 2)) ∅ "100010" (0, 5 + 1, nullNode) = Some node.
Proof.
  split; [lia|].
  exact (proj2 (search_loop_terminates ∅ "100010" 5 nullNode ltac:(lia))).
Defined.

(** ** Strings *)

Lemma app_cons_str (c : ascii) (a b : string) : String c a +:+ b = String c (a +:+ b).
Proof. reflexivity. Qed.

Lemma app_nil_l_str (a : string) : EmptyString +:+ a = a.
Proof. reflexivity. Qed.

Lemma app_nil_r_str (a : string) : a +:+ EmptyString = a.
Proof. induction a as [|c a IH]; [reflexivity|]. rewrite app_cons_str, IH. reflexivity. Qed.

Lemma app_assoc_str (a b c : string) : (a +:+ b) +:+ c = a +:+ (b +:+ c).
Proof.
  induction a as [|x a IH]; [reflexivity|]. rewrite !app_cons_str, IH. reflexivity.
Qed.

Lemma length_app_str (a b : string) :
  String.length (a +:+ b) = (String.length a + String.length b)%nat.
Proof.
  induction a as [|x a IH]; [reflexivity|]. rewrite app_cons_str. simpl. rewrite IH. reflexivity.
Qed.

Lemma app_snoc_inj (a b : string) (c d : ascii) :
  a +:+ String c EmptyString = b +:+ String d EmptyString -> a = b /\ c = d.
Proof.
  revert b. induction a as [|x a IH]; intros [|y b] H.
  - injection H as ->. auto.
  - rewrite app_nil_l_str, app_cons_str in H. injection H as -> H.
    destruct b; discriminate.
  - rewrite app_nil_l_str, app_cons_str in H. injection H as -> H.
    destruct a; discriminate.
  - rewrite !app_cons_str in H. injection H as -> H.
    destruct (IH _ H) as [-> ->]. auto.
Qed.

Lemma app_ne_self (p q : string) (c : ascii) : p +:+ String c q <> p.
Proof.
  intros H. apply (f_equal String.length) in H. rewrite length_app_str in H. simpl in H. lia.
Qed.

Lemma app_branch_ne (p q q' : string) (c c' : ascii) :
  c <> c' -> (p +:+ String c EmptyString) +:+ q <> (p +:+ String c' EmptyString) +:+ q'.
Proof.
  intros Hc H. rewrite !app_assoc_str in H. apply String.app_inj in H.
  rewrite !app_cons_str, !app_nil_l_str in H. congruence.
Qed.

(** ** The lookup table after construction: general facts *)

Lemma lookup_insert_new_spec (key : string) (node : TrieNodePtr)
    (lk : gmap string TrieNodePtr) (p : string) :
  lookup_insert_new key node lk !! p =
    match lk !! p with
    | Some x => Some x
    | None => if decide (key = p) then Some node else None
    end.
Proof.
  unfold lookup_insert_new. destruct (lk !! key) eqn:E.
  - destruct (lk !! p) eqn:E'; [reflexivity|]. destruct (decide (key = p)); [congruence | reflexivity].
  - rewrite lookup_insert. destruct (decide (key = p)) as [->|]; [rewrite E; reflexivity|].
    destruct (lk !! p); reflexivity.
Qed.

Lemma lookup_insert_new_mono key node (lk : gmap string TrieNodePtr) p x :
  lk !! p = Some x -> lookup_insert_new key node lk !! p = Some x.
Proof. intros H. rewrite lookup_insert_new_spec, H. reflexivity. Qed.

Lemma lookup_insert_new_present key node (lk : gmap string TrieNodePtr) :
  is_Some (lookup_insert_new key node lk !! key).
Proof.
  rewrite lookup_insert_new_spec. destruct (lk !! key); [eauto|].
  destruct (decide (key = key)); [eauto | congruence].
Qed.

Lemma lookup_insert_new_inv key node (lk : gmap string TrieNodePtr) p x :
  lookup_insert_new key node lk !! p = Some x ->
  lk !! p = Some x \/ (p = key /\ x = node).
Proof.
  rewrite lookup_insert_new_spec. destruct (lk !! p); [auto|].
  destruct (decide (key = p)); [intros [= ->]; auto | discriminate].
Qed.

Lemma entries_ok_insert height n key node (lk : gmap string TrieNodePtr) :
  entries_ok height n lk -> node_ok n node ->
  (is_leaf node = true -> String.length key = height) ->
  entries_ok height n (lookup_insert_new key node lk).
Proof.
  intros Hlk Hn Hl p x Hp. apply lookup_insert_new_inv in Hp as [Hp|[-> ->]]; auto.
Qed.

Lemma parent_closed_insert key node (lk : gmap string TrieNodePtr) :
  parent_closed lk ->
  (forall p c, key = p +:+ String c EmptyString -> is_Some (lk !! p)) ->
  parent_closed (lookup_insert_new key node lk).
Proof.
  intros Hc Hk p c [x Hx]. apply lookup_insert_new_inv in Hx as [Hx|[Hx ->]].
  - destruct (Hc p c) as [y Hy]; [eauto|]. exists y. apply lookup_insert_new_mono, Hy.
  - destruct (Hk p c) as [y Hy]; [congruence|]. exists y. apply lookup_insert_new_mono, Hy.
Qed.

Lemma scan_body_ptr_ok i lo split reps s s' :
  scan_body i lo split reps s = Ret s' ->
  ptr_ok (Z.of_nat (length reps)) (leftMax s) ->
  ptr_ok (Z.of_nat (length reps)) (rightMin s) ->
  ptr_ok (Z.of_nat (length reps)) (leftMax s') /\
  ptr_ok (Z.of_nat (length reps)) (rightMin s').
Proof.
  unfold scan_body. intros H Hl Hr. inv_bind H.
  destruct (split <=? a); [|injection H as <-; auto].
  inv_bind H. inv_bind H. injection H as <-. simpl.
  destruct (negb (foundSplit s)); [|injection E0 as <-; auto].
  inv_bind E0. inv_bind E0. injection E0 as <-. simpl.
  apply ptr_at_Ret in E3 as [? ->].
  destruct (negb (i =? lo)).
  - apply ptr_at_Ret in E2 as [? ->]. simpl. lia.
  - injection E2 as <-. simpl. auto.
Qed.

Lemma scan_loop_ptr_ok cnt : forall i lo split reps s s',
  scan_loop cnt i lo split reps s = Ret s' ->
  ptr_ok (Z.of_nat (length reps)) (leftMax s) ->
  ptr_ok (Z.of_nat (length reps)) (rightMin s) ->
  ptr_ok (Z.of_nat (length reps)) (leftMax s') /\
  ptr_ok (Z.of_nat (length reps)) (rightMin s').
Proof.
  induction cnt as [|cnt IH]; intros i lo split reps s s' H Hl Hr.
  - injection H as <-. auto.
  - simpl in H. inv_bind H.
    destruct (scan_body_ptr_ok _ _ _ _ _ _ E Hl Hr) as [Hl' Hr'].
    exact (IH _ _ _ _ _ _ H Hl' Hr').
Qed.

Lemma inner_step_node exponent reps path lo hi st s lk1 :
  inner_step exponent reps path lo hi st = Ret (s, lk1) ->
  exists node, node_ok (Z.of_nat (length reps)) node /\ is_leaf node = false /\
    lk1 = lookup_insert_new path node (snd st).
Proof.
  unfold inner_step. intros H. inv_bind H. inv_bind H. inv_bind H.
  injection H as <- <-.
  destruct (scan_loop_ptr_ok _ _ _ _ _ _ _ E0) as [Hl Hr]; simpl; auto.
  eexists. split; [|split; [|reflexivity]]; [|reflexivity].
  simpl. destruct (leftMax a0) as [l|] eqn:El.
  - injection E1 as <-. split; [left; discriminate | auto].
  - destruct (rightMin a0) as [r|] eqn:Er.
    + injection E1 as <-. split; [right; discriminate | simpl; auto].
    + apply ptr_at_Ret in E1 as [? ->]. split; [left; discriminate | simpl; auto].
Qed.

Lemma leaf_step_node reps path lo hi st st' :
  leaf_step reps path lo hi st = Ret st' ->
  exists r, 0 <= r < Z.of_nat (length reps) /\
    st' = (fst st, lookup_insert_new path (leafNode r) (snd st)).
Proof.
  unfold leaf_step. intros H. inv_bind H. destruct a as [r|]; [|discriminate].
  injection H as <-. exists r. split; [|reflexivity].
  destruct (last_bit_is_zero path); apply ptr_at_Ret in E as [? [= ->]]; lia.
Qed.

Lemma constructTrie_rec_general (height : nat) (reps : list TrieNode) (level : nat) :
  forall path lo hi st st',
  constructTrie_rec level reps path lo hi st = Ret st' ->
  (String.length path + level = height)%nat ->
  entries_ok height (Z.of_nat (length reps)) (snd st) ->
  parent_closed (snd st) ->
  (forall p c, path = p +:+ String c EmptyString -> is_Some (snd st !! p)) ->
  entries_ok height (Z.of_nat (length reps)) (snd st') /\
  parent_closed (snd st') /\
  (forall p x, snd st !! p = Some x -> snd st' !! p = Some x) /\
  is_Some (snd st' !! path).
Proof.
  induction level as [|level IH]; intros path lo hi st st' H Hlen Hok Hcl Hpar.
  - simpl in H. apply leaf_step_node in H as (r & Hr & ->). simpl.
    split; [|split; [|split]].
    + apply entries_ok_insert; auto. simpl. intros _. lia.
    + apply parent_closed_insert; auto.
    + intros p x. apply lookup_insert_new_mono.
    + apply lookup_insert_new_present.
  - simpl in H. inv_bind H. destruct a as [s lk1].
    apply inner_step_node in E as (node & Hnode & Hleaf & ->).
    inv_bind H. simpl in E, H.
    set (lk1 := lookup_insert_new path node (snd st)) in *.
    assert (Hok1 : entries_ok height (Z.of_nat (length reps)) lk1).
    { apply entries_ok_insert; auto. rewrite Hleaf. discriminate. }
    assert (Hcl1 : parent_closed lk1) by (apply parent_closed_insert; auto).
    assert (Hp1 : is_Some (lk1 !! path)) by apply lookup_insert_new_present.
    assert (Hm1 : forall p x, snd st !! p = Some x -> lk1 !! p = Some x).
    { intros p x. apply lookup_insert_new_mono. }
    assert (HL : entries_ok height (Z.of_nat (length reps)) (snd a) /\
                 parent_closed (snd a) /\
                 (forall p x, lk1 !! p = Some x -> snd a !! p = Some x)).
    { destruct (lo <? splitIndex s).
      - destruct (IH _ _ _ _ _ E) as (A & B & C & _); simpl; auto.
        + rewrite length_app_str. simpl. lia.
        + intros p c Hpc. apply app_snoc_inj in Hpc as [<- _]. exact Hp1.
      - injection E as <-. simpl. auto. }
    destruct HL as (HokL & HclL & HmL).
    destruct (splitIndex s <=? hi).
    + destruct (IH _ _ _ _ _ H) as (A & B & C & _); auto.
      * rewrite length_app_str. simpl. lia.
      * intros p c Hpc. apply app_snoc_inj in Hpc as [<- _].
        destruct Hp1 as [x Hx]. exists x. auto.
      * split; [exact A|]. split; [exact B|]. split.
        -- intros p x Hx. auto.
        -- destruct Hp1 as [x Hx]. exists x. auto.
    + injection H as <-. split; [exact HokL|]. split; [exact HclL|]. split.
      * intros p x Hx. auto.
      * destruct Hp1 as [x Hx]. exists x. auto.
Qed.

(** ** The splitter *)

Lemma u64_small z : 0 <= z < 2 ^ 64 -> u64 z = z.
Proof. intros H. unfold u64. apply Z.mod_small. exact H. Qed.

Lemma constructBST_spec position groupSize values :
  0 <= groupSize -> groupSize <= position + 1 <= Z.of_nat (length values) ->
  constructBST position groupSize values =
    Ret (take (Z.to_nat groupSize) (drop (Z.to_nat (position + 1 - groupSize)) values)).
Proof.
  intros Hg Hp. unfold constructBST, BST_new.
  replace (position + 1 - (position - (groupSize - 1))) with groupSize by lia.
  replace (position - (groupSize - 1)) with (position + 1 - groupSize) by lia.
  destruct (Z.leb_spec 0 (position + 1 - groupSize)); [|lia].
  destruct (Z.leb_spec (position + 1 - groupSize) (position + 1)); [|lia].
  destruct (Z.leb_spec (position + 1) (Z.of_nat (length values))); [|lia].
  reflexivity.
Qed.

Lemma last_take_drop (values : list Z) (a g : nat) :
  (1 <= g)%nat -> (a + g <= length values)%nat ->
  last (take g (drop a values)) = values !! (a + g - 1)%nat.
Proof.
  intros Hg Hl. rewrite last_lookup.
  rewrite length_take, length_drop.
  replace (Init.Nat.pred (g `min` (length values - a))) with (g - 1)%nat by lia.
  rewrite lookup_take_lt by lia. rewrite lookup_drop. f_equal. lia.
Qed.

Lemma link_last_snoc (reps : list TrieNode) (r0 x : TrieNode) :
  link_last ((reps ++ [r0]) ++ [x]) =
    Ret ((reps ++ [setNext r0 (Some (Z.of_nat (length reps) + 1))]) ++ [x]).
Proof.
  unfold link_last. rewrite !length_app. simpl.
  replace (Z.of_nat (length reps + 1 + 1) - 2) with (Z.of_nat (length reps)) by lia.
  replace (Z.of_nat (length reps + 1 + 1) - 1) with (Z.of_nat (length reps) + 1) by lia.
  destruct (vec_at_in_range ((reps ++ [r0]) ++ [x]) (Z.of_nat (length reps))) as (a & -> & Ha).
  { rewrite !length_app. simpl. lia. }
  rewrite Nat2Z.id in Ha. rewrite <- app_assoc in Ha.
  rewrite lookup_app_r in Ha by lia. rewrite Nat.sub_diag in Ha. injection Ha as <-.
  simpl.
  assert (E : ptr_at ((reps ++ [r0]) ++ [x]) (Z.of_nat (length reps) + 1)
              = Ret (Some (Z.of_nat (length reps) + 1))).
  { apply ptr_at_Ret. rewrite !length_app. simpl. split; [lia | reflexivity]. }
  rewrite E. simpl.
  assert (E2 : forall y, vec_set ((reps ++ [r0]) ++ [x]) (Z.of_nat (length reps)) y
              = Ret ((reps ++ [y]) ++ [x])).
  { intros y. apply vec_set_Ret. rewrite !length_app. simpl. split; [lia|].
    rewrite Nat2Z.id. rewrite <- !app_assoc. rewrite insert_app_r_alt by lia.
    rewrite Nat.sub_diag. reflexivity. }
  apply E2.
Qed.

Lemma links_ok_first (x : TrieNode) :
  last (binarySearchTree x) = Some (value x) -> previous x = None -> next x = None ->
  links_ok [x].
Proof.
  intros Hl Hp Hn [|i] r Hr; simpl in Hr; [|destruct i; discriminate].
  injection Hr as <-. simpl. auto.
Qed.

Lemma links_ok_push (reps : list TrieNode) (x : TrieNode) :
  links_ok reps -> reps <> [] ->
  last (binarySearchTree x) = Some (value x) ->
  previous x = Some (Z.of_nat (length reps) - 1) -> next x = None ->
  exists reps', link_last (reps ++ [x]) = Ret reps' /\ links_ok reps' /\
    length reps' = S (length reps) /\
    map binarySearchTree reps' = map binarySearchTree reps ++ [binarySearchTree x].
Proof.
  intros Hok Hne Hl Hp Hn.
  destruct (exists_last Hne) as (front & r0 & ->).
  rewrite link_last_snoc. eexists. split; [reflexivity|].
  rewrite length_app in Hp. simpl in Hp.
  split; [|split].
  - intros i r Hr. rewrite !length_app. simpl.
    destruct (lt_eq_lt_dec i (length front)) as [[Hi|Hi]|Hi].
    + rewrite <- app_assoc in Hr. rewrite lookup_app_l in Hr by lia.
      destruct (Hok i r) as (A & B & C).
      { rewrite lookup_app_l by lia. exact Hr. }
      rewrite length_app in C. simpl in C.
      split; [exact A|]. split; [exact B|].
      destruct (decide (S i = (length front + 1)%nat)); [lia|].
      destruct (decide (S i = (length front + 1 + 1)%nat)); [lia|]. exact C.
    + subst i. rewrite <- app_assoc in Hr. rewrite lookup_app_r in Hr by lia.
      rewrite Nat.sub_diag in Hr. injection Hr as <-.
      destruct (Hok (length front) r0) as (A & B & C).
      { rewrite lookup_app_r by lia. rewrite Nat.sub_diag. reflexivity. }
      simpl. split; [exact A|]. split; [exact B|].
      destruct (decide (S (length front) = (length front + 1 + 1)%nat)); [lia|]. reflexivity.
    + rewrite lookup_app_r in Hr by (rewrite length_app; simpl; lia).
      rewrite length_app in Hr. simpl in Hr.
      destruct (i - (length front + 1))%nat eqn:Ei; [|destruct n; discriminate].
      injection Hr as <-. split; [exact Hl|]. split.
      * rewrite Hp. destruct (decide (i = 0%nat)); [lia|]. f_equal. lia.
      * rewrite Hn. destruct (decide (S i = (length front + 1 + 1)%nat)); [reflexivity | lia].
  - rewrite !length_app. simpl. lia.
  - rewrite !map_app. reflexivity.
Qed.

Lemma addRegular_step d values k reps :
  1 <= d < 2 ^ 63 -> Z.of_nat (length values) < 2 ^ 63 ->
  split_inv d values k reps ->
  (Z.of_nat k + 1) * d <= Z.of_nat (length values) ->
  exists reps',
    addRegularTrieLeaf values (u64 ((Z.of_nat k + 1) * d - 1)) reps (u64 d) = Ret reps' /\
    split_inv d values (S k) reps'.
Proof.
  intros Hd Hn (Hlen & Hkd & Hcat & Hlinks & Hsz) Hnext.
  assert (H263 : 2 ^ 63 < 2 ^ 64) by (apply Z.pow_lt_mono_r; lia).
  destruct (Z_of_nat_complete d) as [dn ->]; [lia|].
  rewrite !Nat2Z.id in *.
  set (i := (Z.of_nat k + 1) * Z.of_nat dn - 1).
  assert (Hi : 0 <= i < Z.of_nat (length values)) by (unfold i; nia).
  rewrite (u64_small i) by lia. rewrite (u64_small (Z.of_nat dn)) by lia.
  unfold addRegularTrieLeaf. rewrite (u64_small (Z.of_nat dn - 1)) by lia.
  destruct (vec_at_in_range values i Hi) as (v & -> & Hv). simpl.
  rewrite constructBST_spec by lia. simpl.
  assert (Ei : Z.to_nat (i + 1 - Z.of_nat dn) = (k * dn)%nat) by (unfold i; nia).
  rewrite Ei, Nat2Z.id.
  set (b := take dn (drop (k * dn) values)).
  assert (Hb : last b = Some v).
  { unfold b. rewrite last_take_drop by nia. rewrite <- Hv. f_equal. unfold i. nia. }
  assert (Hbl : Z.of_nat (length b) = Z.of_nat dn).
  { unfold b. rewrite length_take, length_drop. nia. }
  assert (Hcat' : concat (map binarySearchTree reps) ++ b = take (S k * dn) values).
  { rewrite Hcat. unfold b. rewrite take_take_drop. f_equal. lia. }
  destruct (Z.eqb_spec i (Z.of_nat dn - 1)) as [E|E].
  - assert (Hk0 : k = 0%nat) by (unfold i in E; nia).
    subst i. subst k.
    destruct reps; [|discriminate]. cbn [length] in *. eexists. split; [reflexivity|].
    unfold split_inv. rewrite Nat2Z.id.
    split; [reflexivity|]. split; [lia|]. split; [|split].
    + simpl. rewrite app_nil_r. exact Hcat'.
    + apply links_ok_first; auto.
    + simpl. constructor; [exact Hbl | constructor].
  - assert (Hk : (1 <= k)%nat) by (unfold i in E; nia).
    assert (Hne : reps <> []) by (intros ->; simpl in Hlen; lia).
    assert (Eb : back_ptr reps = Ret (Some (Z.of_nat (length reps) - 1))).
    { apply ptr_at_Ret. split; [lia | reflexivity]. }
    rewrite Eb. simpl.
    destruct (links_ok_push reps
      {| value := v; previous := Some (Z.of_nat (length reps) - 1); next := None;
         binarySearchTree := b |}) as (reps' & E' & Hl' & Hlen' & Hmap); auto.
    rewrite E'. exists reps'. split; [reflexivity|].
    unfold split_inv. rewrite Nat2Z.id.
    split; [lia|]. split; [lia|]. split; [|split].
    + rewrite Hmap, concat_app. simpl. rewrite app_nil_r. exact Hcat'.
    + exact Hl'.
    + rewrite Hmap. apply Forall_app. split; [exact Hsz|]. constructor; [exact Hbl | constructor].
Qed.

Lemma split_loop_spec d values (fuel : nat) : forall k reps,
  1 <= d < 2 ^ 63 -> Z.of_nat (length values) < 2 ^ 63 ->
  split_inv d values k reps ->
  Z.of_nat (length values) - Z.of_nat k * d < Z.of_nat fuel * d ->
  exists k' reps',
    split_loop fuel d values ((Z.of_nat k + 1) * d - 1) reps = Ret reps' /\
    split_inv d values k' reps' /\
    Z.of_nat (length values) < (Z.of_nat k' + 1) * d.
Proof.
  induction fuel as [|fuel IH]; intros k reps Hd Hn Hinv Hf.
  - destruct Hinv as (_ & Hkd & _). lia.
  - assert (H263 : 2 ^ 63 < 2 ^ 64) by (apply Z.pow_lt_mono_r; lia).
    cbn [split_loop].
    assert (Hkd : Z.of_nat k * d <= Z.of_nat (length values)) by apply Hinv.
    rewrite (u64_small ((Z.of_nat k + 1) * d - 1)) by nia.
    destruct (Z.ltb_spec ((Z.of_nat k + 1) * d - 1) (Z.of_nat (length values))) as [Hlt|Hge].
    + destruct (addRegular_step d values k reps Hd Hn Hinv) as (reps' & E & Hinv'); [lia|].
      rewrite (u64_small ((Z.of_nat k + 1) * d - 1)) in E by nia.
      rewrite E. simpl.
      replace ((Z.of_nat k + 1) * d - 1 + d) with ((Z.of_nat (S k) + 1) * d - 1) by lia.
      apply IH; auto. lia.
    + exists k, reps. split; [reflexivity|]. split; [exact Hinv | lia].
Qed.

Lemma split_inv_nil d values : split_inv d values 0 [].
Proof.
  split; [reflexivity|]. split; [lia|]. split; [reflexivity|]. split.
  - intros i r Hr. discriminate.
  - constructor.
Qed.

Lemma split_spec d values :
  1 <= d < 2 ^ 63 -> d <= Z.of_nat (length values) < 2 ^ 63 ->
  exists reps, split d values = Ret reps /\ reps_spec d values reps /\ reps <> [].
Proof.
  intros Hd Hn.
  assert (H263 : 2 ^ 63 < 2 ^ 64) by (apply Z.pow_lt_mono_r; lia).
  destruct (split_loop_spec d values (S (length values)) 0 [])
    as (k & reps & Hloop & Hinv & Hk); auto using split_inv_nil; [lia | nia |].
  replace ((Z.of_nat 0 + 1) * d - 1) with (d - 1) in Hloop by lia.
  unfold split. rewrite Hloop. simpl. rewrite (u64_small d) by lia.
  destruct (Z.eqb_spec d 0) as [|_]; [lia|]. simpl.
  destruct Hinv as (Hlen & Hkd & Hcat & Hlinks & Hsz).
  assert (Hk1 : (1 <= k)%nat) by nia.
  assert (Hne : reps <> []) by (intros ->; simpl in Hlen; lia).
  assert (Hrem : Z.of_nat (length values) mod d = Z.of_nat (length values) - Z.of_nat k * d).
  { symmetry. apply Z.mod_unique_pos with (q := Z.of_nat k); lia. }
  destruct (Z_of_nat_complete d) as [dn Edn]; [lia|]. subst d.
  rewrite Nat2Z.id in Hcat.
  destruct (Z.eqb_spec (Z.of_nat (length values) mod Z.of_nat dn) 0) as [E0|E0]; simpl.
  - exists reps. split; [reflexivity|]. split; [|exact Hne].
    split; [|split; [exact Hlinks|]].
    + rewrite Hcat. apply take_ge. nia.
    + intros i r Hr.
      assert (Hb : Z.of_nat (length (binarySearchTree r)) = Z.of_nat dn).
      { rewrite Forall_forall in Hsz. apply Hsz.
        apply list_elem_of_fmap. exists r. split; [reflexivity|].
        apply list_elem_of_lookup. eauto. }
      destruct (decide (S i = length reps)); [rewrite E0; simpl|]; exact Hb.
  - set (n := length values) in *.
    unfold addIrregularTrieLeaf. fold n.
    destruct (last values) as [v|] eqn:Ev.
    2:{ apply last_None in Ev. subst values. simpl in n. lia. }
    simpl.
    assert (Eb : back_ptr reps = Ret (Some (Z.of_nat (length reps) - 1))).
    { apply ptr_at_Ret. split; [lia | reflexivity]. }
    rewrite Eb. simpl.
    destruct (Z.eqb_spec (Z.of_nat dn) 0) as [|_]; [lia|]. simpl.
    rewrite constructBST_spec by (fold n; lia). fold n.
    replace (Z.to_nat (Z.of_nat n - 1 + 1 - Z.of_nat n mod Z.of_nat dn)) with (k * dn)%nat by nia.
    set (g := Z.to_nat (Z.of_nat n mod Z.of_nat dn)).
    set (b := take g (drop (k * dn) values)).
    assert (Hg : (k * dn + g = n)%nat) by (unfold g; nia).
    assert (Hb : last b = Some v).
    { unfold b. rewrite last_take_drop by (fold n; lia). rewrite <- Ev, last_lookup.
      fold n. f_equal. lia. }
    destruct (links_ok_push reps
      {| value := v; previous := Some (Z.of_nat (length reps) - 1); next := None;
         binarySearchTree := b |}) as (reps' & E' & Hl' & Hlen' & Hmap); auto.
    cbn [bind]. rewrite E'. exists reps'. split; [reflexivity|].
    split; [|intros ->; discriminate].
    split; [|split; [exact Hl'|]].
    + rewrite Hmap, concat_app, Hcat. simpl. rewrite app_nil_r. unfold b.
      rewrite take_take_drop. apply take_ge. fold n. lia.
    + intros i r Hr.
      assert (Hi : map binarySearchTree reps' !! i = Some (binarySearchTree r)).
      { rewrite list_lookup_fmap, Hr. reflexivity. }
      rewrite Hmap in Hi. fold n.
      destruct (Z.eqb_spec (Z.of_nat n mod Z.of_nat dn) 0); [lia|].
      destruct (decide (S i = length reps')) as [Ei|Ei].
      * rewrite lookup_app_r in Hi by (rewrite length_map; lia).
        rewrite length_map in Hi. replace (i - length reps)%nat with 0%nat in Hi by lia.
        injection Hi as <-. unfold b. rewrite length_take, length_drop. fold n. lia.
      * assert (i < length reps)%nat.
        { apply lookup_lt_Some in Hr. lia. }
        rewrite lookup_app_l in Hi by (rewrite length_map; lia).
        rewrite Forall_forall in Hsz. apply Hsz.
        apply list_elem_of_lookup. eauto.
Qed.

Lemma u64_pred d : u64 d <> 0 -> u64 (d - 1) = u64 d - 1.
Proof.
  unfold u64. intros H.
  assert (0 <= d mod 2 ^ 64 < 2 ^ 64) by (apply Z.mod_pos_bound; lia).
  rewrite Zminus_mod. rewrite (Z.mod_small 1) by lia. apply Z.mod_small. lia.
Qed.

Lemma split_Ret_range d values reps :
  split d values = Ret reps -> values <> [] ->
  u64 d <> 0 /\ u64 (d - 1) < Z.of_nat (length values).
Proof.
  unfold split. intros H Hne.
  assert (Hn : 0 < Z.of_nat (length values)) by (destruct values; [congruence | simpl; lia]).
  destruct (Z.eqb_spec (u64 d) 0) as [E0|E0].
  { exfalso. inv_bind H. simpl in H. discriminate. }
  split; [exact E0|].
  destruct (Z.ltb_spec (u64 (d - 1)) (Z.of_nat (length values))) as [|Hge]; [assumption|].
  exfalso. simpl in H.
  destruct (Z.ltb_spec (u64 (d - 1)) (Z.of_nat (length values))); [lia|].
  simpl in H.
  rewrite u64_pred in Hge by assumption.
  rewrite Z.mod_small in H by lia.
  destruct (Z.eqb_spec (Z.of_nat (length values)) 0); [lia|]. simpl in H.
  unfold addIrregularTrieLeaf in H. destruct (last values); discriminate.
Qed.

(** ** Vectors of values *)

Lemma zth_in_range (l : list Z) (i : Z) :
  0 <= i < Z.of_nat (length l) -> l !! Z.to_nat i = Some (zth l i).
Proof.
  intros H. unfold zth. destruct (lookup_lt_is_Some_2 l (Z.to_nat i)) as [a Ha]; [lia|].
  rewrite Ha. reflexivity.
Qed.

Lemma vec_at_zth (l : list Z) (i : Z) :
  0 <= i < Z.of_nat (length l) -> vec_at l i = Ret (zth l i).
Proof. intros H. apply vec_at_Ret. split; [exact H | apply zth_in_range, H]. Qed.

Lemma zth_insert (l : list Z) (i j a : Z) :
  0 <= i < Z.of_nat (length l) -> 0 <= j ->
  zth (<[Z.to_nat i := a]> l) j = if decide (j = i) then a else zth l j.
Proof.
  intros Hi Hj. unfold zth. destruct (decide (j = i)) as [->|Hne].
  - rewrite list_lookup_insert_eq by lia. reflexivity.
  - rewrite list_lookup_insert_ne by lia. reflexivity.
Qed.

Lemma u64_i64 z : u64 (i64 z) = u64 z.
Proof.
  unfold u64, i64. rewrite Zminus_mod_idemp_l. f_equal. lia.
Qed.

Lemma split_border_spec (e : nat) :
  (e < 64)%nat -> split_border (Z.of_nat e) = Ret (2 ^ Z.of_nat e).
Proof.
  intros He. unfold split_border.
  destruct (Z.leb_spec 0 (Z.of_nat e)); [|lia].
  destruct (Z.ltb_spec (Z.of_nat e) 64); [|lia]. simpl.
  rewrite u64_i64, Z.shiftl_1_l. rewrite u64_small; [reflexivity|].
  split; [apply Z.pow_nonneg; lia | apply Z.pow_lt_mono_r; lia].
Qed.

(** ** The scan of a sorted window *)

Section Scan.
Variables (reps : list TrieNode) (vals : list Z) (lo hi split : Z).
Hypothesis Hreps : length reps = length vals.
Hypothesis Hlo : 0 <= lo.
Hypothesis Hhi : hi < Z.of_nat (length vals).
Hypothesis Hsplit : 0 <= split.
Hypothesis Hrange : forall j, lo <= j <= hi -> 0 <= zth vals j < 2 ^ 64.
Hypothesis Hsorted : forall i j, lo <= i -> i < j -> j <= hi -> zth vals i < zth vals j.

Lemma scan_body_sorted i s :
  lo <= i <= hi -> scan_inv vals lo hi split i s ->
  exists s', scan_body i lo split reps s = Ret s' /\
             scan_inv vals lo hi split (i + 1) s'.
Proof.
  intros Hi (Hlen & Hvals & Hcase). unfold scan_body.
  rewrite vec_at_zth by lia. simpl.
  assert (Ev : zth (representativeValues s) i = zth vals i).
  { rewrite Hvals by lia.
    destruct (decide (lo <= i < i /\ split <= zth vals i)) as [[? _]|]; [lia | reflexivity]. }
  rewrite Ev.
  destruct (Z.leb_spec split (zth vals i)) as [Hge|Hlt].
  - assert (Eu : u64 (zth vals i - split) = zth vals i - split).
    { apply u64_small. specialize (Hrange i). lia. }
    rewrite Eu.
    assert (Hv' : forall vs, vs = <[Z.to_nat i := zth vals i - split]> (representativeValues s) ->
              length vs = length vals /\
              forall j, 0 <= j -> zth vs j =
                if decide (lo <= j < i + 1 /\ split <= zth vals j)
                then zth vals j - split else zth vals j).
    { intros vs ->. split; [rewrite length_insert; exact Hlen|].
      intros j Hj. rewrite zth_insert by lia.
      destruct (decide (j = i)) as [->|Hne].
      - destruct (decide (lo <= i < i + 1 /\ split <= zth vals i)) as [|Hn];
          [reflexivity | lia].
      - rewrite Hvals by lia.
        destruct (decide (lo <= j < i /\ split <= zth vals j)) as [[? ?]|Hn];
          destruct (decide (lo <= j < i + 1 /\ split <= zth vals j)) as [[? ?]|Hn'];
          try reflexivity; lia. }
    destruct Hcase as [(Hf & Hsi & Hlm & Hrm & Hbelow)|(Hf & Hsi & Hrm & Hlm & Hsv & Hbelow)].
    + rewrite Hf. simpl.
      assert (El : (if negb (i =? lo) then ptr_at reps (i - 1) else Ret (leftMax s))
                   = Ret (if decide (i = lo) then None else Some (i - 1))).
      { destruct (Z.eqb_spec i lo) as [->|Hne]; simpl.
        - destruct (decide (lo = lo)); [rewrite Hlm; reflexivity | lia].
        - destruct (decide (i = lo)); [lia|]. apply ptr_at_Ret. split; [lia | reflexivity]. }
      rewrite El. simpl.
      assert (Er : ptr_at reps i = Ret (Some i)).
      { apply ptr_at_Ret. split; [lia | reflexivity]. }
      rewrite Er. simpl.
      assert (Es : vec_set (representativeValues s) i (zth vals i - split)
                   = Ret (<[Z.to_nat i := zth vals i - split]> (representativeValues s))).
      { apply vec_set_Ret. split; [lia | reflexivity]. }
      rewrite Es. simpl. eexists. split; [reflexivity|].
      destruct (Hv' _ eq_refl) as [A B].
      split; [exact A|]. split; [exact B|]. right. simpl.
      repeat split; auto; try lia.
    + rewrite Hf. simpl.
      assert (Es : vec_set (representativeValues s) i (zth vals i - split)
                   = Ret (<[Z.to_nat i := zth vals i - split]> (representativeValues s))).
      { apply vec_set_Ret. split; [lia | reflexivity]. }
      rewrite Es. simpl. eexists. split; [reflexivity|].
      destruct (Hv' _ eq_refl) as [A B].
      split; [exact A|]. split; [exact B|]. right. simpl.
      repeat split; auto; try lia.
  - eexists. split; [reflexivity|].
    split; [exact Hlen|]. split.
    + intros j Hj. rewrite Hvals by lia.
      destruct (decide (lo <= j < i /\ split <= zth vals j)) as [[? ?]|Hn];
        destruct (decide (lo <= j < i + 1 /\ split <= zth vals j)) as [[? ?]|Hn'];
        try reflexivity; try lia.
      assert (j = i) by lia. subst j. lia.
    + destruct Hcase as [(Hf & Hsi & Hlm & Hrm & Hbelow)|(Hf & Hsi & Hrm & Hlm & Hsv & Hbelow)].
      * left. repeat split; auto. intros j Hj.
        destruct (decide (j = i)) as [->|]; [exact Hlt | apply Hbelow; lia].
      * exfalso. specialize (Hsorted (splitIndex s) i). lia.
Qed.

Lemma scan_loop_sorted cnt : forall i s,
  lo <= i -> i + Z.of_nat cnt = hi + 1 -> scan_inv vals lo hi split i s ->
  exists s', scan_loop cnt i lo split reps s = Ret s' /\
             scan_inv vals lo hi split (hi + 1) s'.
Proof.
  induction cnt as [|cnt IH]; intros i s Hi Hc Hinv.
  - simpl. exists s. split; [reflexivity|]. replace (hi + 1) with i by lia. exact Hinv.
  - simpl. destruct (scan_body_sorted i s) as (s1 & -> & Hinv1); [lia | exact Hinv |].
    simpl. apply IH; [lia | lia | exact Hinv1].
Qed.
End Scan.

Lemma app_snoc_str (p q : string) (c : ascii) :
  (p +:+ String c EmptyString) +:+ q = p +:+ String c q.
Proof. rewrite app_assoc_str. reflexivity. Qed.

(** ** Bit strings *)

Lemma bitset_to_string_mod (n : nat) : forall (m : Z) (x : Z),
  Z.of_nat n <= m -> bitset_to_string n (x mod 2 ^ m) = bitset_to_string n x.
Proof.
  induction n as [|n IH]; intros m x Hm; [reflexivity|].
  cbn [bitset_to_string]. rewrite Z.mod_pow2_bits_low by lia.
  rewrite IH by lia. reflexivity.
Qed.

Lemma bitset_to_string_low (n : nat) (x : Z) :
  0 <= x < 2 ^ Z.of_nat n ->
  bitset_to_string (S n) x = String "0" (bitset_to_string n x).
Proof.
  intros H. cbn [bitset_to_string].
  assert (E : Z.testbit x (Z.of_nat n) = false).
  { apply Z.testbit_false; [lia|]. rewrite Z.div_small by lia. reflexivity. }
  rewrite E. reflexivity.
Qed.

Lemma bitset_to_string_high (n : nat) (x : Z) :
  2 ^ Z.of_nat n <= x < 2 ^ Z.of_nat (S n) ->
  bitset_to_string (S n) x = String "1" (bitset_to_string n (x - 2 ^ Z.of_nat n)).
Proof.
  intros H. cbn [bitset_to_string].
  assert (Hp : 0 < 2 ^ Z.of_nat n) by (apply Z.pow_pos_nonneg; lia).
  assert (H2 : 2 ^ Z.of_nat (S n) = 2 * 2 ^ Z.of_nat n).
  { rewrite Nat2Z.inj_succ, Z.pow_succ_r by lia. reflexivity. }
  assert (E : Z.testbit x (Z.of_nat n) = true).
  { apply Z.testbit_true; [lia|].
    replace (x / 2 ^ Z.of_nat n) with 1; [reflexivity|].
    apply Z.div_unique with (r := x - 2 ^ Z.of_nat n); lia. }
  rewrite E. f_equal.
  rewrite <- (bitset_to_string_mod n (Z.of_nat n) x) by lia.
  rewrite <- (bitset_to_string_mod n (Z.of_nat n) (x - _)) by lia.
  f_equal.
  replace (x - 2 ^ Z.of_nat n) with (x + (-1) * 2 ^ Z.of_nat n) by lia.
  symmetry. apply Z.mod_add. lia.
Qed.

Lemma length_bitset_to_string (n : nat) (x : Z) :
  String.length (bitset_to_string n x) = n.
Proof. induction n as [|n IH]; simpl; [reflexivity | rewrite IH; reflexivity]. Qed.

(** ** One inner step on a sorted window *)

Lemma inner_step_sorted reps (level' : nat) path lo hi vals
    (lk : gmap string TrieNodePtr) :
  length reps = length vals -> window_ok (S level') vals lo hi -> (level' < 64)%nat ->
  lk !! path = None ->
  exists s,
    inner_step (Z.of_nat level') reps path lo hi (vals, lk) =
      Ret (s, <[path := innerNode
                  (if decide (splitIndex s = lo) then None else Some (splitIndex s - 1))
                  (if decide (splitIndex s <= hi) then Some (splitIndex s) else None)]> lk) /\
    length (representativeValues s) = length vals /\
    lo <= splitIndex s <= hi + 1 /\
    (forall j, 0 <= j ->
       zth (representativeValues s) j =
         if decide (splitIndex s <= j <= hi) then zth vals j - 2 ^ Z.of_nat level'
         else zth vals j) /\
    (forall j, lo <= j < splitIndex s -> zth vals j < 2 ^ Z.of_nat level') /\
    (forall j, splitIndex s <= j <= hi -> 2 ^ Z.of_nat level' <= zth vals j).
Proof.
  intros Hreps (Hlohi & Hhi & Hrange & Hsorted) Hlev Hfresh.
  assert (Hp : 0 < 2 ^ Z.of_nat level') by (apply Z.pow_pos_nonneg; lia).
  assert (Hp64 : 2 ^ Z.of_nat (S level') <= 2 ^ 64) by (apply Z.pow_le_mono_r; lia).
  unfold inner_step. rewrite split_border_spec by exact Hlev. simpl.
  set (split := 2 ^ Z.of_nat level') in *.
  destruct (scan_loop_sorted reps vals lo hi split Hreps) with
    (cnt := Z.to_nat (hi - lo + 1)) (i := lo)
    (s := {| splitIndex := hi + 1; leftMax := None; rightMin := None;
             foundSplit := false; representativeValues := vals |})
    as (s & Es & Hlen & Hvals & Hcase); try lia.
  { intros j Hj. specialize (Hrange j Hj). lia. }
  { exact Hsorted. }
  { split; [reflexivity|]. split.
    - intros j Hj. simpl.
      destruct (decide (lo <= j < lo /\ split <= zth vals j)) as [[? _]|]; [lia | reflexivity].
    - left. simpl. repeat split; auto. intros j Hj. lia. }
  rewrite Es. simpl. exists s.
  destruct Hcase as [(Hf & Hsi & Hlm & Hrm & Hbelow)|(Hf & Hsi & Hrm & Hlm & Hsv & Hbelow)].
  - rewrite Hlm, Hrm, Hsi.
    assert (Er : ptr_at reps hi = Ret (Some hi)).
    { apply ptr_at_Ret. split; [lia | reflexivity]. }
    rewrite Er. simpl. unfold lookup_insert_new. rewrite Hfresh.
    destruct (decide (hi + 1 = lo)); [lia|].
    destruct (decide (hi + 1 <= hi)); [lia|].
    replace (hi + 1 - 1) with hi by lia.
    split; [reflexivity|]. split; [exact Hlen|]. split; [lia|]. split; [|split].
    + intros j Hj. rewrite Hvals by lia.
      destruct (decide (lo <= j < hi + 1 /\ split <= zth vals j)) as [[? ?]|];
        destruct (decide (hi + 1 <= j <= hi)); try reflexivity; try lia.
      specialize (Hbelow j). lia.
    + exact Hbelow.
    + intros j Hj. lia.
  - rewrite Hlm, Hrm.
    assert (El : (match (if decide (splitIndex s = lo) then None else Some (splitIndex s - 1))
                  with
                  | Some _ => Ret (if decide (splitIndex s = lo) then None
                                   else Some (splitIndex s - 1))
                  | None => Ret (if decide (splitIndex s = lo) then None
                                 else Some (splitIndex s - 1))
                  end : outcome (option Z)) =
                 Ret (if decide (splitIndex s = lo) then None else Some (splitIndex s - 1))).
    { destruct (decide (splitIndex s = lo)); reflexivity. }
    assert (Hge : forall j, splitIndex s <= j <= hi -> split <= zth vals j).
    { intros j Hj. destruct (decide (j = splitIndex s)) as [->|]; [exact Hsv|].
      specialize (Hsorted (splitIndex s) j). lia. }
    destruct (decide (splitIndex s <= hi)); [|lia].
    unfold lookup_insert_new. rewrite Hfresh.
    destruct (decide (splitIndex s = lo)); simpl.
    + split; [reflexivity|]. split; [exact Hlen|]. split; [lia|]. split; [|split].
      * intros j Hj. rewrite Hvals by lia.
        destruct (decide (lo <= j < hi + 1 /\ split <= zth vals j)) as [[? ?]|Hn];
          destruct (decide (splitIndex s <= j <= hi)) as [?|Hn']; try reflexivity; try lia.
        specialize (Hge j). lia.
      * exact Hbelow.
      * exact Hge.
    + split; [reflexivity|]. split; [exact Hlen|]. split; [lia|]. split; [|split].
      * intros j Hj. rewrite Hvals by lia.
        destruct (decide (lo <= j < hi + 1 /\ split <= zth vals j)) as [[? ?]|Hn];
          destruct (decide (splitIndex s <= j <= hi)) as [?|Hn']; try reflexivity; try lia.
        -- specialize (Hbelow j). lia.
        -- specialize (Hge j). lia.
      * exact Hbelow.
      * exact Hge.
Qed.

Lemma pow2_S (n : nat) : 2 ^ Z.of_nat (S n) = 2 * 2 ^ Z.of_nat n.
Proof. rewrite Nat2Z.inj_succ, Z.pow_succ_r by lia. reflexivity. Qed.

(** ** The two sub-windows of an inner step *)

Section SubWindows.
Variables (level' : nat) (vals vals1 : list Z) (lo hi sidx : Z).
Hypothesis Hwin : window_ok (S level') vals lo hi.
Hypothesis Hlen1 : length vals1 = length vals.
Hypothesis Hsidx : lo <= sidx <= hi + 1.
Hypothesis Hvals1 : forall j, 0 <= j ->
  zth vals1 j = if decide (sidx <= j <= hi) then zth vals j - 2 ^ Z.of_nat level'
                else zth vals j.
Hypothesis Hbelow : forall j, lo <= j < sidx -> zth vals j < 2 ^ Z.of_nat level'.
Hypothesis Habove : forall j, sidx <= j <= hi -> 2 ^ Z.of_nat level' <= zth vals j.

Lemma vals1_left j : lo <= j < sidx -> zth vals1 j = zth vals j.
Proof.
  intros Hj. destruct Hwin as (? & _). rewrite Hvals1 by lia.
  destruct (decide (sidx <= j <= hi)); [lia | reflexivity].
Qed.

Lemma vals1_right j : sidx <= j <= hi -> zth vals1 j = zth vals j - 2 ^ Z.of_nat level'.
Proof.
  intros Hj. destruct Hwin as (? & _). rewrite Hvals1 by lia.
  destruct (decide (sidx <= j <= hi)); [reflexivity | lia].
Qed.

Lemma window_left : lo < sidx -> window_ok level' vals1 lo (sidx - 1).
Proof.
  intros Hlt. destruct Hwin as (Hlohi & Hhi & Hrange & Hsorted).
  split; [lia|]. split; [lia|]. split.
  - intros j Hj. rewrite vals1_left by lia. specialize (Hrange j). specialize (Hbelow j). lia.
  - intros i j Hi Hij Hj. rewrite !vals1_left by lia. apply Hsorted; lia.
Qed.

Lemma window_right valsL :
  sidx <= hi -> length valsL = length vals1 ->
  (forall j, 0 <= j -> ~ (lo <= j <= sidx - 1) -> zth valsL j = zth vals1 j) ->
  window_ok level' valsL sidx hi.
Proof.
  intros Hle HlenL HL. destruct Hwin as (Hlohi & Hhi & Hrange & Hsorted).
  pose proof (pow2_S level') as Hpow.
  split; [lia|]. split; [lia|]. split.
  - intros j Hj. rewrite HL by lia. rewrite vals1_right by lia.
    specialize (Hrange j). specialize (Habove j). lia.
  - intros i j Hi Hij Hj. rewrite !HL by lia. rewrite !vals1_right by lia.
    specialize (Hsorted i j). lia.
Qed.

Lemma good_left node x :
  lo < sidx -> 0 <= x < 2 ^ Z.of_nat level' ->
  good (zth vals1) lo (sidx - 1) node x -> good (zth vals) lo hi node x.
Proof.
  intros Hlt Hx. destruct Hwin as (Hlohi & Hhi & Hrange & Hsorted).
  destruct node as [|i|[b|] [a|]]; simpl; try tauto.
  - intros (Hi & E). rewrite vals1_left in E by lia. split; [lia | exact E].
  - intros (Hb & Hlt' & Hafter). rewrite vals1_left in Hlt' by lia.
    split; [lia|]. split; [exact Hlt'|]. intros j Hj.
    destruct (Z.lt_ge_cases j sidx) as [Hjs|Hjs].
    + rewrite <- (vals1_left j) by lia. apply Hafter. lia.
    + specialize (Habove j). lia.
  - intros (Ha & Hlt' & Hbefore). rewrite vals1_left in Hlt' by lia.
    split; [lia|]. split; [exact Hlt'|]. intros j Hj.
    rewrite <- (vals1_left j) by lia. apply Hbefore. lia.
Qed.

Lemma good_right valsL node x :
  sidx <= hi -> 2 ^ Z.of_nat level' <= x ->
  (forall j, 0 <= j -> ~ (lo <= j <= sidx - 1) -> zth valsL j = zth vals1 j) ->
  good (zth valsL) sidx hi node (x - 2 ^ Z.of_nat level') -> good (zth vals) lo hi node x.
Proof.
  intros Hle Hx HL. destruct Hwin as (Hlohi & Hhi & Hrange & Hsorted).
  assert (HR : forall j, sidx <= j <= hi -> zth valsL j = zth vals j - 2 ^ Z.of_nat level').
  { intros j Hj. rewrite HL by lia. apply vals1_right, Hj. }
  destruct node as [|i|[b|] [a|]]; simpl; try tauto.
  - intros (Hi & E). rewrite HR in E by lia. split; lia.
  - intros (Hb & Hlt' & Hafter). rewrite HR in Hlt' by lia.
    split; [lia|]. split; [lia|]. intros j Hj.
    specialize (Hafter j). rewrite HR in Hafter by lia. lia.
  - intros (Ha & Hlt' & Hbefore). rewrite HR in Hlt' by lia.
    split; [lia|]. split; [lia|]. intros j Hj.
    destruct (Z.lt_ge_cases j sidx) as [Hjs|Hjs].
    + specialize (Hbelow j). lia.
    + specialize (Hbefore j). rewrite HR in Hbefore by lia. lia.
Qed.
End SubWindows.

(** ** Construction of the trie over a sorted window *)

Lemma constructTrie_rec_sorted reps (level : nat) : forall path lo hi vals
    (lk : gmap string TrieNodePtr),
  length reps = length vals -> window_ok level vals lo hi -> (level <= 64)%nat ->
  (forall q, lk !! (path +:+ q) = None) ->
  exists vals' lk',
    constructTrie_rec level reps path lo hi (vals, lk) = Ret (vals', lk') /\
    length vals' = length vals /\
    (forall j, 0 <= j -> ~ (lo <= j <= hi) -> zth vals' j = zth vals j) /\
    (forall p, (forall q, p <> path +:+ q) -> lk' !! p = lk !! p) /\
    (forall x, 0 <= x < 2 ^ Z.of_nat level ->
       exists q rest node,
         bitset_to_string level x = q +:+ rest /\
         lk' !! (path +:+ q) = Some node /\
         match rest with
         | EmptyString => True
         | String c _ => lk' !! ((path +:+ q) +:+ String c EmptyString) = None
         end /\
         good (zth vals) lo hi node x).
Proof.
  induction level as [|level' IH]; intros path lo hi vals lk Hreps Hwin Hlev Hfresh.
  - (* leaf *)
    destruct Hwin as (Hlohi & Hhi & Hrange & Hsorted).
    assert (lo = hi).
    { destruct (Z.eq_dec lo hi) as [|Hne]; [assumption|]. exfalso.
      pose proof (Hrange lo ltac:(lia)). pose proof (Hrange hi ltac:(lia)).
      pose proof (Hsorted lo hi ltac:(lia) ltac:(lia) ltac:(lia)).
      change (2 ^ Z.of_nat 0) with 1 in *. lia. }
    subst hi.
    assert (Ep : ptr_at reps lo = Ret (Some lo)).
    { apply ptr_at_Ret. split; [lia | reflexivity]. }
    assert (Hp : lk !! path = None).
    { specialize (Hfresh EmptyString). rewrite app_nil_r_str in Hfresh. exact Hfresh. }
    exists vals, (<[path := leafNode lo]> lk). split.
    { cbn [constructTrie_rec]. unfold leaf_step.
      destruct (last_bit_is_zero path); rewrite Ep; simpl;
        unfold lookup_insert_new; rewrite Hp; reflexivity. }
    split; [reflexivity|]. split; [reflexivity|]. split.
    { intros p Hpq. apply lookup_insert_ne. intros <-. apply (Hpq EmptyString).
      rewrite app_nil_r_str. reflexivity. }
    intros x Hx. change (2 ^ Z.of_nat 0) with 1 in Hx.
    exists EmptyString, EmptyString, (leafNode lo). split; [reflexivity|].
    rewrite app_nil_r_str. split; [apply lookup_insert_eq|]. split; [exact I|].
    simpl. split; [lia|]. specialize (Hrange lo ltac:(lia)).
    change (2 ^ Z.of_nat 0) with 1 in Hrange. lia.
  - (* inner node *)
    assert (Hp : lk !! path = None).
    { specialize (Hfresh EmptyString). rewrite app_nil_r_str in Hfresh. exact Hfresh. }
    destruct (inner_step_sorted reps level' path lo hi vals lk Hreps Hwin ltac:(lia) Hp)
      as (s & Estep & Hlen1 & Hsidx & Hvals1 & Hbelow & Habove).
    set (sidx := splitIndex s) in *. set (vals1 := representativeValues s) in *.
    set (node := innerNode (if decide (sidx = lo) then None else Some (sidx - 1))
                           (if decide (sidx <= hi) then Some sidx else None)) in *.
    set (lk1 := <[path := node]> lk) in *.
    set (P := 2 ^ Z.of_nat level') in *.
    assert (HwinC := Hwin). destruct HwinC as (Hlohi & Hhi & Hrange & Hsorted).
    assert (Hlk1_path : lk1 !! path = Some node) by apply lookup_insert_eq.
    assert (Hlk1_other : forall p, p <> path -> lk1 !! p = lk !! p).
    { intros p Hne. apply lookup_insert_ne. congruence. }
    (* the left subtree *)
    assert (HL : exists valsL lkL,
      (if lo <? sidx
       then constructTrie_rec level' reps (path +:+ "0") lo (sidx - 1) (vals1, lk1)
       else Ret (vals1, lk1)) = Ret (valsL, lkL) /\
      length valsL = length vals1 /\
      (forall j, 0 <= j -> ~ (lo <= j <= sidx - 1) -> zth valsL j = zth vals1 j) /\
      (forall p, (forall q, p <> (path +:+ "0") +:+ q) -> lkL !! p = lk1 !! p) /\
      (lo < sidx -> forall x, 0 <= x < P ->
         exists q rest node',
           bitset_to_string level' x = q +:+ rest /\
           lkL !! ((path +:+ "0") +:+ q) = Some node' /\
           match rest with
           | EmptyString => True
           | String c _ => lkL !! (((path +:+ "0") +:+ q) +:+ String c EmptyString) = None
           end /\
           good (zth vals1) lo (sidx - 1) node' x)).
    { destruct (Z.ltb_spec lo sidx) as [Hlt|Hge].
      - destruct (IH (path +:+ "0") lo (sidx - 1) vals1 lk1) as (valsL & lkL & E & A & B & C & D).
        + congruence.
        + eapply window_left; eauto.
        + lia.
        + intros q. rewrite Hlk1_other.
          * rewrite app_assoc_str. apply Hfresh.
          * rewrite app_snoc_str. apply app_ne_self.
        + exists valsL, lkL. repeat split; auto.
      - exists vals1, lk1. split; [reflexivity|]. split; [reflexivity|].
        split; [reflexivity|]. split; [reflexivity|]. intros Hlt. lia. }
    destruct HL as (valsL & lkL & EL & HlenL & HframeL & HlkL & HgoodL).
    (* the right subtree *)
    assert (HR : exists valsR lkR,
      (if sidx <=? hi
       then constructTrie_rec level' reps (path +:+ "1") sidx hi (valsL, lkL)
       else Ret (valsL, lkL)) = Ret (valsR, lkR) /\
      length valsR = length valsL /\
      (forall j, 0 <= j -> ~ (sidx <= j <= hi) -> zth valsR j = zth valsL j) /\
      (forall p, (forall q, p <> (path +:+ "1") +:+ q) -> lkR !! p = lkL !! p) /\
      (sidx <= hi -> forall x, 0 <= x < P ->
         exists q rest node',
           bitset_to_string level' x = q +:+ rest /\
           lkR !! ((path +:+ "1") +:+ q) = Some node' /\
           match rest with
           | EmptyString => True
           | String c _ => lkR !! (((path +:+ "1") +:+ q) +:+ String c EmptyString) = None
           end /\
           good (zth valsL) sidx hi node' x)).
    { destruct (Z.leb_spec sidx hi) as [Hle|Hgt].
      - destruct (IH (path +:+ "1") sidx hi valsL lkL) as (valsR & lkR & E & A & B & C & D).
        + congruence.
        + eapply window_right; eauto.
        + lia.
        + intros q. rewrite HlkL.
          * rewrite Hlk1_other.
            -- rewrite app_assoc_str. apply Hfresh.
            -- rewrite app_snoc_str. apply app_ne_self.
          * intros q'. apply app_branch_ne. discriminate.
        + exists valsR, lkR. repeat split; auto.
      - exists valsL, lkL. split; [reflexivity|]. split; [reflexivity|].
        split; [reflexivity|]. split; [reflexivity|]. intros Hle. lia. }
    destruct HR as (valsR & lkR & ER & HlenR & HframeR & HlkR & HgoodR).
    exists valsR, lkR. split.
    { cbn [constructTrie_rec]. rewrite Estep. cbn [bind fst snd].
      fold sidx vals1 node lk1. rewrite EL. cbn [bind]. exact ER. }
    split; [congruence|]. split; [|split].
    + intros j Hj Hout. rewrite HframeR by lia. rewrite HframeL by lia.
      rewrite Hvals1 by lia. destruct (decide (sidx <= j <= hi)); [lia | reflexivity].
    + intros p Hpq. rewrite HlkR.
      * rewrite HlkL.
        -- apply Hlk1_other. intros ->. apply (Hpq EmptyString). rewrite app_nil_r_str. reflexivity.
        -- intros q ->. apply (Hpq (String "0" q)). apply app_snoc_str.
      * intros q ->. apply (Hpq (String "1" q)). apply app_snoc_str.
    + intros x Hx. rewrite pow2_S in Hx. fold P in Hx.
      assert (Hpath_final : lkR !! path = Some node).
      { rewrite HlkR.
        - rewrite HlkL; [exact Hlk1_path|].
          intros q E. symmetry in E. rewrite app_snoc_str in E.
          exact (app_ne_self _ _ _ E).
        - intros q E. symmetry in E. rewrite app_snoc_str in E.
          exact (app_ne_self _ _ _ E). }
      destruct (Z.lt_ge_cases x P) as [HxP|HxP].
      * (* the query continues to the left *)
        rewrite bitset_to_string_low by (fold P; lia).
        destruct (Z.lt_ge_cases lo sidx) as [Hlt|Hge].
        -- destruct (HgoodL Hlt x ltac:(lia)) as (q & rest & node' & Eb & Eq & Eabs & Hg).
           exists (String "0" q), rest, node'. split; [rewrite Eb; reflexivity|].
           rewrite <- app_snoc_str. split; [|split].
           ++ rewrite HlkR; [exact Eq|]. intros q'.
              apply app_branch_ne. discriminate.
           ++ destruct rest as [|c rest']; [exact I|].
              rewrite HlkR; [exact Eabs|]. intros q'.
              rewrite app_assoc_str. apply app_branch_ne. discriminate.
           ++ eapply good_left; eauto. fold P. lia.
        -- assert (sidx = lo) by lia.
           exists EmptyString, (String "0" (bitset_to_string level' x)), node.
           split; [reflexivity|]. rewrite app_nil_r_str.
           split; [exact Hpath_final|]. split.
           ++ rewrite HlkR.
              ** destruct (Z.ltb_spec lo sidx); [lia|]. injection EL as <- <-.
                 rewrite Hlk1_other; [apply Hfresh | apply app_ne_self].
              ** intros q. rewrite <- (app_nil_r_str (path +:+ "0")).
                 apply app_branch_ne. discriminate.
           ++ unfold node. destruct (decide (sidx = lo)); [|lia].
              destruct (decide (sidx <= hi)); [|lia]. simpl.
              split; [lia|]. split; [specialize (Habove sidx); fold P in Habove; lia|].
              intros j Hj. lia.
      * (* the query continues to the right *)
        rewrite bitset_to_string_high by (rewrite pow2_S; fold P; lia). fold P.
        destruct (Z.le_gt_cases sidx hi) as [Hle|Hgt].
        -- destruct (HgoodR Hle (x - P) ltac:(lia)) as (q & rest & node' & Eb & Eq & Eabs & Hg).
           exists (String "1" q), rest, node'. split; [rewrite Eb; reflexivity|].
           rewrite <- app_snoc_str. split; [exact Eq|]. split; [exact Eabs|].
           eapply good_right; eauto.
        -- assert (sidx = hi + 1) by lia.
           exists EmptyString, (String "1" (bitset_to_string level' (x - P))), node.
           split; [reflexivity|]. rewrite app_nil_r_str.
           split; [exact Hpath_final|]. split.
           ++ destruct (Z.leb_spec sidx hi); [lia|]. injection ER as <- <-.
              rewrite HlkL.
              ** rewrite Hlk1_other; [apply Hfresh | apply app_ne_self].
              ** intros q. rewrite <- (app_nil_r_str (path +:+ "1")).
                 apply app_branch_ne. discriminate.
           ++ unfold node. destruct (decide (sidx = lo)); [lia|].
              destruct (decide (sidx <= hi)); [lia|]. simpl.
              replace (sidx - 1) with hi by lia.
              split; [lia|]. split; [specialize (Hbelow hi); fold P in Hbelow; lia|].
              intros j Hj. lia.
Qed.

(** ** The specification of a predecessor query *)

Lemma foldr_max_spec (k : Z) (ks : list Z) :
  foldr Z.max k ks ∈ k :: ks /\ forall y, y ∈ k :: ks -> y <= foldr Z.max k ks.
Proof.
  induction ks as [|a ks [IHin IHmax]]; simpl.
  - split; [left|]. intros y Hy. apply list_elem_of_singleton in Hy. lia.
  - split.
    + destruct (Z.max_spec a (foldr Z.max k ks)) as [[_ ->]|[_ ->]].
      * apply elem_of_cons in IHin as [->|Hin]; [left | right; right; exact Hin].
      * right. left.
    + intros y Hy. apply elem_of_cons in Hy as [->|Hy].
      * specialize (IHmax k ltac:(left)). lia.
      * apply elem_of_cons in Hy as [->|Hy]; [lia|].
        specialize (IHmax y ltac:(right; exact Hy)). lia.
Qed.

Lemma predecessor_Some_inv keys x r :
  predecessor keys x = Some r ->
  r ∈ keys /\ r <= x /\ forall k, k ∈ keys -> k <= x -> k <= r.
Proof.
  unfold predecessor. destruct (filter (fun k => k <= x) keys) as [|k ks] eqn:E; [discriminate|].
  intros [= <-]. destruct (foldr_max_spec k ks) as [Hin Hmax].
  rewrite <- E in Hin, Hmax. apply list_elem_of_filter in Hin as [? ?].
  split; [assumption|]. split; [assumption|]. intros y Hy Hyx.
  apply Hmax. apply list_elem_of_filter. auto.
Qed.

Lemma predecessor_None_inv keys x :
  predecessor keys x = None -> forall k, k ∈ keys -> x < k.
Proof.
  unfold predecessor. destruct (filter (fun k => k <= x) keys) as [|k ks] eqn:E; [|discriminate].
  intros _ y Hy. destruct (Z.lt_ge_cases x y) as [|Hle]; [assumption|]. exfalso.
  assert (Hf : y ∈ filter (fun k => k <= x) keys) by (apply list_elem_of_filter; split; [lia | exact Hy]).
  rewrite E in Hf. inversion Hf.
Qed.

Lemma predecessor_Some keys x r :
  r ∈ keys -> r <= x -> (forall k, k ∈ keys -> k <= x -> k <= r) ->
  predecessor keys x = Some r.
Proof.
  intros Hin Hle Hmax. destruct (predecessor keys x) as [r'|] eqn:E.
  - apply predecessor_Some_inv in E as (Hin' & Hle' & Hmax').
    f_equal. specialize (Hmax r' Hin' Hle'). specialize (Hmax' r Hin Hle). lia.
  - pose proof (predecessor_None_inv _ _ E r Hin). lia.
Qed.

Lemma predecessor_None keys x :
  (forall k, k ∈ keys -> x < k) -> predecessor keys x = None.
Proof.
  intros H. destruct (predecessor keys x) as [r|] eqn:E; [|reflexivity].
  apply predecessor_Some_inv in E as (Hin & Hle & _). specialize (H r Hin). lia.
Qed.

Lemma BST_getPredecessor_spec (b : BST) lowerBound limit :
  BST_getPredecessor b lowerBound limit = default lowerBound (predecessor b limit).
Proof.
  unfold BST_getPredecessor, predecessor, BST.
  destruct (filter _ _); reflexivity.
Qed.

(** The predecessor among [pre ++ b ++ post] when all keys of [post] are
    above the limit and the keys of [pre] are below those of [b]. *)
Lemma predecessor_middle pre b post x :
  (forall k, k ∈ post -> x < k) ->
  (forall k k', k ∈ pre -> k' ∈ b -> k < k') ->
  predecessor (pre ++ b ++ post) x =
    match predecessor b x with
    | Some r => Some r
    | None => predecessor pre x
    end.
Proof.
  intros Hpost Hpre. destruct (predecessor b x) as [r|] eqn:Eb.
  - apply predecessor_Some_inv in Eb as (Hin & Hle & Hmax).
    apply predecessor_Some; [set_solver | exact Hle |].
    intros k Hk Hkx. rewrite !elem_of_app in Hk. destruct Hk as [Hk|[Hk|Hk]].
    + specialize (Hpre k r Hk Hin). lia.
    + apply Hmax; assumption.
    + specialize (Hpost k Hk). lia.
  - pose proof (predecessor_None_inv _ _ Eb) as Hb.
    destruct (predecessor pre x) as [r|] eqn:Ep.
    + apply predecessor_Some_inv in Ep as (Hin & Hle & Hmax).
      apply predecessor_Some; [set_solver | exact Hle |].
      intros k Hk Hkx. rewrite !elem_of_app in Hk. destruct Hk as [Hk|[Hk|Hk]].
      * apply Hmax; assumption.
      * specialize (Hb k Hk). lia.
      * specialize (Hpost k Hk). lia.
    + pose proof (predecessor_None_inv _ _ Ep) as Hp.
      apply predecessor_None. intros k Hk.
      rewrite !elem_of_app in Hk. destruct Hk as [Hk|[Hk|Hk]]; auto.
Qed.

Lemma sorted_le_last (l : list Z) (m : Z) :
  StronglySorted Z.lt l -> last l = Some m -> forall k, k ∈ l -> k <= m.
Proof.
  intros Hs Hl k Hk. apply last_Some in Hl as [l' ->].
  apply elem_of_app in Hk as [Hk|Hk].
  - pose proof (StronglySorted_app_1_elem_of _ _ _ k m Hs Hk ltac:(left)). lia.
  - apply list_elem_of_singleton in Hk. lia.
Qed.

Lemma last_elem_of (l : list Z) (m : Z) : last l = Some m -> m ∈ l.
Proof. intros Hl. apply last_Some in Hl as [l' ->]. set_solver. Qed.

Lemma i64_small z : - 2 ^ 63 <= z < 2 ^ 63 -> i64 z = z.
Proof.
  intros H. unfold i64. change (2 ^ 64) with (2 * 2 ^ 63).
  rewrite Z.mod_small by lia. lia.
Qed.

Lemma zth_map_value (reps : list TrieNode) (i : Z) r :
  reps !! Z.to_nat i = Some r -> zth (map value reps) i = value r.
Proof. intros H. unfold zth. rewrite list_lookup_fmap, H. reflexivity. Qed.

Lemma elem_of_concat_lookup (blocks : list (list Z)) (i : nat) b k :
  blocks !! i = Some b -> k ∈ b -> k ∈ concat blocks.
Proof.
  intros Hb Hk. apply list_elem_of_In, in_concat. exists b.
  split; apply list_elem_of_In; [|exact Hk]. apply list_elem_of_lookup. eauto.
Qed.

(** ** The answer computed from the node the search ends in *)

Section Answer.
Variables (d : Z) (keys : list Z) (reps : list TrieNode).
Hypothesis Hspec : reps_spec d keys reps.
Hypothesis Hsorted : StronglySorted Z.lt keys.

Let blocks := map binarySearchTree reps.

Lemma keys_split (a : nat) ra :
  reps !! a = Some ra ->
  keys = concat (take a blocks) ++ binarySearchTree ra ++ concat (drop (S a) blocks).
Proof.
  intros Ha. destruct Hspec as (Hcat & _).
  assert (Hb : blocks !! a = Some (binarySearchTree ra)).
  { unfold blocks. rewrite list_lookup_fmap, Ha. reflexivity. }
  rewrite <- Hcat. fold blocks. rewrite <- (take_drop_middle blocks a _ Hb) at 1.
  rewrite concat_app. simpl. reflexivity.
Qed.

Lemma value_in_block (i : nat) r :
  reps !! i = Some r -> value r ∈ binarySearchTree r.
Proof.
  intros Hi. destruct Hspec as (_ & Hlinks & _).
  destruct (Hlinks i r Hi) as (Hl & _). apply last_elem_of, Hl.
Qed.

Lemma value_in_keys (i : nat) r : reps !! i = Some r -> value r ∈ keys.
Proof.
  intros Hi. rewrite (keys_split i r Hi). pose proof (value_in_block i r Hi). set_solver.
Qed.

Lemma block_before (i a : nat) ri k :
  reps !! i = Some ri -> (i < a)%nat -> k ∈ binarySearchTree ri ->
  k ∈ concat (take a blocks).
Proof.
  intros Hi Hlt Hk. apply (elem_of_concat_lookup _ i (binarySearchTree ri)); [|exact Hk].
  rewrite lookup_take_lt by lia. unfold blocks. rewrite list_lookup_fmap, Hi. reflexivity.
Qed.

Lemma values_increase (i j : nat) ri rj :
  reps !! i = Some ri -> reps !! j = Some rj -> (i < j)%nat -> value ri < value rj.
Proof.
  intros Hi Hj Hlt. pose proof Hsorted as Hs. rewrite (keys_split j rj Hj) in Hs.
  apply (StronglySorted_app_1_elem_of _ _ _ (value ri) (value rj) Hs).
  - apply (block_before i j ri _ Hi Hlt). apply (value_in_block i ri Hi).
  - pose proof (value_in_block j rj Hj). set_solver.
Qed.

(** The keys up to block [a - 1] end with the representative value of that
    block. *)
Lemma predecessor_before (a : nat) rp x :
  reps !! a = Some rp -> value rp <= x ->
  predecessor (concat (take (S a) blocks)) x = Some (value rp).
Proof.
  intros Ha Hx.
  assert (Hb : blocks !! a = Some (binarySearchTree rp)).
  { unfold blocks. rewrite list_lookup_fmap, Ha. reflexivity. }
  assert (Hl : last (concat (take (S a) blocks)) = Some (value rp)).
  { rewrite (take_S_r _ _ _ Hb), concat_app. simpl. rewrite app_nil_r.
    rewrite last_app. destruct Hspec as (_ & Hlinks & _).
    destruct (Hlinks a rp Ha) as (-> & _). reflexivity. }
  assert (Hs : StronglySorted Z.lt (concat (take (S a) blocks))).
  { pose proof Hsorted as Hs. destruct Hspec as (Hcat & _). rewrite <- Hcat in Hs.
    fold blocks in Hs. rewrite <- (take_drop (S a) blocks), concat_app in Hs.
    eapply StronglySorted_app_1_l; eauto. }
  apply predecessor_Some; [apply last_elem_of, Hl | exact Hx |].
  intros k Hk _. eapply sorted_le_last; eauto.
Qed.

(** The query value lies below the representative of block [a] and, when
    [a > 0], above the one of block [a - 1]: the predecessor is found in
    block [a], with the representative of block [a - 1] as fallback. *)
Lemma answer_in_block (a : nat) ra x lowerBound :
  reps !! a = Some ra -> x < value ra ->
  match a with
  | O => lowerBound = 0
  | S a' => exists rp, reps !! a' = Some rp /\ value rp < x /\ lowerBound = value rp
  end ->
  BST_getPredecessor (binarySearchTree ra) lowerBound x = default 0 (predecessor keys x).
Proof.
  intros Ha Hx Hlb. rewrite BST_getPredecessor_spec.
  pose proof Hsorted as Hs. rewrite (keys_split a ra Ha) in Hs.
  rewrite (keys_split a ra Ha) at 1.
  rewrite predecessor_middle.
  - destruct (predecessor (binarySearchTree ra) x) as [r|]; [reflexivity|]. simpl.
    destruct a as [|a'].
    + simpl. subst lowerBound. reflexivity.
    + destruct Hlb as (rp & Hp & Hpx & ->).
      rewrite (predecessor_before a' rp x Hp) by lia. reflexivity.
  - intros k Hk. pose proof (value_in_block a ra Ha) as Hv.
    apply StronglySorted_app_1_r in Hs.
    pose proof (StronglySorted_app_1_elem_of _ _ _ (value ra) k Hs Hv Hk). lia.
  - intros k k' Hk Hk'.
    apply (StronglySorted_app_1_elem_of _ _ _ k k' Hs Hk).
    apply elem_of_app. left. exact Hk'.
Qed.

(** The query value lies above every key. *)
Lemma answer_above (b : nat) rb x :
  reps !! b = Some rb -> S b = length reps -> value rb < x ->
  default 0 (predecessor keys x) = value rb.
Proof.
  intros Hb Hlast Hx.
  assert (E : keys = concat (take (S b) blocks)).
  { destruct Hspec as (Hcat & _). rewrite <- Hcat. fold blocks.
    rewrite take_ge; [reflexivity|]. unfold blocks. rewrite length_map. lia. }
  rewrite E at 1. rewrite (predecessor_before b rb x Hb) by lia. reflexivity.
Qed.
End Answer.

Lemma answer_correct (d : Z) (keys : list Z) (reps : list TrieNode) node x :
  reps_spec d keys reps -> StronglySorted Z.lt keys ->
  (forall k, k ∈ keys -> 0 <= k < 2 ^ 63) ->
  good (zth (map value reps)) 0 (Z.of_nat (length reps) - 1) node x ->
  answer reps node x = Ret (default 0 (predecessor keys x)).
Proof.
  intros Hspec Hsorted Hrange Hgood.
  assert (Hres : 0 <= default 0 (predecessor keys x) < 2 ^ 63).
  { destruct (predecessor keys x) as [r|] eqn:E; simpl; [|lia].
    apply predecessor_Some_inv in E as (Hin & _). auto. }
  assert (Hlinks : links_ok reps) by apply Hspec.
  destruct node as [|i|[b|] [a|]]; simpl in Hgood; try tauto.
  - (* a leaf *)
    destruct Hgood as (Hi & E). simpl.
    destruct (vec_at_in_range reps i) as (r & -> & Hr); [lia|]. simpl.
    rewrite (zth_map_value reps i r Hr) in E.
    assert (Hp : predecessor keys x = Some x).
    { apply predecessor_Some; [|lia|auto]. rewrite <- E. eapply value_in_keys; eauto. }
    rewrite Hp in *. simpl in *. rewrite E, i64_small by lia. reflexivity.
  - (* everything routed left: the answer is behind [b] *)
    destruct Hgood as (Hb & Hx & Hafter). simpl.
    destruct (vec_at_in_range reps b) as (rb & -> & Hrb); [lia|]. simpl.
    rewrite (zth_map_value reps b rb Hrb) in Hx.
    destruct (Hlinks _ _ Hrb) as (_ & _ & Hnext). rewrite Hnext.
    destruct (decide (S (Z.to_nat b) = length reps)) as [Hlast|Hnl].
    + rewrite (answer_above d keys reps Hspec Hsorted _ _ x Hrb Hlast Hx) in *.
      rewrite i64_small by lia. reflexivity.
    + rewrite Z2Nat.id by lia.
      destruct (vec_at_in_range reps (b + 1)) as (rn & -> & Hrn); [lia|]. simpl.
      rewrite (answer_in_block d keys reps Hspec Hsorted (Z.to_nat (b + 1)) rn x).
      * rewrite i64_small by lia. reflexivity.
      * exact Hrn.
      * specialize (Hafter (b + 1) ltac:(lia)).
        rewrite (zth_map_value reps (b + 1) rn Hrn) in Hafter. exact Hafter.
      * replace (Z.to_nat (b + 1)) with (S (Z.to_nat b)) by lia. eauto.
  - (* everything routed right: the answer is before [a] *)
    destruct Hgood as (Ha & Hx & Hbefore). simpl.
    destruct (vec_at_in_range reps a) as (ra & -> & Hra); [lia|]. simpl.
    rewrite (zth_map_value reps a ra Hra) in Hx.
    destruct (Hlinks _ _ Hra) as (_ & Hprev & _). rewrite Hprev.
    destruct (decide (Z.to_nat a = 0%nat)) as [Ha0|Ha0].
    + rewrite (answer_in_block d keys reps Hspec Hsorted (Z.to_nat a) ra x); auto.
      * rewrite i64_small by lia. reflexivity.
      * rewrite Ha0. reflexivity.
    + rewrite Z2Nat.id by lia.
      destruct (vec_at_in_range reps (a - 1)) as (rp & -> & Hrp); [lia|]. simpl.
      rewrite (answer_in_block d keys reps Hspec Hsorted (Z.to_nat a) ra x); auto.
      * rewrite i64_small by lia. reflexivity.
      * destruct (Z.to_nat a) as [|a'] eqn:Ea; [lia|].
        replace (Z.to_nat (a - 1)) with a' in Hrp by lia.
        exists rp. split; [exact Hrp|]. split; [|reflexivity].
        specialize (Hbefore (a - 1) ltac:(lia)).
        rewrite (zth_map_value reps (a - 1) rp) in Hbefore; [exact Hbefore|].
        replace (Z.to_nat (a - 1)) with a' by lia. exact Hrp.
Qed.

(** ** Substrings *)

Lemma substring_0_0 (s : string) : substring 0 0 s = EmptyString.
Proof. destruct s; reflexivity. Qed.

Lemma substring_prefix_app (q rest : string) :
  substring 0 (String.length q) (q +:+ rest) = q.
Proof.
  induction q as [|c q IH].
  - simpl. destruct rest; reflexivity.
  - rewrite app_cons_str. simpl. rewrite IH. reflexivity.
Qed.

Lemma substring_full (s : string) : substring 0 (String.length s) s = s.
Proof.
  rewrite <- (app_nil_r_str s) at 2. apply substring_prefix_app.
Qed.

Lemma substring_snoc (s : string) : forall k : nat,
  (k < String.length s)%nat ->
  exists c, substring 0 (S k) s = substring 0 k s +:+ String c EmptyString.
Proof.
  induction s as [|a s IH]; intros k Hk; [simpl in Hk; lia|].
  destruct k as [|k].
  - exists a. simpl. destruct s; reflexivity.
  - simpl in Hk. destruct (IH k) as [c Hc]; [lia|]. exists c.
    change (substring 0 (S (S k)) (String a s)) with (String a (substring 0 (S k) s)).
    change (substring 0 (S k) (String a s)) with (String a (substring 0 k s)).
    rewrite Hc. reflexivity.
Qed.

Lemma substring_drop_bits (n m : nat) (x : Z) :
  substring n m (bitset_to_string (n + m) x) = bitset_to_string m x.
Proof.
  induction n as [|n IH].
  - simpl. rewrite <- (length_bitset_to_string m x) at 1. apply substring_full.
  - simpl. exact IH.
Qed.

Lemma substr_from_bits (d x : Z) :
  -1 <= d <= 63 ->
  substr_from (bitset_to_string 64 x) (64 - (d + 1)) =
    Ret (bitset_to_string (Z.to_nat (d + 1)) x).
Proof.
  intros Hd. unfold substr_from. rewrite length_bitset_to_string.
  rewrite (u64_small (64 - (d + 1))) by lia.
  destruct (Z.leb_spec (64 - (d + 1)) (Z.of_nat 64)); [|lia].
  f_equal.
  replace (Z.to_nat (Z.of_nat 64 - (64 - (d + 1)))) with (Z.to_nat (d + 1)) by lia.
  replace 64%nat with (Z.to_nat (64 - (d + 1)) + Z.to_nat (d + 1))%nat at 1 by lia.
  apply substring_drop_bits.
Qed.

Lemma substr_prefix_nat (bits : string) (k : Z) :
  0 <= k <= Z.of_nat (String.length bits) -> Z.of_nat (String.length bits) < 2 ^ 64 ->
  substr_prefix bits k = substring 0 (Z.to_nat k) bits.
Proof.
  intros Hk Hn. unfold substr_prefix. rewrite u64_small by lia.
  rewrite Z.min_l by lia. reflexivity.
Qed.

(** ** The search loop finds the longest present prefix *)

Section Search.
Variables (lk : gmap string TrieNodePtr) (bits : string) (longest : Z)
          (node : TrieNodePtr).
Hypothesis Hlen : Z.of_nat (String.length bits) < 2 ^ 64.
Hypothesis Hlongest : 0 <= longest <= Z.of_nat (String.length bits).
Hypothesis Hnode : lk !! substring 0 (Z.to_nat longest) bits = Some node.
Hypothesis Hpresent : forall k, 0 <= k <= longest ->
  is_Some (lk !! substring 0 (Z.to_nat k) bits).
Hypothesis Habsent : forall k, longest < k <= Z.of_nat (String.length bits) ->
  lk !! substring 0 (Z.to_nat k) bits = None.

Lemma search_loop_longest (fuel : nat) : forall low high best b,
  0 <= low -> high <= Z.of_nat (String.length bits) -> longest <= high ->
  b <= low <= b + 1 -> 0 <= b <= longest ->
  lk !! substring 0 (Z.to_nat b) bits = Some best ->
  high - low + 1 <= Z.of_nat fuel ->
  search_loop fuel lk bits (low, high, best) = Some node.
Proof.
  induction fuel as [|fuel IH]; intros low high best b Hlow Hhigh Hlh Hb Hbl Hbest Hfuel.
  - simpl. destruct (Z.leb_spec low high); [lia|].
    assert (b = longest) by lia. subst b. congruence.
  - cbn [search_loop fst snd]. destruct (Z.leb_spec low high) as [Hle|Hgt].
    + unfold search_step. rewrite Z.quot_div_nonneg by lia.
      assert (Hm : low <= (low + high) / 2 <= high).
      { split; [apply Z.div_le_lower_bound | apply Z.div_le_upper_bound]; lia. }
      set (middle := (low + high) / 2) in *.
      rewrite substr_prefix_nat by lia.
      destruct (lk !! substring 0 (Z.to_nat middle) bits) as [found|] eqn:E.
      * assert (middle <= longest).
        { destruct (Z.le_gt_cases middle longest) as [|Hgt]; [assumption|].
          rewrite Habsent in E by lia. discriminate. }
        apply (IH _ _ _ middle);
          first [exact E | destruct (Z.eqb_spec low middle); lia].
      * assert (longest < middle).
        { destruct (Z.lt_ge_cases longest middle) as [|Hge]; [assumption|].
          destruct (Hpresent middle ltac:(lia)) as [y Hy]. congruence. }
        apply (IH _ _ _ b);
          first [exact Hbest | destruct (Z.eqb_spec high middle); lia].
    + assert (b = longest) by lia. subst b. congruence.
Qed.
End Search.

Lemma closed_prefixes (lk : gmap string TrieNodePtr) (bits : string) (n : nat) :
  parent_closed lk -> (n <= String.length bits)%nat ->
  is_Some (lk !! substring 0 n bits) ->
  forall k, (k <= n)%nat -> is_Some (lk !! substring 0 k bits).
Proof.
  intros Hcl. induction n as [|n IH]; intros Hn Hp k Hk.
  - replace k with 0%nat by lia. exact Hp.
  - destruct (decide (k = S n)) as [->|Hne]; [exact Hp|].
    apply IH; [lia | | lia].
    destruct (substring_snoc bits n) as [c Hc]; [lia|].
    rewrite Hc in Hp. exact (Hcl _ _ Hp).
Qed.

(** The search of [getPredecessor] on a parent-closed table: when the path
    [q] is present and its extension along [bits] is not, the loop ends in
    the node at [q]. *)
Lemma search_loop_spec (lk : gmap string TrieNodePtr) (q rest : string)
    (node start : TrieNodePtr) :
  parent_closed lk ->
  Z.of_nat (String.length (q +:+ rest)) < 2 ^ 64 ->
  lk !! EmptyString = Some start ->
  lk !! q = Some node ->
  match rest with
  | EmptyString => True
  | String c _ => lk !! (q +:+ String c EmptyString) = None
  end ->
  search_loop (Z.to_nat (Z.of_nat (String.length (q +:+ rest)) - 0 + 1)) lk (q +:+ rest)
    (0, Z.of_nat (String.length (q +:+ rest)), start) = Some node.
Proof.
  intros Hcl Hlen Hstart Hq Hrest.
  set (bits := q +:+ rest) in *.
  assert (Hqlen : (String.length q <= String.length bits)%nat).
  { unfold bits. rewrite length_app_str. lia. }
  assert (Eq : substring 0 (String.length q) bits = q) by apply substring_prefix_app.
  apply (search_loop_longest lk bits (Z.of_nat (String.length q)) node) with (b := 0);
    try lia.
  - rewrite Nat2Z.id, Eq. exact Hq.
  - intros k Hk. apply (closed_prefixes lk bits (String.length q)); try lia; auto.
    rewrite Eq. eauto.
  - intros k Hk. destruct (lk !! substring 0 (Z.to_nat k) bits) eqn:E; [exfalso|reflexivity].
    assert (Hp : is_Some (lk !! substring 0 (S (String.length q)) bits)).
    { apply (closed_prefixes lk bits (Z.to_nat k)); try lia; eauto. }
    destruct rest as [|c rest'].
    + unfold bits in Hk. rewrite app_nil_r_str in Hk. lia.
    + assert (E1 : substring 0 (S (String.length q)) bits = q +:+ String c EmptyString).
      { unfold bits. replace (q +:+ String c rest') with ((q +:+ String c EmptyString) +:+ rest').
        - replace (S (String.length q)) with (String.length (q +:+ String c EmptyString)).
          + apply substring_prefix_app.
          + rewrite length_app_str. simpl. lia.
        - rewrite app_assoc_str. reflexivity. }
      rewrite E1, Hrest in Hp. destruct Hp as [? [=]].
  - change (Z.to_nat 0) with 0%nat. rewrite substring_0_0. exact Hstart.
Qed.

(** ** The constructor *)

Lemma YTrie_new_inv L values t :
  YTrie_new L values = Ret t ->
  exists d reps st,
    calcDepth L values = Ret d /\ split d values = Ret reps /\
    constructTrie reps (map value reps) ∅ d EmptyString 0 (Z.of_nat (length reps) - 1) = Ret st /\
    t = {| depth_ := d; representatives_ := reps; lookup_ := snd st |}.
Proof.
  unfold YTrie_new. intros H. inv_bind H. inv_bind H. inv_bind H. injection H as <-.
  eauto 10.
Qed.

Lemma calcDepth_nonempty L values d : calcDepth L values = Ret d -> values <> [].
Proof. intros H ->. discriminate. Qed.

Lemma constructTrie_inv reps vals (lk : gmap string TrieNodePtr) d path lo hi st :
  constructTrie reps vals lk d path lo hi = Ret st ->
  -1 <= d <= 63 /\
  constructTrie_rec (Z.to_nat (d + 1)) reps path lo hi (vals, lk) = Ret st.
Proof.
  unfold constructTrie. destruct (Z.ltb_spec d (-1)) as [|Hd]; [discriminate|]. intros H.
  split; [|exact H]. split; [lia|].
  destruct (Z.to_nat (d + 1)) as [|level'] eqn:E; [lia|].
  simpl in H. inv_bind H. unfold inner_step in E0. inv_bind E0.
  unfold split_border in E1.
  destruct (Z.ltb_spec (Z.of_nat level') 64) as [|Hge]; [lia|].
  rewrite andb_false_r in E1. discriminate.
Qed.

Lemma parent_closed_empty : parent_closed (∅ : gmap string TrieNodePtr).
Proof. intros p c [x Hx]. rewrite lookup_empty in Hx. discriminate. Qed.

Lemma entries_ok_empty height n : entries_ok height n (∅ : gmap string TrieNodePtr).
Proof. intros p x Hx. rewrite lookup_empty in Hx. discriminate. Qed.

(** The table of every constructed index. *)
Lemma built_table L values t :
  YTrie_new L values = Ret t ->
  -1 <= depth_ t <= 63 /\
  entries_ok (Z.to_nat (depth_ t + 1)) (Z.of_nat (length (representatives_ t))) (lookup_ t) /\
  parent_closed (lookup_ t) /\
  is_Some (lookup_ t !! EmptyString).
Proof.
  intros H. apply YTrie_new_inv in H as (d & reps & st & Hd & Hs & Hc & ->). simpl.
  apply constructTrie_inv in Hc as (Hrange & Hc). split; [exact Hrange|].
  destruct (constructTrie_rec_general (Z.to_nat (d + 1)) reps _ _ _ _ _ _ Hc)
    as (A & B & _ & D); simpl; auto using entries_ok_empty, parent_closed_empty.
  intros p c E. apply (f_equal String.length) in E. rewrite length_app_str in E.
  simpl in E. lia.
Qed.

(** The representatives of every constructed index. *)
Lemma built_representatives L values t :
  YTrie_new L values = Ret t -> Z.of_nat (length values) < 2 ^ 63 ->
  1 <= depth_ t <= 63 /\ depth_ t <= Z.of_nat (length values) /\
  reps_spec (depth_ t) values (representatives_ t) /\ representatives_ t <> [].
Proof.
  intros H Hn. apply YTrie_new_inv in H as (d & reps & st & Hd & Hs & Hc & ->). simpl.
  apply constructTrie_inv in Hc as (Hrange & _).
  destruct (split_Ret_range _ _ _ Hs (calcDepth_nonempty _ _ _ Hd)) as (Hd0 & Hlt).
  assert (H263 : 2 ^ 63 < 2 ^ 64) by (apply Z.pow_lt_mono_r; lia).
  assert (Hd1 : 1 <= d).
  { destruct (Z.le_gt_cases 1 d) as [|Hlt1]; [assumption|]. exfalso.
    assert (Hcase : d = -1 \/ d = 0) by lia. destruct Hcase as [-> | ->].
    - change (u64 (-1 - 1)) with (2 ^ 64 - 2) in Hlt. lia.
    - apply Hd0. reflexivity. }
  rewrite u64_small in Hlt by lia.
  destruct (split_spec d values) as (reps' & Hs' & Hspec & Hne); [lia | lia |].
  rewrite Hs in Hs'. injection Hs' as <-.
  split; [lia|]. split; [lia|]. split; [exact Hspec | exact Hne].
Qed.

(** ** Nodes met by the search *)

Lemma search_loop_from_table (lk : gmap string TrieNodePtr) bits (fuel : nat) :
  forall v node, search_loop fuel lk bits v = Some node ->
  node = snd v \/ exists p, lk !! p = Some node.
Proof.
  induction fuel as [|fuel IH]; intros [[low high] best] node H; cbn [search_loop fst snd] in H.
  - destruct (low <=? high); [discriminate|]. injection H as <-. left. reflexivity.
  - destruct (low <=? high); [|injection H as <-; left; reflexivity].
    apply IH in H. destruct H as [->|H]; [|right; exact H].
    unfold search_step.
    destruct (lk !! substr_prefix bits (Z.quot (low + high) 2)) as [found|] eqn:E; simpl.
    + right. eauto.
    + left. reflexivity.
Qed.

Lemma lookup_index_present key (lk : gmap string TrieNodePtr) node :
  lk !! key = Some node -> lookup_index key lk = (node, lk).
Proof. intros H. unfold lookup_index. rewrite H. reflexivity. Qed.

Lemma bestMatchingNode_total L values t limit :
  YTrie_new L values = Ret t ->
  exists node p, bestMatchingNode t limit = Ret (node, lookup_ t) /\
                 lookup_ t !! p = Some node.
Proof.
  intros H. destruct (built_table _ _ _ H) as (Hd & Hok & Hcl & [start Hstart]).
  unfold bestMatchingNode. rewrite substr_from_bits by exact Hd. simpl.
  rewrite (lookup_index_present _ _ _ Hstart). simpl.
  destruct (search_loop_fuel (lookup_ t) (bitset_to_string (Z.to_nat (depth_ t + 1)) limit)
              (Z.to_nat (depth_ t + 1 - 0 + 1)) 0 (depth_ t + 1) start) as [node Hnode];
    [lia | lia |].
  rewrite Hnode. apply search_loop_from_table in Hnode. simpl in Hnode.
  destruct Hnode as [->|[p Hp]]; eauto.
Qed.

(** C3. In the table of every constructed index every inner (split) node
    has a non-null [leftMax] or a non-null [rightMin]; and for every limit
    the loop of [getPredecessor] ends in a node of the table, so never in a
    split node with both sides null: the branch that returns the fault
    value [LLONG_MAX] is not taken. *)
Theorem split_nodes_have_a_side L values t :
  YTrie_new L values = Ret t ->
  (forall p l r, lookup_ t !! p = Some (innerNode l r) -> l <> None \/ r <> None) /\
  (forall limit, exists node,
     bestMatchingNode t limit = Ret (node, lookup_ t) /\
     node <> innerNode None None).
Proof.
  intros H. destruct (built_table _ _ _ H) as (_ & Hok & _).
  split.
  - intros p l r Hp. destruct (Hok _ _ Hp) as ((Hside & _) & _). exact Hside.
  - intros limit. destruct (bestMatchingNode_total _ _ _ limit H) as (node & p & E & Hp).
    exists node. split; [exact E|]. intros ->.
    destruct (Hok _ _ Hp) as (([Hl|Hr] & _) & _); congruence.
Qed.

(** C6. After construction from a strictly ascending key sequence (of
    fewer than [2^63] keys, so that its size fits the signed loop counter)
    the index satisfies the four invariants: the representative keys
    strictly increase along the [next] links; a leaf is stored only at a
    path of length [d + 1]; the parent path of every present path of
    positive length is present; and the empty path is present. *)
Theorem construction_invariants L values t :
  StronglySorted Z.lt values -> Z.of_nat (length values) < 2 ^ 63 ->
  YTrie_new L values = Ret t ->
  (forall (i : nat) r j, representatives_ t !! i = Some r -> next r = Some j ->
     exists r', representatives_ t !! Z.to_nat j = Some r' /\ value r < value r') /\
  (forall p r, lookup_ t !! p = Some (leafNode r) ->
     Z.of_nat (String.length p) = depth_ t + 1) /\
  (forall p c, is_Some (lookup_ t !! (p +:+ String c EmptyString)) -> is_Some (lookup_ t !! p)) /\
  is_Some (lookup_ t !! EmptyString).
Proof.
  intros Hsorted Hn H.
  destruct (built_table _ _ _ H) as (Hd & Hok & Hcl & Hroot).
  destruct (built_representatives _ _ _ H Hn) as (Hd1 & Hdn & Hspec & Hne).
  split; [|split; [|split]].
  - intros i r j Hi Hnext. assert (Hlinks : links_ok (representatives_ t)) by apply Hspec.
    destruct (Hlinks i r Hi) as (_ & _ & Hnx). rewrite Hnx in Hnext.
    destruct (decide (S i = length (representatives_ t))) as [|Hnl]; [discriminate|].
    injection Hnext as <-.
    pose proof (lookup_lt_Some _ _ _ Hi) as Hlt.
    replace (Z.to_nat (Z.of_nat i + 1)) with (S i) by lia.
    destruct (lookup_lt_is_Some_2 (representatives_ t) (S i)) as [r' Hr']; [lia|].
    exists r'. split; [exact Hr'|].
    apply (values_increase (depth_ t) values (representatives_ t) Hspec Hsorted i (S i));
      auto.
  - intros p r Hp. destruct (Hok _ _ Hp) as (_ & Hl). rewrite (Hl eq_refl). lia.
  - exact Hcl.
  - exact Hroot.
Qed.

Lemma answer_total reps node limit :
  links_ok reps -> node_ok (Z.of_nat (length reps)) node ->
  exists a, answer reps node limit = Ret a.
Proof.
  intros Hlinks Hnode. destruct node as [|i|[l|] [r|]]; simpl in Hnode.
  - contradiction.
  - simpl. destruct (vec_at_in_range reps i Hnode) as (n & -> & _). simpl. eauto.
  - destruct Hnode as (_ & Hl & _). simpl.
    destruct (vec_at_in_range reps l Hl) as (n & -> & Hn). simpl.
    destruct (Hlinks _ _ Hn) as (_ & _ & ->).
    destruct (decide _); [eauto|].
    destruct (vec_at_in_range reps (Z.of_nat (Z.to_nat l) + 1)) as (n' & -> & _); [lia|].
    simpl. eauto.
  - destruct Hnode as (_ & Hl & _). simpl.
    destruct (vec_at_in_range reps l Hl) as (n & -> & Hn). simpl.
    destruct (Hlinks _ _ Hn) as (_ & _ & ->).
    destruct (decide _); [eauto|].
    destruct (vec_at_in_range reps (Z.of_nat (Z.to_nat l) + 1)) as (n' & -> & _); [lia|].
    simpl. eauto.
  - destruct Hnode as (_ & _ & Hr). simpl.
    destruct (vec_at_in_range reps r Hr) as (n & -> & Hn). simpl.
    destruct (Hlinks _ _ Hn) as (_ & -> & _).
    destruct (decide _); [eauto|].
    destruct (vec_at_in_range reps (Z.of_nat (Z.to_nat r) - 1)) as (n' & -> & _); [lia|].
    simpl. eauto.
  - destruct Hnode as ([?|?] & _); congruence.
Qed.

Lemma YTrie_eta (t : YTrie) :
  {| depth_ := depth_ t; representatives_ := representatives_ t; lookup_ := lookup_ t |} = t.
Proof. destruct t. reflexivity. Qed.

(** C8. For every index the constructor returns (on fewer than [2^63]
    keys) and every limit, [getPredecessor] returns and leaves the index
    (depth, representatives with their blocks, lookup table) as it was; a
    second identical call therefore runs on the same index and returns the
    same result. *)
Theorem getPredecessor_preserves_index L values t limit :
  YTrie_new L values = Ret t -> Z.of_nat (length values) < 2 ^ 63 ->
  exists a, getPredecessor t limit = Ret (a, t) /\
    forall t', getPredecessor t limit = Ret (a, t') ->
               getPredecessor t' limit = Ret (a, t').
Proof.
  intros H Hn.
  destruct (built_table _ _ _ H) as (_ & Hok & _).
  destruct (built_representatives _ _ _ H Hn) as (_ & _ & Hspec & _).
  destruct (bestMatchingNode_total _ _ _ limit H) as (node & p & E & Hp).
  destruct (answer_total (representatives_ t) node limit) as [a Ha].
  { apply Hspec. }
  { apply (Hok _ _ Hp). }
  assert (Hg : getPredecessor t limit = Ret (a, t)).
  { unfold getPredecessor. rewrite E. simpl. rewrite Ha. simpl. rewrite YTrie_eta. reflexivity. }
  exists a. split; [exact Hg|].
  intros t' Ht'. rewrite Hg in Ht'. injection Ht' as <-. exact Hg.
Qed.

(** ** Valid key sequences *)

Lemma sorted_length_bound (l : list Z) : forall lo hi,
  StronglySorted Z.lt l -> (forall k, k ∈ l -> lo <= k < hi) -> lo <= hi ->
  Z.of_nat (length l) <= hi - lo.
Proof.
  induction l as [|a l IH]; intros lo hi Hs Hr Hlh; [simpl; lia|].
  apply StronglySorted_inv in Hs as [Hs Ha].
  pose proof (Hr a ltac:(left)).
  specialize (IH (a + 1) hi Hs). simpl length. rewrite Nat2Z.inj_succ.
  assert (Z.of_nat (length l) <= hi - (a + 1)); [|lia].
  apply IH; [|lia]. intros k Hk. rewrite Forall_forall in Ha.
  specialize (Ha k Hk). specialize (Hr k ltac:(right; exact Hk)). lia.
Qed.

Lemma initial_window d keys reps :
  reps_spec d keys reps -> reps <> [] -> StronglySorted Z.lt keys ->
  (forall k, k ∈ keys -> 0 <= k < 2 ^ (d + 1)) -> 0 <= d + 1 ->
  window_ok (Z.to_nat (d + 1)) (map value reps) 0 (Z.of_nat (length reps) - 1).
Proof.
  intros Hspec Hne Hsorted Hrange Hd.
  assert (Hlen : (0 < length reps)%nat) by (destruct reps; [congruence | simpl; lia]).
  split; [lia|]. split; [rewrite length_map; lia|]. split.
  - intros j Hj. destruct (lookup_lt_is_Some_2 reps (Z.to_nat j)) as [r Hr]; [lia|].
    rewrite (zth_map_value reps j r Hr). rewrite Z2Nat.id by lia.
    apply Hrange. eapply value_in_keys; eauto.
  - intros i j Hi Hij Hj.
    destruct (lookup_lt_is_Some_2 reps (Z.to_nat i)) as [ri Hri]; [lia|].
    destruct (lookup_lt_is_Some_2 reps (Z.to_nat j)) as [rj Hrj]; [lia|].
    rewrite (zth_map_value reps i ri Hri), (zth_map_value reps j rj Hrj).
    apply (values_increase d keys reps Hspec Hsorted (Z.to_nat i) (Z.to_nat j)); auto. lia.
Qed.

(** With [d = floor(log2(max))] every key has at most [d + 1] bits. *)
Lemma depth_covers_keys keys mx :
  StronglySorted Z.lt keys -> last keys = Some mx -> 0 < mx ->
  forall k, k ∈ keys -> k < 2 ^ (Z.log2 mx + 1).
Proof.
  intros Hs Hl Hmx k Hk. pose proof (sorted_le_last keys mx Hs Hl k Hk).
  pose proof (Z.log2_spec mx Hmx) as [_ Hlt].
  replace (Z.succ (Z.log2 mx)) with (Z.log2 mx + 1) in Hlt by lia. lia.
Qed.

(** C1, as the code has it. For every strictly ascending sequence of keys
    in [1, 2^63) with at least [d] keys, whose computed depth [d] is between
    1 and 63 and covers the keys (every key is below [2^(d+1)], as it is for
    [d = floor(log2(max))]), the construction returns an index, and for
    every limit in [0, 2^(d+1)) [getPredecessor] returns the largest key
    that is at most the limit, or 0 when there is no such key, and leaves
    the index unchanged. *)
Theorem getPredecessor_correct L keys d limit :
  StronglySorted Z.lt keys ->
  (forall k, k ∈ keys -> 1 <= k < 2 ^ 63) ->
  calcDepth L keys = Ret d ->
  1 <= d <= 63 -> d <= Z.of_nat (length keys) ->
  (forall k, k ∈ keys -> k < 2 ^ (d + 1)) ->
  0 <= limit < 2 ^ (d + 1) ->
  exists t, YTrie_new L keys = Ret t /\
    getPredecessor t limit = Ret (default 0 (predecessor keys limit), t).
Proof.
  intros Hsorted Hrange Hdepth Hd Hdn Hcover Hlimit.
  assert (Hn : Z.of_nat (length keys) < 2 ^ 63).
  { pose proof (sorted_length_bound keys 1 (2 ^ 63) Hsorted Hrange ltac:(lia)). lia. }
  destruct (split_spec d keys) as (reps & Hsplit & Hspec & Hne); [lia | lia |].
  assert (Hwin : window_ok (Z.to_nat (d + 1)) (map value reps) 0 (Z.of_nat (length reps) - 1)).
  { apply (initial_window d keys); auto; [|lia].
    intros k Hk. specialize (Hrange k Hk). specialize (Hcover k Hk). lia. }
  destruct (constructTrie_rec_sorted reps (Z.to_nat (d + 1)) EmptyString 0 (Z.of_nat (length reps) - 1)
              (map value reps) ∅) as (vals' & lk' & Hrec & _ & _ & _ & Hgood).
  { rewrite length_map. reflexivity. }
  { exact Hwin. }
  { lia. }
  { intros q. apply lookup_empty. }
  set (t := {| depth_ := d; representatives_ := reps; lookup_ := lk' |}).
  assert (Hnew : YTrie_new L keys = Ret t).
  { unfold YTrie_new. rewrite Hdepth. simpl. rewrite Hsplit. simpl.
    unfold constructTrie. destruct (Z.ltb_spec d (-1)); [lia|]. rewrite Hrec. reflexivity. }
  exists t. split; [exact Hnew|].
  destruct (built_table _ _ _ Hnew) as (_ & _ & Hcl & [start Hstart]). simpl in Hcl, Hstart.
  destruct (Hgood limit) as (q & rest & node & Ebits & Hq & Hrest & Hg).
  { rewrite Z2Nat.id by lia. exact Hlimit. }
  rewrite !app_nil_l_str in *.
  assert (Hbits : Z.of_nat (String.length (q +:+ rest)) = d + 1).
  { rewrite <- Ebits, length_bitset_to_string. lia. }
  assert (Hbest : bestMatchingNode t limit = Ret (node, lk')).
  { unfold bestMatchingNode, t. cbn [depth_ lookup_ representatives_].
    rewrite substr_from_bits by lia. cbn [bind].
    rewrite (lookup_index_present _ _ _ Hstart). cbn [fst snd]. rewrite Ebits.
    replace (d + 1) with (Z.of_nat (String.length (q +:+ rest))) by exact Hbits.
    rewrite (search_loop_spec lk' q rest node start); auto.
    rewrite Hbits. assert (2 ^ 6 < 2 ^ 64) by (apply Z.pow_lt_mono_r; lia).
    change (2 ^ 6) with 64 in *. lia. }
  unfold getPredecessor. rewrite Hbest. cbn [bind fst snd]. unfold t at 1.
  cbn [depth_ lookup_ representatives_].
  rewrite (answer_correct d keys reps node limit Hspec Hsorted); [reflexivity | | exact Hg].
  intros k Hk. specialize (Hrange k Hk). lia.
Qed.

(** ** The calls made during construction *)

Lemma subcall_ok height reps c c' :
  subcall reps c c' -> call_ok height reps c -> call_ok height reps c'.
Proof.
  intros Hsub (Hreps & Hwin & Hlev & Hfresh & Hheight).
  destruct Hsub as [level' path lo hi [vals lk] s lk1 Hstep Hlt
                   |level' path lo hi [vals lk] s lk1 st1 Hstep Hleft Hle];
    cbn [c_level c_path c_lo c_hi c_state fst snd] in *.
  - assert (Hp : lk !! path = None).
    { specialize (Hfresh EmptyString). rewrite app_nil_r_str in Hfresh. exact Hfresh. }
    destruct (inner_step_sorted reps level' path lo hi vals lk Hreps Hwin ltac:(lia) Hp)
      as (s' & Estep & Hlen1 & Hsidx & Hvals1 & Hbelow & Habove).
    rewrite Hstep in Estep. injection Estep as <- ->.
    unfold call_ok. cbn [c_level c_path c_lo c_hi c_state fst snd].
    split; [congruence|]. split; [eapply window_left; eauto|]. split; [lia|]. split.
    + intros q. rewrite lookup_insert_ne.
      * rewrite app_assoc_str. apply Hfresh.
      * intros E. symmetry in E. rewrite app_snoc_str in E. exact (app_ne_self _ _ _ E).
    + rewrite length_app_str. simpl. lia.
  - assert (Hp : lk !! path = None).
    { specialize (Hfresh EmptyString). rewrite app_nil_r_str in Hfresh. exact Hfresh. }
    destruct (inner_step_sorted reps level' path lo hi vals lk Hreps Hwin ltac:(lia) Hp)
      as (s' & Estep & Hlen1 & Hsidx & Hvals1 & Hbelow & Habove).
    rewrite Hstep in Estep. injection Estep as <- ->.
    assert (Hlk1 : forall q, (<[path := innerNode
                (if decide (splitIndex s = lo) then None else Some (splitIndex s - 1))
                (if decide (splitIndex s <= hi) then Some (splitIndex s) else None)]> lk)
                !! ((path +:+ "1") +:+ q) = None).
    { intros q. rewrite lookup_insert_ne.
      - rewrite app_assoc_str. apply Hfresh.
      - intros E. symmetry in E. rewrite app_snoc_str in E. exact (app_ne_self _ _ _ E). }
    destruct (Z.ltb_spec lo (splitIndex s)) as [Hlt|Hge].
    + destruct (constructTrie_rec_sorted reps level' (path +:+ "0") lo (splitIndex s - 1)
                  (representativeValues s) (<[path := innerNode
                (if decide (splitIndex s = lo) then None else Some (splitIndex s - 1))
                (if decide (splitIndex s <= hi) then Some (splitIndex s) else None)]> lk))
        as (valsL & lkL & EL & HlenL & HframeL & HlkL & _).
      * congruence.
      * eapply window_left; eauto.
      * lia.
      * intros q. rewrite lookup_insert_ne.
        -- rewrite app_assoc_str. apply Hfresh.
        -- intros E. symmetry in E. rewrite app_snoc_str in E. exact (app_ne_self _ _ _ E).
      * rewrite Hleft in EL. injection EL as ->.
        unfold call_ok. cbn [c_level c_path c_lo c_hi c_state fst snd].
        split; [congruence|]. split; [eapply window_right; eauto|]. split; [lia|]. split.
        -- intros q. rewrite HlkL; [apply Hlk1|].
           intros q'. apply app_branch_ne. discriminate.
        -- rewrite length_app_str. simpl. lia.
    + injection Hleft as <-.
      unfold call_ok. cbn [c_level c_path c_lo c_hi c_state fst snd].
      split; [congruence|]. split.
      * eapply window_right; eauto.
      * split; [lia|]. split; [exact Hlk1|]. rewrite length_app_str. simpl. lia.
Qed.

Lemma reachable_ok height reps c c' :
  rtc (subcall reps) c c' -> call_ok height reps c -> call_ok height reps c'.
Proof. induction 1; eauto using subcall_ok. Qed.

Lemma last_bit_is_zero_false (bitHistory : string) : last_bit_is_zero bitHistory = false.
Proof.
  unfold last_bit_is_zero.
  assert (E : substring (String.length bitHistory) 1 bitHistory = EmptyString).
  { induction bitHistory as [|c s IH]; [reflexivity | simpl; exact IH]. }
  rewrite E. reflexivity.
Qed.

(** C7. At every leaf step of the construction on a valid input (the call
    has exponent -1, so its path has length [d + 1]) exactly one
    representative remains in the window, [lo = hi], and the leaf inserted
    at the path is that representative: the one at [lo] when the path ends
    in "0" and the one at [hi] when it ends in "1". *)
Theorem leaf_step_selects L keys t :
  StronglySorted Z.lt keys ->
  (forall k, k ∈ keys -> 1 <= k < 2 ^ 63) ->
  (forall k, k ∈ keys -> k < 2 ^ (depth_ t + 1)) ->
  YTrie_new L keys = Ret t ->
  forall c,
    rtc (subcall (representatives_ t))
        (initial_call (depth_ t) (representatives_ t)) c ->
    c_level c = 0%nat ->
    c_lo c = c_hi c /\
    Z.of_nat (String.length (c_path c)) = depth_ t + 1 /\
    exists r,
      leaf_step (representatives_ t) (c_path c) (c_lo c) (c_hi c) (c_state c) =
        Ret (fst (c_state c), <[c_path c := leafNode r]> (snd (c_state c))) /\
      (forall p, c_path c = p +:+ "0" -> r = c_lo c) /\
      (forall p, c_path c = p +:+ "1" -> r = c_hi c).
Proof.
  intros Hsorted Hrange Hcover Hnew c Hreach Hleaf.
  assert (Hn : Z.of_nat (length keys) < 2 ^ 63).
  { pose proof (sorted_length_bound keys 1 (2 ^ 63) Hsorted Hrange ltac:(lia)). lia. }
  destruct (built_representatives _ _ _ Hnew Hn) as (Hd & Hdn & Hspec & Hne).
  assert (Hinit : call_ok (Z.to_nat (depth_ t + 1)) (representatives_ t)
                    (initial_call (depth_ t) (representatives_ t))).
  { unfold call_ok, initial_call. cbn [c_level c_path c_lo c_hi c_state fst snd].
    split; [rewrite length_map; reflexivity|]. split.
    - apply (initial_window (depth_ t) keys); auto; [|lia].
      intros k Hk. specialize (Hrange k Hk). specialize (Hcover k Hk). lia.
    - split; [lia|]. split; [intros q; apply lookup_empty | simpl; lia]. }
  destruct (reachable_ok _ _ _ _ Hreach Hinit)
    as (Hreps & (Hlohi & Hhi & Hvals & Hincr) & _ & Hfresh & Hheight).
  rewrite Hleaf in *. change (2 ^ Z.of_nat 0) with 1 in Hvals.
  assert (Heq : c_lo c = c_hi c).
  { destruct (Z.eq_dec (c_lo c) (c_hi c)) as [|Hne']; [assumption|]. exfalso.
    pose proof (Hvals (c_lo c) ltac:(lia)). pose proof (Hvals (c_hi c) ltac:(lia)).
    pose proof (Hincr (c_lo c) (c_hi c) ltac:(lia) ltac:(lia) ltac:(lia)). lia. }
  split; [exact Heq|]. split; [lia|].
  exists (c_hi c). split; [|split].
  - unfold leaf_step. rewrite last_bit_is_zero_false.
    assert (Ep : ptr_at (representatives_ t) (c_hi c) = Ret (Some (c_hi c))).
    { apply ptr_at_Ret. split; [lia | reflexivity]. }
    rewrite Ep. cbn [bind]. unfold lookup_insert_new.
    specialize (Hfresh EmptyString). rewrite app_nil_r_str in Hfresh. rewrite Hfresh. reflexivity.
  - intros p _. congruence.
  - intros p _. reflexivity.
Qed.

(** ** No path of the constructor throws *)

Lemma bind_Throws {A B : Type} (m : outcome A) (f : A -> outcome B) :
  m <> Throws -> (forall a, f a <> Throws) -> bind m f <> Throws.
Proof. intros Hm Hf. destruct m; simpl; [apply Hf | congruence | discriminate]. Qed.

Lemma vec_at_no_throw {A : Type} (v : list A) i : vec_at v i <> Throws.
Proof. unfold vec_at. destruct (_ && _); [destruct (v !! _)|]; discriminate. Qed.

Lemma ptr_at_no_throw {A : Type} (v : list A) i : ptr_at v i <> Throws.
Proof. unfold ptr_at. destruct (_ && _); discriminate. Qed.

Lemma vec_set_no_throw {A : Type} (v : list A) i a : vec_set v i a <> Throws.
Proof. unfold vec_set. destruct (_ && _); discriminate. Qed.

Lemma constructBST_no_throw p g values : constructBST p g values <> Throws.
Proof. unfold constructBST. destruct (_ && _); discriminate. Qed.

Lemma link_last_no_throw reps : link_last reps <> Throws.
Proof.
  unfold link_last. apply bind_Throws; [apply vec_at_no_throw|]. intros n.
  apply bind_Throws; [apply ptr_at_no_throw|]. intros p. apply vec_set_no_throw.
Qed.

Lemma addRegularTrieLeaf_no_throw values index reps depth :
  addRegularTrieLeaf values index reps depth <> Throws.
Proof.
  unfold addRegularTrieLeaf. destruct (index =? _).
  - apply bind_Throws; [apply vec_at_no_throw|]. intros v.
    apply bind_Throws; [apply constructBST_no_throw|]. discriminate.
  - apply bind_Throws; [apply vec_at_no_throw|]. intros v.
    apply bind_Throws; [apply ptr_at_no_throw|]. intros p.
    apply bind_Throws; [apply constructBST_no_throw|]. intros b. apply link_last_no_throw.
Qed.

Lemma addIrregularTrieLeaf_no_throw values reps depth :
  addIrregularTrieLeaf values reps depth <> Throws.
Proof.
  unfold addIrregularTrieLeaf.
  apply bind_Throws; [destruct (last values); discriminate|]. intros v.
  apply bind_Throws; [apply ptr_at_no_throw|]. intros p.
  apply bind_Throws; [destruct (depth =? 0); discriminate|]. intros g.
  apply bind_Throws; [apply constructBST_no_throw|]. intros b. apply link_last_no_throw.
Qed.

Lemma split_loop_no_throw fuel : forall d values i reps,
  split_loop fuel d values i reps <> Throws.
Proof.
  induction fuel as [|fuel IH]; intros d values i reps; simpl;
    destruct (u64 i <? _); try discriminate.
  apply bind_Throws; [apply addRegularTrieLeaf_no_throw|]. intros r. apply IH.
Qed.

Lemma split_no_throw d values : split d values <> Throws.
Proof.
  unfold split. apply bind_Throws; [apply split_loop_no_throw|]. intros reps.
  apply bind_Throws; [destruct (u64 d =? 0); discriminate|]. intros r.
  destruct (negb _); [apply addIrregularTrieLeaf_no_throw | discriminate].
Qed.

Lemma scan_body_no_throw i lo split reps s : scan_body i lo split reps s <> Throws.
Proof.
  unfold scan_body. apply bind_Throws; [apply vec_at_no_throw|]. intros v.
  destruct (split <=? v); [|discriminate].
  apply bind_Throws.
  - destruct (negb (foundSplit s)); [|discriminate].
    apply bind_Throws; [destruct (negb _); [apply ptr_at_no_throw | discriminate]|].
    intros lm. apply bind_Throws; [apply ptr_at_no_throw | discriminate].
  - intros s1. apply bind_Throws; [apply vec_set_no_throw | discriminate].
Qed.

Lemma scan_loop_no_throw cnt : forall i lo split reps s,
  scan_loop cnt i lo split reps s <> Throws.
Proof.
  induction cnt as [|cnt IH]; intros i lo split reps s; simpl; [discriminate|].
  apply bind_Throws; [apply scan_body_no_throw|]. intros s'. apply IH.
Qed.

Lemma inner_step_no_throw e reps path lo hi st : inner_step e reps path lo hi st <> Throws.
Proof.
  unfold inner_step. apply bind_Throws.
  { unfold split_border. destruct (_ && _); discriminate. }
  intros split. apply bind_Throws; [apply scan_loop_no_throw|]. intros s.
  apply bind_Throws; [|discriminate].
  destruct (leftMax s); [discriminate|]. destruct (rightMin s); [discriminate|].
  apply ptr_at_no_throw.
Qed.

Lemma leaf_step_no_throw reps path lo hi st : leaf_step reps path lo hi st <> Throws.
Proof.
  unfold leaf_step. apply bind_Throws.
  - destruct (last_bit_is_zero path); apply ptr_at_no_throw.
  - intros [r|]; discriminate.
Qed.

Lemma constructTrie_rec_no_throw level : forall reps path lo hi st,
  constructTrie_rec level reps path lo hi st <> Throws.
Proof.
  induction level as [|level IH]; intros reps path lo hi st; simpl.
  - apply leaf_step_no_throw.
  - apply bind_Throws; [apply inner_step_no_throw|]. intros r.
    apply bind_Throws.
    + destruct (lo <? _); [apply IH | discriminate].
    + intros st1. destruct (_ <=? hi); [apply IH | discriminate].
Qed.

Lemma YTrie_new_no_throw L values : YTrie_new L values <> Throws.
Proof.
  unfold YTrie_new. apply bind_Throws.
  { unfold calcDepth. destruct (last values) as [v|]; [destruct (v =? 0)|]; discriminate. }
  intros d. apply bind_Throws; [apply split_no_throw|]. intros reps.
  apply bind_Throws; [|discriminate].
  unfold constructTrie. destruct (d <? -1); [discriminate | apply constructTrie_rec_no_throw].
Qed.

(** C9, as the code has it. The constructor checks nothing: on an empty
    input it evaluates [values.back()] on an empty vector, and on an input
    whose last (maximum) key is 0 it converts [log2(0)] to [int64_t]; both
    are undefined behaviour, and no fault is raised, as no path of the
    constructor throws. *)
Theorem constructor_invalid_input_undefined L values :
  values = [] \/ last values = Some 0 ->
  YTrie_new L values = Undefined /\
  forall values', YTrie_new L values' <> Throws.
Proof.
  intros H. split; [|intros values'; apply YTrie_new_no_throw].
  unfold YTrie_new, calcDepth. destruct H as [-> | ->]; reflexivity.
Qed.

Lemma constructor_invalid_input_undefined_witness :
  (([0] : list Z) = [] \/ last [0] = Some 0) /\
  YTrie_new exact_libm [0] = Undefined.
Proof.
  split; [right; reflexivity|].
  exact (proj1 (constructor_invalid_input_undefined exact_libm [0] (or_intror eq_refl))).
Defined.

(** The claim C9 fails on the empty input and on the input [0]: the
    constructor does not end in a fault raised to the caller. *)
Lemma constructor_surfaces_no_fault :
  YTrie_new exact_libm [] = Undefined /\ YTrie_new exact_libm [] <> Throws /\
  YTrie_new exact_libm [0] = Undefined /\ YTrie_new exact_libm [0] <> Throws.
Proof. repeat split; try reflexivity; discriminate. Qed.

(** ** The concrete scenario *)

Lemma calcDepth_scenario L : calcDepth L scenario = Ret 5.
Proof.
  unfold calcDepth, scenario. cbn [last]. change (40 =? 0) with false. cbv iota.
  change (to_double 40) with 40. f_equal.
  apply floor_log2_inside; [lia | | ]; vm_compute; discriminate.
Qed.

Lemma YTrie_new_scenario L : YTrie_new L scenario = Ret scenario_index.
Proof.
  unfold YTrie_new. rewrite calcDepth_scenario. vm_compute. reflexivity.
Qed.


Lemma scenario_leaf_reachable :
  rtc (subcall (representatives_ scenario_index))
      (initial_call 5 (representatives_ scenario_index)) scenario_leaf_call.
Proof.
  unfold initial_call. change (Z.to_nat (5 + 1)) with 6%nat.
  eapply rtc_l.
  { eapply subcall_left; [vm_compute; reflexivity | vm_compute; reflexivity]. }
  eapply rtc_l.
  { eapply subcall_right; [vm_compute; reflexivity | vm_compute; reflexivity | vm_compute; discriminate]. }
  eapply rtc_l.
  { eapply subcall_left; [vm_compute; reflexivity | vm_compute; reflexivity]. }
  eapply rtc_l.
  { eapply subcall_right; [vm_compute; reflexivity | vm_compute; reflexivity | vm_compute; discriminate]. }
  eapply rtc_l.
  { eapply subcall_left; [vm_compute; reflexivity | vm_compute; reflexivity]. }
  eapply rtc_l.
  { eapply subcall_left; [vm_compute; reflexivity | vm_compute; reflexivity]. }
  vm_compute. apply rtc_refl.
Qed.

(** C2, as the code has it. For the input [3,5,9,12,20,33,40], with every
    math library: the computed depth is 5; the blocks are [3,5,9,12,20]
    with representative 20 and [33,40] with representative 40; and the
    queries return getPredecessor(34) = 33, getPredecessor(5) = 5,
    getPredecessor(2) = 0, getPredecessor(100) = 40 and
    getPredecessor(20) = 20. *)
Theorem scenario_results L :
  calcDepth L scenario = Ret 5 /\
  YTrie_new L scenario = Ret scenario_index /\
  map (fun r => (binarySearchTree r, value r)) (representatives_ scenario_index) =
    [([3; 5; 9; 12; 20], 20); ([33; 40], 40)] /\
  getPredecessor scenario_index 34 = Ret (33, scenario_index) /\
  getPredecessor scenario_index 5 = Ret (5, scenario_index) /\
  getPredecessor scenario_index 2 = Ret (0, scenario_index) /\
  getPredecessor scenario_index 100 = Ret (40, scenario_index) /\
  getPredecessor scenario_index 20 = Ret (20, scenario_index).
Proof.
  split; [apply calcDepth_scenario|]. split; [apply YTrie_new_scenario|].
  repeat split; vm_compute; reflexivity.
Qed.

(** The claim C2 fails at the query for 2: no key is at most 2, and the
    call returns the number 0, the lower bound handed to the block lookup,
    where the claim expects a no-predecessor outcome. *)
Lemma scenario_query_below_minimum :
  YTrie_new exact_libm scenario = Ret scenario_index /\
  predecessor scenario 2 = None /\
  getPredecessor scenario_index 2 = Ret (0, scenario_index).
Proof. repeat split; vm_compute; reflexivity. Qed.

(** The claim C1 fails at the limit 66 of the scenario, which lies in
    [0, 2 * 40]: the largest key that is at most 66 is 40, but the search
    uses the low 6 bits of the limit only and returns 20. *)
Lemma scenario_query_beyond_width :
  YTrie_new exact_libm scenario = Ret scenario_index /\
  0 <= 66 <= 2 * 40 /\
  predecessor scenario 66 = Some 40 /\
  getPredecessor scenario_index 66 = Ret (20, scenario_index).
Proof. repeat split; try lia; vm_compute; reflexivity. Qed.

Lemma getPredecessor_correct_witness :
  StronglySorted Z.lt scenario /\
  (forall k, k ∈ scenario -> 1 <= k < 2 ^ 63) /\
  calcDepth exact_libm scenario = Ret 5 /\
  1 <= 5 <= 63 /\ 5 <= Z.of_nat (length scenario) /\
  (forall k, k ∈ scenario -> k < 2 ^ (5 + 1)) /\
  0 <= 34 < 2 ^ (5 + 1) /\
  exists t, YTrie_new exact_libm scenario = Ret t /\
    getPredecessor t 34 = Ret (default 0 (predecessor scenario 34), t).
Proof.
  assert (H1 : StronglySorted Z.lt scenario) by (unfold scenario; repeat constructor; lia).
  assert (H2 : forall k, k ∈ scenario -> 1 <= k < 2 ^ 63).
  { intros k Hk. unfold scenario in Hk.
    repeat (apply elem_of_cons in Hk as [->|Hk]; [lia|]). inversion Hk. }
  assert (H3 : calcDepth exact_libm scenario = Ret 5) by reflexivity.
  assert (H4 : 1 <= 5 <= 63) by lia.
  assert (H5 : 5 <= Z.of_nat (length scenario)) by (simpl; lia).
  assert (H6 : forall k, k ∈ scenario -> k < 2 ^ (5 + 1)).
  { intros k Hk. unfold scenario in Hk.
    repeat (apply elem_of_cons in Hk as [->|Hk]; [lia|]). inversion Hk. }
  assert (H7 : 0 <= 34 < 2 ^ (5 + 1)) by lia.
  repeat (split; [assumption|]).
  exact (getPredecessor_correct exact_libm scenario 5 34 H1 H2 H3 H4 H5 H6 H7).
Defined.

(** Fewer keys than the block size: the loop of [split] forms no block and
    [addIrregularTrieLeaf] asks for the last representative of an empty
    vector. *)
Lemma split_short_undefined d values :
  1 <= d < 2 ^ 63 -> 0 < Z.of_nat (length values) < d ->
  split d values = Undefined.
Proof.
  intros Hd Hn.
  assert (H263 : 2 ^ 63 < 2 ^ 64) by (apply Z.pow_lt_mono_r; lia).
  unfold split. cbn [split_loop]. rewrite (u64_small (d - 1)) by lia.
  destruct (Z.ltb_spec (d - 1) (Z.of_nat (length values))); [lia|].
  cbn [bind]. rewrite (u64_small d) by lia.
  destruct (Z.eqb_spec d 0); [lia|]. cbn [bind].
  rewrite Z.mod_small by lia.
  destruct (Z.eqb_spec (Z.of_nat (length values)) 0); [lia|]. cbn [negb].
  unfold addIrregularTrieLeaf.
  destruct (last values) as [v|] eqn:E.
  - reflexivity.
  - apply last_None in E. subst values. simpl in Hn. lia.
Qed.

(** The single key 1: the depth is 0 and [split] divides by it. *)
Lemma constructor_key_one_undefined L : YTrie_new L [1] = Undefined.
Proof.
  assert (H : calcDepth L [1] = Ret 0).
  { unfold calcDepth. cbn [last]. change (1 =? 0) with false. cbv iota.
    change (to_double 1) with (2 ^ 0). f_equal. apply floor_log2_pow2. lia. }
  unfold YTrie_new. rewrite H. vm_compute. reflexivity.
Qed.

(** C4 fails on a valid input with fewer keys than the block size. For the
    single key 40 the depth is 5; no regular block is formed, and
    [addIrregularTrieLeaf] reads [representatives->back()] of the empty
    vector: the split, and with it the construction, is undefined, where
    the claim expects one block of [1 mod 5 = 1] key. *)
Theorem split_short_input_undefined L :
  calcDepth L [40] = Ret 5 /\
  split 5 [40] = Undefined /\
  YTrie_new L [40] = Undefined.
Proof.
  assert (H : calcDepth L [40] = Ret 5).
  { unfold calcDepth. cbn [last]. change (40 =? 0) with false. cbv iota.
    change (to_double 40) with 40. f_equal.
    apply floor_log2_inside; [lia | | ]; vm_compute; discriminate. }
  split; [exact H|]. split; [vm_compute; reflexivity|].
  unfold YTrie_new. rewrite H. vm_compute. reflexivity.
Qed.

(** C5 fails for the largest 64-bit key. The conversion to [double] rounds
    [2^64 - 1] up to [2^64], whose logarithm is exactly 64: [calcDepth]
    returns 64, while [floor(log2(2^64 - 1))] is 63. *)
Theorem calcDepth_rounds_up L :
  calcDepth L [2 ^ 64 - 1] = Ret 64 /\ Z.log2 (2 ^ 64 - 1) = 63.
Proof.
  split; [|reflexivity].
  unfold calcDepth. cbn [last]. change (2 ^ 64 - 1 =? 0) with false. cbv iota.
  replace (to_double (2 ^ 64 - 1)) with (2 ^ 64) by (vm_compute; reflexivity).
  f_equal. apply floor_log2_pow2. lia.
Qed.

Lemma split_nodes_have_a_side_witness :
  YTrie_new exact_libm scenario = Ret scenario_index /\
  (forall p l r, lookup_ scenario_index !! p = Some (innerNode l r) ->
     l <> None \/ r <> None) /\
  (forall limit, exists node,
     bestMatchingNode scenario_index limit = Ret (node, lookup_ scenario_index) /\
     node <> innerNode None None).
Proof.
  assert (H : YTrie_new exact_libm scenario = Ret scenario_index)
    by (vm_compute; reflexivity).
  split; [exact H|].
  exact (split_nodes_have_a_side exact_libm scenario scenario_index H).
Defined.

Lemma construction_invariants_witness :
  StronglySorted Z.lt scenario /\ Z.of_nat (length scenario) < 2 ^ 63 /\
  YTrie_new exact_libm scenario = Ret scenario_index /\
  (forall (i : nat) r j, representatives_ scenario_index !! i = Some r ->
     next r = Some j ->
     exists r', representatives_ scenario_index !! Z.to_nat j = Some r' /\
                value r < value r') /\
  (forall p r, lookup_ scenario_index !! p = Some (leafNode r) ->
     Z.of_nat (String.length p) = depth_ scenario_index + 1) /\
  (forall p c, is_Some (lookup_ scenario_index !! (p +:+ String c EmptyString)) ->
     is_Some (lookup_ scenario_index !! p)) /\
  is_Some (lookup_ scenario_index !! EmptyString).
Proof.
  assert (H1 : StronglySorted Z.lt scenario) by (unfold scenario; repeat constructor; lia).
  assert (H2 : Z.of_nat (length scenario) < 2 ^ 63) by (simpl; lia).
  assert (H3 : YTrie_new exact_libm scenario = Ret scenario_index)
    by (vm_compute; reflexivity).
  repeat (split; [assumption|]).
  exact (construction_invariants exact_libm scenario scenario_index H1 H2 H3).
Defined.

Lemma getPredecessor_preserves_index_witness :
  YTrie_new exact_libm scenario = Ret scenario_index /\
  Z.of_nat (length scenario) < 2 ^ 63 /\
  exists a, getPredecessor scenario_index 34 = Ret (a, scenario_index) /\
    forall t', getPredecessor scenario_index 34 = Ret (a, t') ->
               getPredecessor t' 34 = Ret (a, t').
Proof.
  assert (H1 : YTrie_new exact_libm scenario = Ret scenario_index)
    by (vm_compute; reflexivity).
  assert (H2 : Z.of_nat (length scenario) < 2 ^ 63) by (simpl; lia).
  repeat (split; [assumption|]).
  exact (getPredecessor_preserves_index exact_libm scenario scenario_index 34 H1 H2).
Defined.

Lemma leaf_step_selects_witness :
  StronglySorted Z.lt scenario /\
  (forall k, k ∈ scenario -> 1 <= k < 2 ^ 63) /\
  (forall k, k ∈ scenario -> k < 2 ^ (depth_ scenario_index + 1)) /\
  YTrie_new exact_libm scenario = Ret scenario_index /\
  rtc (subcall (representatives_ scenario_index))
      (initial_call (depth_ scenario_index) (representatives_ scenario_index))
      scenario_leaf_call /\
  c_level scenario_leaf_call = 0%nat /\
  c_lo scenario_leaf_call = c_hi scenario_leaf_call /\
  Z.of_nat (String.length (c_path scenario_leaf_call)) = depth_ scenario_index + 1 /\
  exists r,
    leaf_step (representatives_ scenario_index) (c_path scenario_leaf_call)
      (c_lo scenario_leaf_call) (c_hi scenario_leaf_call) (c_state scenario_leaf_call) =
      Ret (fst (c_state scenario_leaf_call),
           <[c_path scenario_leaf_call := leafNode r]> (snd (c_state scenario_leaf_call))) /\
    (forall p, c_path scenario_leaf_call = p +:+ "0" -> r = c_lo scenario_leaf_call) /\
    (forall p, c_path scenario_leaf_call = p +:+ "1" -> r = c_hi scenario_leaf_call).
Proof.
  assert (H1 : StronglySorted Z.lt scenario) by (unfold scenario; repeat constructor; lia).
  assert (H2 : forall k, k ∈ scenario -> 1 <= k < 2 ^ 63).
  { intros k Hk. unfold scenario in Hk.
    repeat (apply elem_of_cons in Hk as [->|Hk]; [lia|]). inversion Hk. }
  assert (H3 : forall k, k ∈ scenario -> k < 2 ^ (depth_ scenario_index + 1)).
  { intros k Hk. unfold scenario in Hk. change (depth_ scenario_index) with 5.
    repeat (apply elem_of_cons in Hk as [->|Hk]; [lia|]). inversion Hk. }
  assert (H4 : YTrie_new exact_libm scenario = Ret scenario_index)
    by (vm_compute; reflexivity).
  assert (H5 : rtc (subcall (representatives_ scenario_index))
      (initial_call (depth_ scenario_index) (representatives_ scenario_index))
      scenario_leaf_call) by exact scenario_leaf_reachable.
  assert (H6 : c_level scenario_leaf_call = 0%nat) by reflexivity.
  repeat (split; [assumption|]).
  exact (leaf_step_selects exact_libm scenario scenario_index H1 H2 H3 H4
           scenario_leaf_call H5 H6).
Defined.

(** * Further properties of the code

    Properties of the functions of YTrie.cpp beyond the claims above: the
    depth computation, the splitter, the table that [constructTrie] builds,
    and what [getPredecessor] returns inside and outside the width of the
    trie. *)

(** ** The depth *)

Lemma to_double_small v : v < 2 ^ 53 -> to_double v = v.
Proof.
  intros H. unfold to_double. destruct (Z.ltb_spec v (2 ^ 53)); [reflexivity | lia].
Qed.

(** Powers of two convert exactly. *)
Lemma to_double_pow2 (k : Z) : 0 <= k <= 63 -> to_double (2 ^ k) = 2 ^ k.
Proof.
  intros Hk. destruct (Z.lt_ge_cases k 53) as [Hlt|Hge].
  - apply to_double_small. apply Z.pow_lt_mono_r; lia.
  - unfold to_double.
    assert (H53 : 2 ^ 53 <= 2 ^ k) by (apply Z.pow_le_mono_r; lia).
    destruct (Z.ltb_spec (2 ^ k) (2 ^ 53)); [lia|].
    rewrite Z.log2_pow2 by lia. cbv zeta.
    assert (E : 2 ^ k = 2 ^ 52 * 2 ^ (k - 52)).
    { rewrite <- Z.pow_add_r by lia. f_equal. lia. }
    assert (Hp : 0 < 2 ^ (k - 52)) by (apply Z.pow_pos_nonneg; lia).
    assert (Hh : 0 < 2 ^ (k - 52 - 1)) by (apply Z.pow_pos_nonneg; lia).
    replace (2 ^ k mod 2 ^ (k - 52)) with 0.
    2:{ rewrite E, Z.mod_mul; lia. }
    replace (2 ^ k / 2 ^ (k - 52)) with (2 ^ 52).
    2:{ rewrite E at 1. rewrite Z.div_mul; lia. }
    destruct (Z.ltb_spec 0 (2 ^ (k - 52 - 1))); [|lia]. lia.
Qed.


(** Below [2^32] the conversion is exact and the argument is far enough
    from the next power of two for every math library. *)
Lemma calcDepth_small L values v :
  last values = Some v -> 1 <= v < 2 ^ 32 -> calcDepth L values = Ret (Z.log2 v).
Proof.
  intros Hl Hv. unfold calcDepth. rewrite Hl.
  destruct (Z.eqb_spec v 0); [lia|].
  assert (H3253 : 2 ^ 32 < 2 ^ 53) by (apply Z.pow_lt_mono_r; lia).
  rewrite to_double_small by lia.
  pose proof (Z.log2_spec v ltac:(lia)) as [Hlo Hhi].
  pose proof (Z.log2_nonneg v) as H0.
  assert (Hk : Z.log2 v < 32) by (apply Z.log2_lt_pow2; lia).
  replace (Z.succ (Z.log2 v)) with (Z.log2 v + 1) in Hhi by lia.
  assert (Hle : 2 ^ (Z.log2 v + 1) <= 2 ^ 32) by (apply Z.pow_le_mono_r; lia).
  f_equal. apply floor_log2_inside; [lia | exact Hlo | nia].
Qed.

Lemma calcDepth_pow2 L values k :
  last values = Some (2 ^ k) -> 0 <= k <= 63 -> calcDepth L values = Ret k.
Proof.
  intros Hl Hk. unfold calcDepth. rewrite Hl.
  assert (Hp : 0 < 2 ^ k) by (apply Z.pow_pos_nonneg; lia).
  destruct (Z.eqb_spec (2 ^ k) 0); [lia|].
  rewrite to_double_pow2 by lia. f_equal. apply floor_log2_pow2. lia.
Qed.

(** X1. When the last key is below [2^32], or is a power of two up to
    [2^63], [calcDepth] returns the position [d] of its highest set bit:
    [2^d <= last key < 2^(d+1)], whatever the math library. *)
Theorem calcDepth_bit_length L values v :
  last values = Some v ->
  1 <= v < 2 ^ 32 \/ (exists k, 0 <= k <= 63 /\ v = 2 ^ k) ->
  exists d, calcDepth L values = Ret d /\ 0 <= d <= 63 /\ 2 ^ d <= v < 2 ^ (d + 1).
Proof.
  intros Hl Hv. destruct Hv as [Hv|(k & Hk & ->)].
  - exists (Z.log2 v). split; [apply calcDepth_small; assumption|].
    pose proof (Z.log2_spec v ltac:(lia)) as [Hlo Hhi].
    pose proof (Z.log2_nonneg v) as H0.
    assert (Hk : Z.log2 v < 32) by (apply Z.log2_lt_pow2; lia).
    replace (Z.succ (Z.log2 v)) with (Z.log2 v + 1) in Hhi by lia. lia.
  - exists k. split; [apply calcDepth_pow2; assumption|]. split; [lia|].
    split; [lia|]. apply Z.pow_lt_mono_r; lia.
Qed.




(** ** The blocks of the splitter *)

Lemma length_concat_uniform (bs : list (list Z)) (d : nat) :
  Forall (fun b => length b = d) bs -> length (concat bs) = (length bs * d)%nat.
Proof.
  induction 1 as [|b bs Hb _ IH]; [reflexivity|].
  simpl. rewrite length_app, IH, Hb. reflexivity.
Qed.

(** The blocks before block [i] are full: together they hold [i * d] keys. *)
Lemma length_blocks_before d values reps (i : nat) :
  reps_spec d values reps -> 0 <= d -> (i < length reps)%nat ->
  length (concat (take i (map binarySearchTree reps))) = (i * Z.to_nat d)%nat.
Proof.
  intros (_ & _ & Hlen) Hd Hi.
  rewrite (length_concat_uniform _ (Z.to_nat d)).
  - rewrite length_take, length_map. lia.
  - apply Forall_forall. intros b Hb.
    apply list_elem_of_lookup in Hb as [j Hj].
    apply lookup_take_Some in Hj as [Hj Hji].
    rewrite list_lookup_fmap in Hj.
    destruct (reps !! j) as [r|] eqn:Er; [|discriminate]. injection Hj as <-.
    specialize (Hlen j r Er).
    destruct (decide (S j = length reps)); [lia|]. lia.
Qed.

Lemma block_is_chunk d values reps (i : nat) r :
  reps_spec d values reps -> 1 <= d -> reps !! i = Some r ->
  binarySearchTree r = take (Z.to_nat d) (drop (i * Z.to_nat d) values) /\
  (1 <= Z.of_nat (length (binarySearchTree r)) <= d) /\
  (S i = length reps ->
   Z.of_nat (length values) = Z.of_nat i * d + Z.of_nat (length (binarySearchTree r))).
Proof.
  intros Hspec Hd Hi. pose proof (lookup_lt_Some _ _ _ Hi) as Hlt.
  pose proof (keys_split d values reps Hspec i r Hi) as Hk.
  pose proof (length_blocks_before d values reps i Hspec ltac:(lia) Hlt) as Hpre.
  destruct Hspec as (_ & _ & Hlen). specialize (Hlen i r Hi).
  assert (Hm : 0 <= Z.of_nat (length values) mod d < d) by (apply Z.mod_pos_bound; lia).
  assert (Hb : 1 <= Z.of_nat (length (binarySearchTree r)) <= d).
  { destruct (decide (S i = length reps)); [|lia].
    destruct (Z.eqb_spec (Z.of_nat (length values) mod d) 0); lia. }
  split; [|split; [exact Hb|]].
  - rewrite Hk at 1. rewrite drop_app_length' by (symmetry; exact Hpre).
    destruct (decide (S i = length reps)) as [Hl|Hl].
    + rewrite drop_ge by (rewrite length_map; lia). simpl. rewrite app_nil_r.
      rewrite take_ge; [reflexivity | lia].
    + rewrite take_app_length'; [reflexivity | lia].
  - intros Hl. rewrite Hk at 1. rewrite !length_app, Hpre.
    rewrite drop_ge by (rewrite length_map; lia). simpl. lia.
Qed.

Lemma reps_count d values reps :
  reps_spec d values reps -> 1 <= d -> reps <> [] ->
  Z.of_nat (length reps) = (Z.of_nat (length values) + d - 1) / d.
Proof.
  intros Hspec Hd Hne.
  destruct (lookup_lt_is_Some_2 reps (length reps - 1)) as [r Hr].
  { destruct reps; [congruence | simpl; lia]. }
  pose proof (lookup_lt_Some _ _ _ Hr) as Hlt.
  destruct (block_is_chunk d values reps _ r Hspec Hd Hr) as (_ & Hb & Hn).
  specialize (Hn ltac:(lia)).
  apply (Z.div_unique _ d _ (Z.of_nat (length (binarySearchTree r)) - 1)); [lia | nia].
Qed.

(** X3. For a block size [d >= 1] and at least [d] keys, [split] returns
    [ceil(n / d)] representatives; the block of the representative at index
    [i] is the [i]-th run of [d] consecutive keys of the input (the last
    run may be shorter), it is not empty, and the representative carries
    its last key. *)
Theorem split_blocks_are_chunks d values :
  1 <= d < 2 ^ 63 -> d <= Z.of_nat (length values) < 2 ^ 63 ->
  exists reps, split d values = Ret reps /\
    Z.of_nat (length reps) = (Z.of_nat (length values) + d - 1) / d /\
    forall (i : nat) r, reps !! i = Some r ->
      binarySearchTree r = take (Z.to_nat d) (drop (i * Z.to_nat d) values) /\
      binarySearchTree r <> [] /\
      last (binarySearchTree r) = Some (value r).
Proof.
  intros Hd Hn. destruct (split_spec d values Hd Hn) as (reps & Hs & Hspec & Hne).
  exists reps. split; [exact Hs|]. split; [apply reps_count; auto; lia|].
  intros i r Hi.
  destruct (block_is_chunk d values reps i r Hspec ltac:(lia) Hi) as (E & Hb & _).
  split; [exact E|]. split.
  - intros E0. rewrite E0 in Hb. simpl in Hb. lia.
  - destruct Hspec as (_ & Hlinks & _). apply (Hlinks i r Hi).
Qed.

(** X4. For a block size [d >= 1] and at least [d] keys, the
    representatives that [split] returns are chained in the order of their
    blocks: [previous] of the first one and [next] of the last one are
    null, and otherwise [previous] and [next] point to the neighbours in
    the vector. *)
Theorem split_links_neighbours d values :
  1 <= d < 2 ^ 63 -> d <= Z.of_nat (length values) < 2 ^ 63 ->
  exists reps, split d values = Ret reps /\ reps <> [] /\
    forall (i : nat) r, reps !! i = Some r ->
      previous r = (if decide (i = 0%nat) then None else Some (Z.of_nat i - 1)) /\
      next r = (if decide (S i = length reps) then None else Some (Z.of_nat i + 1)).
Proof.
  intros Hd Hn. destruct (split_spec d values Hd Hn) as (reps & Hs & Hspec & Hne).
  exists reps. split; [exact Hs|]. split; [exact Hne|].
  intros i r Hi. destruct Hspec as (_ & Hlinks & _). apply (Hlinks i r Hi).
Qed.

(** With depth 0, [split] evaluates [values.size() % 0]. *)
Lemma split_depth_zero values : split 0 values <> Throws -> split 0 values = Undefined.
Proof.
  unfold split.
  destruct (split_loop _ _ _ _ _); simpl; [reflexivity | congruence | reflexivity].
Qed.

(** X5. When the computed depth [d] is 0 (the last key is 1), or the input
    has fewer keys than [d], the constructor runs into undefined behaviour:
    [split] divides by zero, or [addIrregularTrieLeaf] takes the last
    element of the still empty vector of representatives. *)
Theorem constructor_few_keys_undefined L values d :
  calcDepth L values = Ret d -> 0 <= d < 2 ^ 63 ->
  Z.of_nat (length values) < d \/ d = 0 ->
  YTrie_new L values = Undefined.
Proof.
  intros Hc Hd Hcase. unfold YTrie_new. rewrite Hc. cbn [bind].
  pose proof (calcDepth_nonempty _ _ _ Hc) as Hne.
  assert (Hn : 0 < Z.of_nat (length values)) by (destruct values; [congruence | simpl; lia]).
  destruct Hcase as [Hlt | ->].
  - rewrite split_short_undefined by lia. reflexivity.
  - rewrite split_depth_zero; [reflexivity | apply split_no_throw].
Qed.

(** ** The builder on windows in any order *)

Lemma scan_body_splitIndex i lo split reps s s' :
  scan_body i lo split reps s = Ret s' ->
  length (representativeValues s') = length (representativeValues s) /\
  (splitIndex s' = splitIndex s \/ splitIndex s' = i).
Proof.
  unfold scan_body. intros H. inv_bind H.
  destruct (split <=? a); [|injection H as <-; auto].
  inv_bind H. inv_bind H. injection H as <-. cbn [representativeValues splitIndex].
  apply vec_set_Ret in E1 as [_ ->]. rewrite length_insert.
  destruct (negb (foundSplit s)); [|injection E0 as <-; auto].
  inv_bind E0. inv_bind E0. injection E0 as <-. simpl. auto.
Qed.

Lemma scan_loop_splitIndex cnt : forall i lo split reps s s',
  scan_loop cnt i lo split reps s = Ret s' ->
  length (representativeValues s') = length (representativeValues s) /\
  (splitIndex s' = splitIndex s \/ i <= splitIndex s' < i + Z.of_nat cnt).
Proof.
  induction cnt as [|cnt IH]; intros i lo split reps s s' H.
  - injection H as <-. auto.
  - cbn [scan_loop] in H. inv_bind H.
    apply scan_body_splitIndex in E as [El Es].
    apply IH in H as [Hl Hs]. split; [congruence|]. lia.
Qed.

Lemma scan_body_total i lo split reps s :
  length (representativeValues s) = length reps ->
  0 <= lo <= i -> i < Z.of_nat (length reps) ->
  exists s', scan_body i lo split reps s = Ret s'.
Proof.
  intros Hlen Hlo Hi. unfold scan_body.
  destruct (vec_at_in_range (representativeValues s) i) as (v & -> & _); [lia|].
  cbn [bind]. destruct (split <=? v); [|eauto].
  assert (Hp : forall j, 0 <= j < Z.of_nat (length reps) -> ptr_at reps j = Ret (Some j)).
  { intros j Hj. apply ptr_at_Ret. auto. }
  assert (Hset : forall (l : list Z) x, length l = length reps ->
            vec_set l i x = Ret (<[Z.to_nat i := x]> l)).
  { intros l x Hl. apply vec_set_Ret. split; [lia | reflexivity]. }
  destruct (negb (foundSplit s)).
  - destruct (negb (i =? lo)) eqn:E.
    + rewrite (Hp (i - 1)) by (destruct (Z.eqb_spec i lo); [discriminate | lia]).
      cbn [bind]. rewrite (Hp i) by lia. cbn [bind representativeValues].
      rewrite Hset by exact Hlen. cbn [bind]. eauto.
    + cbn [bind]. rewrite (Hp i) by lia. cbn [bind representativeValues].
      rewrite Hset by exact Hlen. cbn [bind]. eauto.
  - cbn [bind]. rewrite Hset by exact Hlen. cbn [bind]. eauto.
Qed.

Lemma scan_loop_total cnt : forall i lo split reps s,
  length (representativeValues s) = length reps ->
  0 <= lo <= i -> i + Z.of_nat cnt <= Z.of_nat (length reps) ->
  exists s', scan_loop cnt i lo split reps s = Ret s'.
Proof.
  induction cnt as [|cnt IH]; intros i lo split reps s Hlen Hlo Hi.
  - simpl. eauto.
  - cbn [scan_loop].
    destruct (scan_body_total i lo split reps s Hlen Hlo ltac:(lia)) as [s1 E1].
    rewrite E1. cbn [bind]. apply scan_body_splitIndex in E1 as [Hl1 _].
    apply IH; [congruence | lia | lia].
Qed.

(** The split index that an inner step finds lies in the window or just
    behind it. *)
Lemma inner_step_splitIndex exponent reps path lo hi st s lk1 :
  inner_step exponent reps path lo hi st = Ret (s, lk1) -> lo <= hi ->
  length (representativeValues s) = length (fst st) /\
  lo <= splitIndex s <= hi + 1.
Proof.
  unfold inner_step. intros H Hlh. inv_bind H. inv_bind H. inv_bind H.
  injection H as <- _.
  apply scan_loop_splitIndex in E0 as [Hl Hs]. cbn [representativeValues splitIndex] in *.
  split; [exact Hl | lia].
Qed.

Lemma inner_step_total (e : nat) reps path lo hi st :
  (e < 64)%nat -> length (fst st) = length reps ->
  0 <= lo <= hi -> hi < Z.of_nat (length reps) ->
  exists s lk1, inner_step (Z.of_nat e) reps path lo hi st = Ret (s, lk1).
Proof.
  intros He Hlen Hlo Hhi. unfold inner_step.
  rewrite split_border_spec by exact He. cbn [bind].
  destruct (scan_loop_total (Z.to_nat (hi - lo + 1)) lo lo (2 ^ Z.of_nat e) reps
              {| splitIndex := hi + 1; leftMax := None; rightMin := None;
                 foundSplit := false; representativeValues := fst st |})
    as [s Es]; [exact Hlen | lia | lia |].
  rewrite Es. cbn [bind].
  destruct (leftMax s); [cbn [bind]; eauto|].
  destruct (rightMin s); [cbn [bind]; eauto|].
  replace (ptr_at reps hi) with (Ret (A:=option Z) (Some hi)); [cbn [bind]; eauto|].
  symmetry. apply ptr_at_Ret. split; [lia | reflexivity].
Qed.

(** On a window inside the vector, with values in any order, the builder
    returns. *)
Lemma constructTrie_rec_total reps (level : nat) : forall path lo hi st,
  (level <= 64)%nat -> length (fst st) = length reps ->
  0 <= lo <= hi -> hi < Z.of_nat (length reps) ->
  exists st', constructTrie_rec level reps path lo hi st = Ret st' /\
              length (fst st') = length reps.
Proof.
  induction level as [|level IH]; intros path lo hi st Hlev Hlen Hlo Hhi.
  - cbn [constructTrie_rec]. unfold leaf_step. rewrite last_bit_is_zero_false.
    replace (ptr_at reps hi) with (Ret (A:=option Z) (Some hi)).
    2:{ symmetry. apply ptr_at_Ret. split; [lia | reflexivity]. }
    cbn [bind]. eexists. split; [reflexivity | exact Hlen].
  - cbn [constructTrie_rec].
    destruct (inner_step_total level reps path lo hi st) as (s & lk1 & Es); try lia.
    rewrite Es. cbn [bind fst snd].
    destruct (inner_step_splitIndex _ _ _ _ _ _ _ _ Es ltac:(lia)) as [Hl Hs].
    assert (Hleft : exists st1,
      (if lo <? splitIndex s
       then constructTrie_rec level reps (path +:+ "0") lo (splitIndex s - 1)
              (representativeValues s, lk1)
       else Ret (representativeValues s, lk1)) = Ret st1 /\
      length (fst st1) = length reps).
    { destruct (Z.ltb_spec lo (splitIndex s)).
      - apply IH; simpl; [lia | congruence | lia | lia].
      - eexists. split; [reflexivity|]. simpl. congruence. }
    destruct Hleft as (st1 & -> & Hl1). cbn [bind].
    destruct (Z.leb_spec (splitIndex s) hi).
    + apply IH; [lia | exact Hl1 | lia | lia].
    + eauto.
Qed.

(** X6. The constructor does not depend on the order of the keys to run
    through: for every input with a computed depth [d] between 1 and 63
    and at least [d] keys (fewer than [2^63]), sorted or not, it returns an
    index of depth [d] whose blocks, in order, make up the input. *)
Theorem constructor_returns_for_any_order L values d :
  calcDepth L values = Ret d -> 1 <= d <= 63 ->
  d <= Z.of_nat (length values) < 2 ^ 63 ->
  exists t, YTrie_new L values = Ret t /\ depth_ t = d /\
    concat (map binarySearchTree (representatives_ t)) = values.
Proof.
  intros Hc Hd Hn.
  assert (H263 : 2 ^ 6 < 2 ^ 63) by (apply Z.pow_lt_mono_r; lia).
  change (2 ^ 6) with 64 in H263.
  destruct (split_spec d values) as (reps & Hs & Hspec & Hne); [lia | lia |].
  assert (Hlen : (0 < length reps)%nat) by (destruct reps; [congruence | simpl; lia]).
  destruct (constructTrie_rec_total reps (Z.to_nat (d + 1)) EmptyString 0
              (Z.of_nat (length reps) - 1) (map value reps, ∅)) as (st & Hst & _).
  { lia. } { simpl. apply length_map. } { lia. } { lia. }
  exists {| depth_ := d; representatives_ := reps; lookup_ := snd st |}.
  split; [|split; [reflexivity | apply Hspec]].
  unfold YTrie_new. rewrite Hc. cbn [bind]. rewrite Hs. cbn [bind].
  unfold constructTrie. destruct (Z.ltb_spec d (-1)); [lia|]. rewrite Hst. reflexivity.
Qed.

(** ** The size of the table *)

Lemma size_lookup_insert_new key node (lk : gmap string TrieNodePtr) :
  (size (lookup_insert_new key node lk) <= S (size lk))%nat.
Proof.
  unfold lookup_insert_new. destruct (lk !! key) eqn:E; [lia|].
  rewrite map_size_insert_None by exact E. lia.
Qed.

(** A call on a window of [w] representatives at level [l] adds at most
    [w * l + 1] entries. *)
Lemma constructTrie_rec_size reps (level : nat) : forall path lo hi st st',
  constructTrie_rec level reps path lo hi st = Ret st' -> lo <= hi ->
  Z.of_nat (size (snd st')) <=
    Z.of_nat (size (snd st)) + (hi - lo + 1) * Z.of_nat level + 1.
Proof.
  induction level as [|level IH]; intros path lo hi st st' H Hlh.
  - cbn [constructTrie_rec] in H. apply leaf_step_node in H as (r & _ & ->). simpl.
    pose proof (size_lookup_insert_new path (leafNode r) (snd st)). lia.
  - cbn [constructTrie_rec] in H. inv_bind H. destruct a as [s lk1].
    inv_bind H. cbn [fst snd] in *.
    destruct (inner_step_splitIndex _ _ _ _ _ _ _ _ E Hlh) as [_ Hs].
    apply inner_step_node in E as (node & _ & _ & ->).
    pose proof (size_lookup_insert_new path node (snd st)) as H1.
    assert (Hleft : Z.of_nat (size (snd a)) <=
              Z.of_nat (size (snd st)) + 1 +
              (if lo <? splitIndex s then (splitIndex s - lo) * Z.of_nat level + 1 else 0)).
    { destruct (Z.ltb_spec lo (splitIndex s)).
      - apply IH in E0; [|lia]. simpl in E0. nia.
      - injection E0 as <-. simpl. lia. }
    destruct (Z.leb_spec (splitIndex s) hi).
    + apply IH in H; [|lia].
      destruct (Z.ltb_spec lo (splitIndex s)); nia.
    + injection H as <-. destruct (Z.ltb_spec lo (splitIndex s)); nia.
Qed.

(** A call that returns was made with its right end inside the vector. *)
Lemma constructTrie_rec_hi reps (level : nat) : forall path lo hi st st',
  constructTrie_rec level reps path lo hi st = Ret st' ->
  0 <= hi < Z.of_nat (length reps).
Proof.
  induction level as [|level IH]; intros path lo hi st st' H.
  - cbn [constructTrie_rec] in H. unfold leaf_step in H.
    rewrite last_bit_is_zero_false in H. inv_bind H.
    apply ptr_at_Ret in E as [? _]. lia.
  - cbn [constructTrie_rec] in H. inv_bind H. destruct a as [s lk1].
    inv_bind H. cbn [fst snd] in *.
    destruct (Z.leb_spec (splitIndex s) hi) as [Hle|Hgt]; [exact (IH _ _ _ _ _ H)|].
    unfold inner_step in E. inv_bind E. inv_bind E. inv_bind E. injection E as -> _.
    pose proof (scan_loop_splitIndex _ _ _ _ _ _ _ E2) as [_ Hs].
    cbn [splitIndex] in Hs.
    destruct (Z.le_gt_cases lo hi) as [Hlh|Hlh].
    + (* no split point in a window that is not empty *)
      destruct (Z.ltb_spec lo (splitIndex s)) as [Hlt|Hge]; [|lia].
      apply IH in E0. lia.
    + (* the window is empty: the scan does nothing *)
      replace (Z.to_nat (hi - lo + 1)) with 0%nat in E2 by lia.
      injection E2 as <-. simpl in E3. apply ptr_at_Ret in E3 as [? _]. lia.
Qed.

(** X7. The table of every index that the constructor returns (for any
    input) has at most [r * (d + 1) + 1] entries, where [r] is the number
    of representatives and [d] the depth: each representative accounts for
    at most one entry per level below the root. *)
Theorem lookup_size_bound L values t :
  YTrie_new L values = Ret t ->
  Z.of_nat (size (lookup_ t)) <=
    Z.of_nat (length (representatives_ t)) * (depth_ t + 1) + 1.
Proof.
  intros H. apply YTrie_new_inv in H as (d & reps & st & Hd & Hs & Hc & ->).
  cbn [depth_ representatives_ lookup_].
  apply constructTrie_inv in Hc as (Hrange & Hc).
  pose proof (constructTrie_rec_hi _ _ _ _ _ _ _ Hc) as Hhi.
  apply constructTrie_rec_size in Hc; [|lia]. cbn [snd] in Hc.
  rewrite map_size_empty in Hc. rewrite Z2Nat.id in Hc by lia. lia.
Qed.

(** ** The index of a valid input *)

(** The index of a valid input, and the node in which the search for a
    limit ends: it lies at the longest present prefix of the low [d + 1]
    bits of the limit and locates these bits among the representative
    values. *)
Lemma built_index_good L keys d :
  valid_input L keys d ->
  exists t, YTrie_new L keys = Ret t /\ depth_ t = d /\
    reps_spec d keys (representatives_ t) /\ representatives_ t <> [] /\
    forall limit, exists q rest node,
      bitset_to_string (Z.to_nat (d + 1)) limit = q +:+ rest /\
      lookup_ t !! q = Some node /\
      match rest with
      | EmptyString => True
      | String c _ => lookup_ t !! (q +:+ String c EmptyString) = None
      end /\
      good (zth (map value (representatives_ t))) 0
           (Z.of_nat (length (representatives_ t)) - 1) node (limit mod 2 ^ (d + 1)) /\
      bestMatchingNode t limit = Ret (node, lookup_ t).
Proof.
  intros (Hsorted & Hrange & Hdepth & Hd & Hdn & Hcover).
  assert (Hn : Z.of_nat (length keys) < 2 ^ 63).
  { pose proof (sorted_length_bound keys 1 (2 ^ 63) Hsorted Hrange ltac:(lia)). lia. }
  destruct (split_spec d keys) as (reps & Hsplit & Hspec & Hne); [lia | lia |].
  assert (Hwin : window_ok (Z.to_nat (d + 1)) (map value reps) 0 (Z.of_nat (length reps) - 1)).
  { apply (initial_window d keys); auto; [|lia].
    intros k Hk. specialize (Hrange k Hk). specialize (Hcover k Hk). lia. }
  destruct (constructTrie_rec_sorted reps (Z.to_nat (d + 1)) EmptyString 0
              (Z.of_nat (length reps) - 1) (map value reps) ∅)
    as (vals' & lk' & Hrec & _ & _ & _ & Hgood).
  { rewrite length_map. reflexivity. }
  { exact Hwin. }
  { lia. }
  { intros q. apply lookup_empty. }
  set (t := {| depth_ := d; representatives_ := reps; lookup_ := lk' |}).
  assert (Hnew : YTrie_new L keys = Ret t).
  { unfold YTrie_new. rewrite Hdepth. simpl. rewrite Hsplit. simpl.
    unfold constructTrie. destruct (Z.ltb_spec d (-1)); [lia|]. rewrite Hrec. reflexivity. }
  exists t. split; [exact Hnew|]. split; [reflexivity|].
  split; [exact Hspec|]. split; [exact Hne|].
  destruct (built_table _ _ _ Hnew) as (_ & _ & Hcl & [start Hstart]). simpl in Hcl, Hstart.
  intros limit.
  assert (Hpos : 0 < 2 ^ (d + 1)) by (apply Z.pow_pos_nonneg; lia).
  destruct (Hgood (limit mod 2 ^ (d + 1))) as (q & rest & node & Ebits & Hq & Hrest & Hg).
  { rewrite Z2Nat.id by lia. apply Z.mod_pos_bound. exact Hpos. }
  rewrite bitset_to_string_mod in Ebits by lia.
  rewrite !app_nil_l_str in *.
  exists q, rest, node. cbn [representatives_ lookup_ t].
  split; [exact Ebits|]. split; [exact Hq|]. split; [exact Hrest|]. split; [exact Hg|].
  assert (Hbits : Z.of_nat (String.length (q +:+ rest)) = d + 1).
  { rewrite <- Ebits, length_bitset_to_string. lia. }
  unfold bestMatchingNode, t. cbn [depth_ lookup_ representatives_].
  rewrite substr_from_bits by lia. cbn [bind].
  rewrite (lookup_index_present _ _ _ Hstart). cbn [fst snd]. rewrite Ebits.
  replace (d + 1) with (Z.of_nat (String.length (q +:+ rest))) by exact Hbits.
  rewrite (search_loop_spec lk' q rest node start); auto.
  rewrite Hbits. assert (2 ^ 6 < 2 ^ 64) by (apply Z.pow_lt_mono_r; lia).
  change (2 ^ 6) with 64 in *. lia.
Qed.

(** The answers of that index inside the width of the trie. *)
Lemma built_index_answers L keys d :
  valid_input L keys d ->
  exists t, YTrie_new L keys = Ret t /\
    forall limit, 0 <= limit < 2 ^ (d + 1) ->
      getPredecessor t limit = Ret (default 0 (predecessor keys limit), t).
Proof.
  intros Hvalid.
  destruct (built_index_good L keys d Hvalid) as (t & Hnew & Hdt & Hspec & Hne & Hsearch).
  destruct Hvalid as (Hsorted & Hrange & Hdepth & Hd & Hdn & Hcover).
  exists t. split; [exact Hnew|]. intros limit Hlimit.
  destruct (Hsearch limit) as (q & rest & node & _ & _ & _ & Hg & Hbest).
  rewrite Z.mod_small in Hg by exact Hlimit.
  unfold getPredecessor. rewrite Hbest. cbn [bind fst snd].
  rewrite (answer_correct d keys _ node limit Hspec Hsorted); [|  | exact Hg].
  - cbn [bind]. rewrite YTrie_eta. reflexivity.
  - intros k Hk. specialize (Hrange k Hk). lia.
Qed.

Lemma closed_prefix_present (lk : gmap string TrieNodePtr) (p rest : string) :
  parent_closed lk -> is_Some (lk !! (p +:+ rest)) -> is_Some (lk !! p).
Proof.
  intros Hcl H.
  rewrite <- (substring_prefix_app p rest).
  apply (closed_prefixes lk (p +:+ rest) (String.length (p +:+ rest))); auto.
  - rewrite substring_full. exact H.
  - rewrite length_app_str. lia.
Qed.

(** A node that is good for the value of a representative is the leaf of
    that representative. *)
Lemma good_at_value (w : Z -> Z) (lo hi i : Z) node :
  (forall a b, lo <= a -> a < b -> b <= hi -> w a < w b) ->
  lo <= i <= hi -> good w lo hi node (w i) -> node = leafNode i.
Proof.
  intros Hs Hi Hg. destruct node as [|j|[b|] [a|]]; simpl in Hg; try contradiction.
  - destruct Hg as (Hj & E). f_equal.
    destruct (Z.lt_trichotomy j i) as [Hlt|[->|Hgt]]; [|reflexivity|].
    + specialize (Hs j i). lia.
    + specialize (Hs i j). lia.
  - exfalso. destruct Hg as (Hb & Hlt & Hafter).
    destruct (Z.lt_trichotomy b i) as [Hc|[->|Hc]]; [|lia|].
    + specialize (Hafter i). lia.
    + specialize (Hs i b). lia.
  - exfalso. destruct Hg as (Ha & Hlt & Hbefore).
    destruct (Z.lt_trichotomy a i) as [Hc|[->|Hc]]; [|lia|].
    + specialize (Hs a i). lia.
    + specialize (Hbefore i). lia.
Qed.

(** ** The entries that the builder adds *)

(** Every entry added by a call on a sorted window lies on the path of a
    representative of the window, and the pointers of an added inner node
    bound the representatives below its two children. *)
Lemma constructTrie_rec_entries (H : nat) (orig : Z -> Z) reps (level : nat) :
  forall path lo hi vals (lk : gmap string TrieNodePtr) vals' lk',
  length reps = length vals -> window_ok level vals lo hi -> (level <= 64)%nat ->
  (forall q, lk !! (path +:+ q) = None) ->
  window_below H orig (Z.of_nat (length reps)) path level vals lo hi ->
  constructTrie_rec level reps path lo hi (vals, lk) = Ret (vals', lk') ->
  forall p node, lk' !! p = Some node ->
    lk !! p = Some node \/
    ((exists j rest, lo <= j <= hi /\ bitset_to_string H (orig j) = p +:+ rest) /\
     (forall l r, node = innerNode l r ->
        sides_at H orig (Z.of_nat (length reps)) p l r)).
Proof.
  induction level as [|level' IH];
    intros path lo hi vals lk vals' lk' Hreps Hwin Hlev Hfresh Hbelow0 HR p node0 Hp.
  - cbn [constructTrie_rec] in HR. apply leaf_step_node in HR as (i & _ & [= -> ->]).
    cbn [snd] in Hp. apply lookup_insert_new_inv in Hp as [Hp|[-> ->]]; [left; exact Hp|].
    right. destruct Hwin as (Hlohi & Hhi & _). split; [|discriminate].
    exists lo, EmptyString. split; [lia|].
    destruct (Hbelow0 lo ltac:(lia)) as [Hin _]. rewrite Hin by lia. reflexivity.
  - assert (Hpath : lk !! path = None).
    { specialize (Hfresh EmptyString). rewrite app_nil_r_str in Hfresh. exact Hfresh. }
    destruct (inner_step_sorted reps level' path lo hi vals lk Hreps Hwin ltac:(lia) Hpath)
      as (s & Estep & Hlen1 & Hsidx & Hvals1 & Hbelow & Habove).
    cbn [constructTrie_rec] in HR. rewrite Estep in HR. cbn [bind fst snd] in HR.
    set (sidx := splitIndex s) in *. set (vals1 := representativeValues s) in *.
    set (node := innerNode _ _) in *.
    set (lk1 := <[path := node]> lk) in *.
    assert (HwinC := Hwin). destruct HwinC as (Hlohi & Hhi & Hrange & Hsorted).
    assert (Hlk1_other : forall p, p <> path -> lk1 !! p = lk !! p).
    { intros p' Hne. apply lookup_insert_ne. congruence. }
    assert (Hfresh0 : forall q, lk1 !! ((path +:+ "0") +:+ q) = None).
    { intros q. rewrite Hlk1_other.
      - rewrite app_assoc_str. apply Hfresh.
      - rewrite app_snoc_str. apply app_ne_self. }
    assert (HvL : forall jj, lo <= jj < sidx -> zth vals1 jj = zth vals jj).
    { intros jj Hjj. rewrite Hvals1 by lia.
      destruct (decide (sidx <= jj <= hi)); [lia | reflexivity]. }
    assert (HvR : forall jj, sidx <= jj <= hi ->
                zth vals1 jj = zth vals jj - 2 ^ Z.of_nat level').
    { intros jj Hjj. rewrite Hvals1 by lia.
      destruct (decide (sidx <= jj <= hi)); [reflexivity | lia]. }
    (* the bits of the representatives of the window *)
    assert (Hzero : forall j, lo <= j < sidx ->
      bitset_to_string H (orig j) =
        (path +:+ "0") +:+ bitset_to_string level' (zth vals j)).
    { intros j Hj. destruct (Hbelow0 j ltac:(lia)) as [Hin _]. rewrite Hin by lia.
      rewrite bitset_to_string_low.
      - rewrite app_snoc_str. reflexivity.
      - specialize (Hrange j ltac:(lia)). specialize (Hbelow j ltac:(lia)). lia. }
    assert (Hone : forall j, sidx <= j <= hi ->
      bitset_to_string H (orig j) =
        (path +:+ "1") +:+ bitset_to_string level' (zth vals j - 2 ^ Z.of_nat level')).
    { intros j Hj. destruct (Hbelow0 j ltac:(lia)) as [Hin _]. rewrite Hin by lia.
      rewrite bitset_to_string_high.
      - rewrite app_snoc_str. reflexivity.
      - specialize (Hrange j ltac:(lia)). specialize (Habove j ltac:(lia)). lia. }
    assert (Hnot0 : forall j, 0 <= j < Z.of_nat (length reps) -> ~ (lo <= j < sidx) ->
      forall rest, bitset_to_string H (orig j) <> (path +:+ "0") +:+ rest).
    { intros j Hj Hout rest E.
      destruct (decide (lo <= j <= hi)) as [Hin|Hnin].
      - rewrite Hone in E by lia. revert E. apply app_branch_ne. discriminate.
      - destruct (Hbelow0 j Hj) as [_ Hno]. apply (Hno Hnin (String "0" rest)).
        rewrite E. apply app_snoc_str. }
    assert (Hnot1 : forall j, 0 <= j < Z.of_nat (length reps) -> ~ (sidx <= j <= hi) ->
      forall rest, bitset_to_string H (orig j) <> (path +:+ "1") +:+ rest).
    { intros j Hj Hout rest E.
      destruct (decide (lo <= j <= hi)) as [Hin|Hnin].
      - rewrite Hzero in E by lia. revert E. apply app_branch_ne. discriminate.
      - destruct (Hbelow0 j Hj) as [_ Hno]. apply (Hno Hnin (String "1" rest)).
        rewrite E. apply app_snoc_str. }
    (* the node of this call *)
    assert (Hnode : sides_at H orig (Z.of_nat (length reps)) path
              (if decide (sidx = lo) then None else Some (sidx - 1))
              (if decide (sidx <= hi) then Some sidx else None)).
    { split.
      - destruct (decide (sidx = lo)) as [E|Hne].
        + intros j Hj. apply Hnot0; [exact Hj | lia].
        + split; [lia|]. split; [eexists; apply Hzero; lia|].
          intros j Hj. apply Hnot0; lia.
      - destruct (decide (sidx <= hi)) as [Hle|Hgt].
        + split; [lia|]. split; [eexists; apply Hone; lia|].
          intros j Hj. apply Hnot1; lia.
        + intros j Hj. apply Hnot1; [exact Hj | lia]. }
    inv_bind HR. destruct a as [valsL lkL].
    assert (HL : length valsL = length vals1 /\
      (forall j, 0 <= j -> ~ (lo <= j <= sidx - 1) -> zth valsL j = zth vals1 j) /\
      (forall p, (forall q, p <> (path +:+ "0") +:+ q) -> lkL !! p = lk1 !! p)).
    { destruct (Z.ltb_spec lo sidx) as [Hlt|Hge].
      - destruct (constructTrie_rec_sorted reps level' (path +:+ "0") lo (sidx - 1) vals1 lk1)
          as (v & l0 & E' & A & B & C & _);
          [congruence | eapply window_left; eauto | lia | exact Hfresh0 |].
        rewrite E in E'. injection E' as -> ->. auto.
      - injection E as <- <-. auto. }
    destruct HL as (HlenL & HframeL & HlkL).
    assert (Hin1 : lk1 !! p = Some node0 ->
      lk !! p = Some node0 \/
      ((exists j rest, lo <= j <= hi /\ bitset_to_string H (orig j) = p +:+ rest) /\
       (forall l r, node0 = innerNode l r ->
          sides_at H orig (Z.of_nat (length reps)) p l r))).
    { intros Hy. destruct (decide (p = path)) as [->|Hne].
      - right. unfold lk1 in Hy. rewrite lookup_insert_eq in Hy. injection Hy as <-.
        split.
        + exists lo. eexists. split; [lia|].
          destruct (Hbelow0 lo ltac:(lia)) as [Hin _]. apply Hin. lia.
        + unfold node. intros l r [= <- <-]. exact Hnode.
      - left. rewrite <- Hlk1_other by exact Hne. exact Hy. }
    assert (HinL : lkL !! p = Some node0 ->
      lk !! p = Some node0 \/
      ((exists j rest, lo <= j <= hi /\ bitset_to_string H (orig j) = p +:+ rest) /\
       (forall l r, node0 = innerNode l r ->
          sides_at H orig (Z.of_nat (length reps)) p l r))).
    { intros Hy. destruct (Z.ltb_spec lo sidx) as [Hlt|Hge].
      - destruct (IH (path +:+ "0") lo (sidx - 1) vals1 lk1 valsL lkL)
          with (p := p) (node := node0) as [H1|[(j & rest & Hj & Eb) H1]]; auto.
        + congruence.
        + eapply window_left; eauto.
        + lia.
        + intros j Hj. split.
          * intros Hin. rewrite HvL by lia. apply Hzero. lia.
          * intros Hout. apply Hnot0; [exact Hj | lia].
        + right. split; [|exact H1]. exists j, rest. split; [lia | exact Eb].
      - injection E as <- <-. auto. }
    destruct (Z.leb_spec sidx hi) as [Hle|Hgt].
    + assert (HRv : forall jj, sidx <= jj <= hi ->
                zth valsL jj = zth vals jj - 2 ^ Z.of_nat level').
      { intros jj Hjj. rewrite HframeL by lia. apply HvR. exact Hjj. }
      destruct (IH (path +:+ "1") sidx hi valsL lkL vals' lk')
        with (p := p) (node := node0) as [H1|[(j & rest & Hj & Eb) H1]]; auto.
      * congruence.
      * eapply window_right; eauto.
      * lia.
      * intros q. rewrite HlkL.
        -- rewrite Hlk1_other.
           ++ rewrite app_assoc_str. apply Hfresh.
           ++ rewrite app_snoc_str. apply app_ne_self.
        -- intros q'. apply app_branch_ne. discriminate.
      * intros j Hj. split.
        -- intros Hin. rewrite HRv by lia. apply Hone. lia.
        -- intros Hout. apply Hnot1; [exact Hj | lia].
      * right. split; [|exact H1]. exists j, rest. split; [lia | exact Eb].
    + injection HR as <- <-. apply HinL. exact Hp.
Qed.

(** ** The table of a valid input *)

(** The index of a valid input with what is known of its table. *)
Lemma built_index_entries L keys d :
  valid_input L keys d ->
  exists t, YTrie_new L keys = Ret t /\ depth_ t = d /\
    representatives_ t <> [] /\
    (forall (i : nat) r, representatives_ t !! i = Some r ->
       lookup_ t !! bitset_to_string (Z.to_nat (d + 1)) (value r)
         = Some (leafNode (Z.of_nat i))) /\
    (forall p node, lookup_ t !! p = Some node ->
       (exists j, below_path t p j) /\
       (forall l r, node = innerNode l r -> sides_ok t p l r)).
Proof.
  intros Hvalid.
  destruct (built_index_good L keys d Hvalid) as (t & Hnew & Hdt & Hspec & Hne & Hsearch).
  destruct Hvalid as (Hsorted & Hrange & Hdepth & Hd & Hdn & Hcover).
  exists t. split; [exact Hnew|]. split; [exact Hdt|]. split; [exact Hne|].
  set (reps := representatives_ t) in *.
  assert (Hw : forall j r, reps !! Z.to_nat j = Some r -> zth (map value reps) j = value r).
  { intros j r Hj. apply zth_map_value. exact Hj. }
  assert (Hinc : forall a b, 0 <= a -> a < b -> b <= Z.of_nat (length reps) - 1 ->
            zth (map value reps) a < zth (map value reps) b).
  { intros a b Ha Hab Hb.
    destruct (lookup_lt_is_Some_2 reps (Z.to_nat a)) as [ra Hra]; [lia|].
    destruct (lookup_lt_is_Some_2 reps (Z.to_nat b)) as [rb Hrb]; [lia|].
    rewrite (Hw a ra Hra), (Hw b rb Hrb).
    apply (values_increase d keys _ Hspec Hsorted (Z.to_nat a) (Z.to_nat b)); auto. lia. }
  split.
  - (* the leaves *)
    intros i r Hi. pose proof (lookup_lt_Some _ _ _ Hi) as Hlt.
    assert (Hv : 0 <= value r < 2 ^ (d + 1)).
    { pose proof (value_in_keys d keys _ Hspec Hsorted i r Hi) as Hin.
      specialize (Hrange _ Hin). specialize (Hcover _ Hin). lia. }
    destruct (Hsearch (value r)) as (q & rest & node & Ebits & Hq & _ & Hg & _).
    rewrite Z.mod_small in Hg by exact Hv.
    rewrite <- (Hw (Z.of_nat i) r) in Hg by (rewrite Nat2Z.id; exact Hi).
    apply good_at_value in Hg; [| exact Hinc | lia]. subst node.
    destruct (built_table _ _ _ Hnew) as (_ & Hok & _).
    destruct (Hok _ _ Hq) as (_ & Hleaf). specialize (Hleaf eq_refl).
    assert (rest = EmptyString).
    { apply (f_equal String.length) in Ebits.
      rewrite length_bitset_to_string, length_app_str, Hleaf, Hdt in Ebits.
      destruct rest; [reflexivity | simpl in Ebits; lia]. }
    subst rest. rewrite app_nil_r_str in Ebits. rewrite Ebits. exact Hq.
  - (* every entry *)
    intros p node Hp.
    destruct (YTrie_new_inv _ _ _ Hnew) as (d' & reps' & st & Hd' & Hs & Hc & Et).
    rewrite Hdepth in Hd'. injection Hd' as <-.
    apply constructTrie_inv in Hc as (_ & Hc). destruct st as [vals' lk'].
    assert (Er : reps' = reps) by (unfold reps; rewrite Et; reflexivity).
    assert (El : lookup_ t = lk') by (rewrite Et; reflexivity).
    subst reps'. rewrite El in Hp.
    assert (Hwin : window_ok (Z.to_nat (d + 1)) (map value reps) 0 (Z.of_nat (length reps) - 1)).
    { apply (initial_window d keys); auto; [|lia].
      intros k Hk. specialize (Hrange k Hk). specialize (Hcover k Hk). lia. }
    assert (Hwb : window_below (Z.to_nat (d + 1)) (zth (map value reps))
              (Z.of_nat (length reps)) EmptyString (Z.to_nat (d + 1)) (map value reps)
              0 (Z.of_nat (length reps) - 1)).
    { intros j Hj. split; [intros _; rewrite app_nil_l_str; reflexivity | intros; lia]. }
    destruct (constructTrie_rec_entries (Z.to_nat (d + 1)) (zth (map value reps)) reps
                (Z.to_nat (d + 1)) EmptyString 0 (Z.of_nat (length reps) - 1)
                (map value reps) ∅ vals' lk' (eq_sym (length_map _ _)) Hwin ltac:(lia)
                ltac:(intros q; apply lookup_empty) Hwb Hc p node Hp)
      as [Hy|[(j & rest & Hj & Eb) Hsides]].
    { rewrite lookup_empty in Hy. discriminate. }
    assert (Hbelow : forall q j', 0 <= j' < Z.of_nat (length reps) ->
              (exists rest', bitset_to_string (Z.to_nat (d + 1)) (zth (map value reps) j')
                             = q +:+ rest') <-> below_path t q j').
    { intros q j' Hj'.
      destruct (lookup_lt_is_Some_2 reps (Z.to_nat j')) as [r' Hr']; [lia|].
      unfold below_path. fold reps. rewrite Hdt, (Hw j' r' Hr'). split.
      - intros [rest' E]. split; [lia|]. eauto.
      - intros (_ & r'' & rest' & Hr'' & E). rewrite Hr' in Hr''. injection Hr'' as <-. eauto. }
    assert (Hout : forall q j', below_path t q j' -> 0 <= j' < Z.of_nat (length reps)).
    { intros q j' (H0 & r' & _ & Hr' & _). apply lookup_lt_Some in Hr'. fold reps in Hr'. lia. }
    split.
    + exists j. apply Hbelow; [lia | eauto].
    + intros l r ->. destruct (Hsides l r eq_refl) as [Hl Hr]. split.
      * destruct l as [b|].
        -- destruct Hl as (Hb & Hex & Hno). split; [apply Hbelow; assumption|].
           intros j' Hj' Hbp. pose proof (Hout _ _ Hbp) as Hr'.
           apply Hbelow in Hbp as [rest' E]; [|exact Hr']. apply (Hno j' ltac:(lia) rest' E).
        -- intros j' Hbp. pose proof (Hout _ _ Hbp) as Hr'.
           apply Hbelow in Hbp as [rest' E]; [|exact Hr']. apply (Hl j' Hr' rest' E).
      * destruct r as [a|].
        -- destruct Hr as (Ha & Hex & Hno). split; [apply Hbelow; assumption|].
           intros j' Hj' Hbp. pose proof (Hout _ _ Hbp) as Hr'.
           apply Hbelow in Hbp as [rest' E]; [|exact Hr']. apply (Hno j' ltac:(lia) rest' E).
        -- intros j' Hbp. pose proof (Hout _ _ Hbp) as Hr'.
           apply Hbelow in Hbp as [rest' E]; [|exact Hr']. apply (Hr j' Hr' rest' E).
Qed.

(** X8. In the index of a valid input, the table maps the bit string of
    every representative value, [d + 1] bits wide, to that representative
    (as a leaf), and every leaf of the table is stored at the bit string of
    the value of the representative it points to. *)
Theorem representatives_are_leaves L keys d :
  valid_input L keys d ->
  exists t, YTrie_new L keys = Ret t /\
    (forall (i : nat) r, representatives_ t !! i = Some r ->
       lookup_ t !! bitset_to_string (Z.to_nat (d + 1)) (value r)
         = Some (leafNode (Z.of_nat i))) /\
    (forall p j, lookup_ t !! p = Some (leafNode j) ->
       0 <= j /\
       exists r, representatives_ t !! Z.to_nat j = Some r /\
         p = bitset_to_string (Z.to_nat (d + 1)) (value r)).
Proof.
  intros Hvalid.
  destruct (built_index_entries L keys d Hvalid) as (t & Hnew & Hdt & _ & Hleaves & Hentries).
  exists t. split; [exact Hnew|]. split; [exact Hleaves|].
  intros p j Hp.
  destruct (Hentries p _ Hp) as [(j' & Hj' & r' & rest & Hr' & Eb) _].
  destruct (built_table _ _ _ Hnew) as (Hd & Hok & _).
  destruct (Hok _ _ Hp) as (_ & Hlen). specialize (Hlen eq_refl).
  rewrite Hdt in Eb, Hlen.
  assert (rest = EmptyString).
  { apply (f_equal String.length) in Eb.
    rewrite length_bitset_to_string, length_app_str, Hlen in Eb.
    destruct rest; [reflexivity | simpl in Eb; lia]. }
  subst rest. rewrite app_nil_r_str in Eb.
  pose proof (Hleaves _ _ Hr') as Hl. rewrite Eb, Hp in Hl. injection Hl as ->.
  split; [lia|]. exists r'. rewrite Nat2Z.id. split; [exact Hr' | symmetry; exact Eb].
Qed.

(** X9. In the index of a valid input, a path is present in the table
    exactly when it is a prefix of the bit string of some representative
    value: the table holds the paths from the root to the representatives
    and nothing else. *)
Theorem table_holds_paths_of_representatives L keys d :
  valid_input L keys d ->
  exists t, YTrie_new L keys = Ret t /\
    forall p, is_Some (lookup_ t !! p) <-> exists j, below_path t p j.
Proof.
  intros Hvalid.
  destruct (built_index_entries L keys d Hvalid) as (t & Hnew & Hdt & _ & Hleaves & Hentries).
  exists t. split; [exact Hnew|]. intros p. split.
  - intros [node Hp]. apply (Hentries p node Hp).
  - intros (j & _ & r & rest & Hr & Eb).
    destruct (built_table _ _ _ Hnew) as (_ & _ & Hcl & _).
    apply (closed_prefix_present _ p rest Hcl). rewrite <- Eb, Hdt.
    rewrite (Hleaves _ r Hr). eauto.
Qed.

(** X10. In the index of a valid input, the pointers of every inner node
    bound the representatives below its children: [leftMax] is the last
    representative whose bit string continues the path of the node with 0,
    [rightMin] the first one whose bit string continues it with 1, and a
    pointer is null exactly when no representative continues that way. *)
Theorem inner_nodes_bound_subtrees L keys d :
  valid_input L keys d ->
  exists t, YTrie_new L keys = Ret t /\
    forall p l r, lookup_ t !! p = Some (innerNode l r) -> sides_ok t p l r.
Proof.
  intros Hvalid.
  destruct (built_index_entries L keys d Hvalid) as (t & Hnew & _ & _ & _ & Hentries).
  exists t. split; [exact Hnew|].
  intros p l r Hp. destruct (Hentries p _ Hp) as [_ Hs]. exact (Hs l r eq_refl).
Qed.

(** ** The search on a constructed table *)

(** On a parent-closed table with a root, the present prefixes of a bit
    string are those up to some length. *)
Lemma longest_present_prefix (lk : gmap string TrieNodePtr) (bits : string) :
  parent_closed lk -> is_Some (lk !! EmptyString) ->
  forall m : nat, (m <= String.length bits)%nat ->
  exists n : nat, (n <= m)%nat /\
    (forall k : nat, (k <= n)%nat -> is_Some (lk !! substring 0 k bits)) /\
    (forall k : nat, (n < k <= m)%nat -> lk !! substring 0 k bits = None).
Proof.
  intros Hcl Hroot. induction m as [|m IH]; intros Hm.
  - exists 0%nat. split; [lia|]. split; [|intros k Hk; lia].
    intros k Hk. replace k with 0%nat by lia. rewrite substring_0_0. exact Hroot.
  - destruct IH as (n & Hn & Hpres & Habs); [lia|].
    destruct (lk !! substring 0 (S m) bits) as [x|] eqn:E.
    + exists (S m). split; [lia|]. split; [|intros k Hk; lia].
      intros k Hk. apply (closed_prefixes lk bits (S m)); auto; rewrite E; eauto.
    + exists n. split; [lia|]. split; [exact Hpres|].
      intros k Hk. destruct (decide (k = S m)) as [->|Hne]; [exact E|].
      apply Habs. lia.
Qed.

(** X11. On every index that the constructor returns (for any input), the
    loop of [getPredecessor] ends in the node stored at the longest prefix
    of the low [depth_ + 1] bits of the limit that is present in the table:
    the prefix of length [n] is present and every longer prefix is absent. *)
Theorem search_ends_at_longest_prefix L values t limit :
  YTrie_new L values = Ret t ->
  exists (n : nat) node,
    Z.of_nat n <= depth_ t + 1 /\
    lookup_ t !! substring 0 n (bitset_to_string (Z.to_nat (depth_ t + 1)) limit)
      = Some node /\
    (forall k : nat, (n < k)%nat -> Z.of_nat k <= depth_ t + 1 ->
       lookup_ t !! substring 0 k (bitset_to_string (Z.to_nat (depth_ t + 1)) limit)
         = None) /\
    bestMatchingNode t limit = Ret (node, lookup_ t).
Proof.
  intros H. destruct (built_table _ _ _ H) as (Hd & _ & Hcl & [start Hstart]).
  set (bits := bitset_to_string (Z.to_nat (depth_ t + 1)) limit).
  assert (Hlen : String.length bits = Z.to_nat (depth_ t + 1))
    by apply length_bitset_to_string.
  destruct (longest_present_prefix (lookup_ t) bits Hcl ltac:(eauto) (String.length bits))
    as (n & Hn & Hpres & Habs); [lia|].
  destruct (Hpres n ltac:(lia)) as [node Hnode].
  exists n, node. split; [lia|]. split; [exact Hnode|]. split.
  { intros k Hk Hkd. apply Habs. lia. }
  unfold bestMatchingNode. rewrite substr_from_bits by exact Hd. cbn [bind]. fold bits.
  rewrite (lookup_index_present _ _ _ Hstart). cbn [fst snd].
  rewrite (search_loop_longest (lookup_ t) bits (Z.of_nat n) node) with (b := 0);
    try reflexivity; try lia.
  - rewrite Nat2Z.id. exact Hnode.
  - intros k Hk. apply Hpres. lia.
  - intros k Hk. apply Habs. lia.
  - change (Z.to_nat 0) with 0%nat. rewrite substring_0_0. exact Hstart.
Qed.

(** ** What a query can return *)

Lemma BST_getPredecessor_cases (b : BST) lowerBound limit :
  BST_getPredecessor b lowerBound limit = lowerBound \/
  (BST_getPredecessor b lowerBound limit ∈ b /\
   BST_getPredecessor b lowerBound limit <= limit).
Proof.
  rewrite BST_getPredecessor_spec. destruct (predecessor b limit) as [r|] eqn:E; simpl.
  - right. apply predecessor_Some_inv in E as (Hin & Hle & _). auto.
  - left. reflexivity.
Qed.

Lemma block_in_keys d values reps (i : nat) r k :
  reps_spec d values reps -> reps !! i = Some r -> k ∈ binarySearchTree r -> k ∈ values.
Proof.
  intros Hspec Hi Hk. rewrite (keys_split d values reps Hspec i r Hi). set_solver.
Qed.

Lemma answer_key_or_zero d values reps node limit :
  reps_spec d values reps -> node_ok (Z.of_nat (length reps)) node ->
  exists v, answer reps node limit = Ret (i64 v) /\ (v = 0 \/ v ∈ values).
Proof.
  intros Hspec Hnode. assert (Hlinks : links_ok reps) by apply Hspec.
  assert (Hval : forall (i : nat) r, reps !! i = Some r -> value r ∈ values).
  { intros i r Hi. eapply block_in_keys; eauto.
    destruct (Hlinks i r Hi) as (Hl & _). apply last_elem_of, Hl. }
  assert (Hsome : forall l, 0 <= l < Z.of_nat (length reps) ->
            forall lm, reps !! Z.to_nat l = Some lm ->
            exists v, match next lm with
                      | Some nx =>
                          do n <- vec_at reps nx;
                          Ret (i64 (BST_getPredecessor (binarySearchTree n) (value lm) limit))
                      | None => Ret (i64 (value lm))
                      end = Ret (i64 v) /\ (v = 0 \/ v ∈ values)).
  { intros l Hl lm Hn. destruct (Hlinks _ _ Hn) as (_ & _ & ->).
    destruct (decide _); [eauto|].
    destruct (vec_at_in_range reps (Z.of_nat (Z.to_nat l) + 1)) as (n' & -> & Hn'); [lia|].
    cbn [bind]. eexists. split; [reflexivity|]. right.
    destruct (BST_getPredecessor_cases (binarySearchTree n') (value lm) limit)
      as [-> | [Hin _]].
    - eauto.
    - exact (block_in_keys _ _ _ _ _ _ Hspec Hn' Hin). }
  destruct node as [|i|[l|] [r|]]; simpl in Hnode.
  - contradiction.
  - simpl. destruct (vec_at_in_range reps i Hnode) as (n & -> & Hn). simpl. eauto.
  - destruct Hnode as (_ & Hl & _). simpl.
    destruct (vec_at_in_range reps l Hl) as (n & -> & Hn). cbn [bind]. eauto.
  - destruct Hnode as (_ & Hl & _). simpl.
    destruct (vec_at_in_range reps l Hl) as (n & -> & Hn). cbn [bind]. eauto.
  - destruct Hnode as (_ & _ & Hr). simpl.
    destruct (vec_at_in_range reps r Hr) as (n & -> & Hn). cbn [bind].
    destruct (Hlinks _ _ Hn) as (_ & -> & _).
    destruct (decide _).
    + eexists. split; [reflexivity|].
      destruct (BST_getPredecessor_cases (binarySearchTree n) 0 limit) as [-> | [Hin _]].
      * left. reflexivity.
      * right. exact (block_in_keys _ _ _ _ _ _ Hspec Hn Hin).
    + destruct (vec_at_in_range reps (Z.of_nat (Z.to_nat r) - 1)) as (n' & -> & Hn'); [lia|].
      cbn [bind]. eexists. split; [reflexivity|]. right.
      destruct (BST_getPredecessor_cases (binarySearchTree n) (value n') limit)
        as [-> | [Hin _]].
      * eauto.
      * exact (block_in_keys _ _ _ _ _ _ Hspec Hn Hin).
  - destruct Hnode as ([?|?] & _); congruence.
Qed.

(** X12. On every index that the constructor returns (for any input of
    fewer than [2^63] keys, sorted or not) and for every limit,
    [getPredecessor] returns 0 or a key of the input, converted to
    [int64_t], and never the fault value of its last branch or any other
    number. *)
Theorem getPredecessor_returns_key_or_zero L values t limit :
  YTrie_new L values = Ret t -> Z.of_nat (length values) < 2 ^ 63 ->
  exists v, getPredecessor t limit = Ret (i64 v, t) /\ (v = 0 \/ v ∈ values).
Proof.
  intros H Hn.
  destruct (built_table _ _ _ H) as (_ & Hok & _).
  destruct (built_representatives _ _ _ H Hn) as (_ & _ & Hspec & _).
  destruct (bestMatchingNode_total _ _ _ limit H) as (node & p & E & Hp).
  destruct (answer_key_or_zero (depth_ t) values (representatives_ t) node limit Hspec)
    as (v & Ha & Hv).
  { apply (Hok _ _ Hp). }
  exists v. split; [|exact Hv].
  unfold getPredecessor. rewrite E. cbn [bind fst snd]. rewrite Ha. cbn [bind].
  rewrite YTrie_eta. reflexivity.
Qed.

(** ** Queries on the index of a valid input *)

(** X13. In the index of a valid input every indexed key is its own
    predecessor: [getPredecessor(k)] returns [k] for every key [k] of the
    input. *)
Theorem getPredecessor_of_key L keys d k :
  valid_input L keys d -> k ∈ keys ->
  exists t, YTrie_new L keys = Ret t /\ getPredecessor t k = Ret (k, t).
Proof.
  intros Hvalid Hk.
  destruct (built_index_answers L keys d Hvalid) as (t & Hnew & Hans).
  destruct Hvalid as (Hsorted & Hrange & Hdepth & Hd & Hdn & Hcover).
  exists t. split; [exact Hnew|].
  rewrite Hans.
  - rewrite (predecessor_Some keys k k); [reflexivity | exact Hk | lia | auto].
  - specialize (Hrange k Hk). specialize (Hcover k Hk). lia.
Qed.

Lemma predecessor_mono keys x y :
  x <= y -> default 0 (predecessor keys x) <= default 0 (predecessor keys y) \/
            (exists k, k ∈ keys /\ k <= 0).
Proof.
  intros Hxy. destruct (predecessor keys x) as [r|] eqn:Ex; simpl.
  - apply predecessor_Some_inv in Ex as (Hin & Hle & _).
    destruct (predecessor keys y) as [r'|] eqn:Ey; simpl.
    + apply predecessor_Some_inv in Ey as (_ & _ & Hmax). left. apply Hmax; [exact Hin | lia].
    + pose proof (predecessor_None_inv _ _ Ey r Hin). lia.
  - destruct (predecessor keys y) as [r'|] eqn:Ey; simpl; [|left; lia].
    apply predecessor_Some_inv in Ey as (Hin & _ & _).
    destruct (Z.le_gt_cases r' 0); [right; eauto | left; lia].
Qed.

(** X14. In the index of a valid input, [getPredecessor] is monotone on
    the limits inside the width of the trie: for
    [0 <= limit1 <= limit2 < 2^(d+1)] the two results [a1] and [a2]
    satisfy [a1 <= a2 <= limit2]. *)
Theorem getPredecessor_monotone L keys d limit1 limit2 :
  valid_input L keys d ->
  0 <= limit1 -> limit1 <= limit2 -> limit2 < 2 ^ (d + 1) ->
  exists t a1 a2, YTrie_new L keys = Ret t /\
    getPredecessor t limit1 = Ret (a1, t) /\
    getPredecessor t limit2 = Ret (a2, t) /\
    a1 <= a2 <= limit2.
Proof.
  intros Hvalid H1 H12 H2.
  destruct (built_index_answers L keys d Hvalid) as (t & Hnew & Hans).
  destruct Hvalid as (Hsorted & Hrange & Hdepth & Hd & Hdn & Hcover).
  exists t, (default 0 (predecessor keys limit1)), (default 0 (predecessor keys limit2)).
  split; [exact Hnew|]. split; [apply Hans; lia|]. split; [apply Hans; lia|].
  split.
  - destruct (predecessor_mono keys limit1 limit2 H12) as [H|(k & Hk & Hk0)]; [exact H|].
    specialize (Hrange k Hk). lia.
  - destruct (predecessor keys limit2) as [r|] eqn:E; simpl; [|lia].
    apply predecessor_Some_inv in E as (_ & Hle & _). exact Hle.
Qed.

(** ** Limits beyond the width of the trie *)

(** A block queried with a limit that no key exceeds yields its last key. *)
Lemma block_query_above d keys reps (i : nat) r lowerBound limit :
  reps_spec d keys reps -> StronglySorted Z.lt keys ->
  reps !! i = Some r -> (forall k, k ∈ keys -> k <= limit) ->
  BST_getPredecessor (binarySearchTree r) lowerBound limit = value r.
Proof.
  intros Hspec Hsorted Hi Hlim. rewrite BST_getPredecessor_spec.
  assert (Hl : last (binarySearchTree r) = Some (value r)).
  { destruct Hspec as (_ & Hlinks & _). apply (Hlinks i r Hi). }
  assert (Hs : StronglySorted Z.lt (binarySearchTree r)).
  { pose proof Hsorted as Hs. rewrite (keys_split d keys reps Hspec i r Hi) in Hs.
    apply StronglySorted_app_1_r in Hs. apply StronglySorted_app_1_l in Hs. exact Hs. }
  rewrite (predecessor_Some _ limit (value r)); [reflexivity | | | ].
  - apply last_elem_of, Hl.
  - apply Hlim. eapply value_in_keys; eauto.
  - intros k Hk _. eapply sorted_le_last; eauto.
Qed.

(** What [answer] returns for a limit that no key exceeds, from the node
    that is good for [x]: the value of the first representative that is
    not below [x], and of the last representative when all are below. *)
Lemma answer_beyond d keys reps node x limit :
  reps_spec d keys reps -> StronglySorted Z.lt keys ->
  (forall k, k ∈ keys -> 0 <= k < 2 ^ 63) ->
  (forall k, k ∈ keys -> k <= limit) ->
  good (zth (map value reps)) 0 (Z.of_nat (length reps) - 1) node x ->
  exists (i : nat) r,
    reps !! i = Some r /\ answer reps node limit = Ret (value r) /\
    (forall (j : nat) r', reps !! j = Some r' -> (j < i)%nat -> value r' < x) /\
    (x <= value r \/ S i = length reps).
Proof.
  intros Hspec Hsorted Hrange Hlim Hgood.
  assert (Hlinks : links_ok reps) by apply Hspec.
  assert (Hw : forall (j : nat) rj, reps !! j = Some rj ->
            zth (map value reps) (Z.of_nat j) = value rj).
  { intros j rj Hj. apply zth_map_value. rewrite Nat2Z.id. exact Hj. }
  assert (Hi64 : forall (j : nat) rj, reps !! j = Some rj -> i64 (value rj) = value rj).
  { intros j rj Hj. apply i64_small.
    pose proof (Hrange _ (value_in_keys d keys reps Hspec Hsorted j rj Hj)). lia. }
  assert (Hmono : forall (j i : nat) rj ri, reps !! j = Some rj -> reps !! i = Some ri ->
            (j <= i)%nat -> value rj <= value ri).
  { intros j i rj ri Hj Hi Hji. destruct (decide (j = i)) as [->|Hne].
    - rewrite Hj in Hi. injection Hi as <-. lia.
    - pose proof (values_increase d keys reps Hspec Hsorted j i rj ri Hj Hi ltac:(lia)). lia. }
  destruct node as [|i|[b|] [a|]]; simpl in Hgood; try contradiction.
  - (* a leaf *)
    destruct Hgood as (Hi & E).
    destruct (vec_at_in_range reps i) as (r & Ev & Hr); [lia|].
    exists (Z.to_nat i), r. split; [exact Hr|]. split.
    { simpl. rewrite Ev. cbn [bind]. rewrite (Hi64 _ _ Hr). reflexivity. }
    rewrite <- (Z2Nat.id i) in E by lia. rewrite (Hw _ _ Hr) in E.
    split; [|left; lia].
    intros j r' Hj Hlt.
    pose proof (values_increase d keys reps Hspec Hsorted j _ r' r Hj Hr Hlt). lia.
  - (* the representatives up to index b are below x, the later ones above *)
    destruct Hgood as (Hb & Hbx & Hafter).
    destruct (vec_at_in_range reps b) as (lm & Ev & Hlm); [lia|].
    rewrite <- (Z2Nat.id b) in Hbx by lia. rewrite (Hw _ _ Hlm) in Hbx.
    destruct (Hlinks _ _ Hlm) as (_ & _ & Hnext).
    destruct (decide (S (Z.to_nat b) = length reps)) as [Hlast|Hmore].
    + exists (Z.to_nat b), lm. split; [exact Hlm|]. split.
      { simpl. rewrite Ev. cbn [bind]. rewrite Hnext. rewrite (Hi64 _ _ Hlm). reflexivity. }
      split; [|right; exact Hlast].
      intros j r' Hj Hlt. pose proof (Hmono j _ r' lm Hj Hlm ltac:(lia)). lia.
    + destruct (vec_at_in_range reps (Z.of_nat (Z.to_nat b) + 1)) as (n & Evn & Hn); [lia|].
      replace (Z.to_nat (Z.of_nat (Z.to_nat b) + 1)) with (S (Z.to_nat b)) in Hn by lia.
      exists (S (Z.to_nat b)), n. split; [exact Hn|]. split.
      { simpl. rewrite Ev. cbn [bind]. rewrite Hnext, Evn. cbn [bind].
        rewrite (block_query_above d keys reps _ n _ _ Hspec Hsorted Hn Hlim).
        rewrite (Hi64 _ _ Hn). reflexivity. }
      split.
      * intros j r' Hj Hlt. pose proof (Hmono j _ r' lm Hj Hlm ltac:(lia)). lia.
      * left. specialize (Hafter (Z.of_nat (S (Z.to_nat b))) ltac:(lia)).
        rewrite (Hw _ _ Hn) in Hafter. lia.
  - (* the representatives before index a are below x, the one at a is above *)
    destruct Hgood as (Ha & Hxa & Hbefore).
    destruct (vec_at_in_range reps a) as (rm & Ev & Hrm); [lia|].
    rewrite <- (Z2Nat.id a) in Hxa by lia. rewrite (Hw _ _ Hrm) in Hxa.
    exists (Z.to_nat a), rm. split; [exact Hrm|]. split.
    { simpl. rewrite Ev. cbn [bind].
      destruct (Hlinks _ _ Hrm) as (_ & -> & _).
      destruct (decide (Z.to_nat a = 0%nat)).
      - rewrite (block_query_above d keys reps _ rm _ _ Hspec Hsorted Hrm Hlim).
        rewrite (Hi64 _ _ Hrm). reflexivity.
      - destruct (vec_at_in_range reps (Z.of_nat (Z.to_nat a) - 1)) as (pn & -> & _); [lia|].
        cbn [bind].
        rewrite (block_query_above d keys reps _ rm _ _ Hspec Hsorted Hrm Hlim).
        rewrite (Hi64 _ _ Hrm). reflexivity. }
    split; [|left; lia].
    intros j r' Hj Hlt. specialize (Hbefore (Z.of_nat j) ltac:(lia)).
    rewrite (Hw _ _ Hj) in Hbefore. exact Hbefore.
Qed.

(** X15. In the index of a valid input, a limit of more than [d + 1] bits
    is searched by its low [d + 1] bits only: [getPredecessor] returns the
    value of the first representative that is not below
    [limit mod 2^(d+1)], or the last representative (the largest key) when
    all are below, although the largest key is the predecessor of every
    such limit. *)
Theorem getPredecessor_beyond_width L keys d limit :
  valid_input L keys d ->
  2 ^ (d + 1) <= limit < 2 ^ 64 ->
  exists t (i : nat) r,
    YTrie_new L keys = Ret t /\
    representatives_ t !! i = Some r /\
    getPredecessor t limit = Ret (value r, t) /\
    (forall (j : nat) r', representatives_ t !! j = Some r' -> (j < i)%nat ->
       value r' < limit mod 2 ^ (d + 1)) /\
    (limit mod 2 ^ (d + 1) <= value r \/ S i = length (representatives_ t)).
Proof.
  intros Hvalid Hlimit.
  destruct (built_index_good L keys d Hvalid) as (t & Hnew & Hdt & Hspec & Hne & Hsearch).
  destruct Hvalid as (Hsorted & Hrange & Hdepth & Hd & Hdn & Hcover).
  destruct (Hsearch limit) as (q & rest & node & _ & _ & _ & Hg & Hbest).
  destruct (answer_beyond d keys (representatives_ t) node (limit mod 2 ^ (d + 1)) limit)
    as (i & r & Hi & Ha & Hbelow & Hat); auto.
  { intros k Hk. specialize (Hrange k Hk). lia. }
  { intros k Hk. specialize (Hcover k Hk). lia. }
  exists t, i, r. split; [exact Hnew|]. split; [exact Hi|]. split; [|split; assumption].
  unfold getPredecessor. rewrite Hbest. cbn [bind fst snd]. rewrite Ha. cbn [bind].
  rewrite YTrie_eta. reflexivity.
Qed.

(** X16. In the index of a valid input, for every 64-bit limit
    [getPredecessor] returns 0 or an indexed key, and never a number above
    the limit (beyond the width of the trie the result need not be the
    largest such key). *)
Theorem getPredecessor_never_above_limit L keys d limit :
  valid_input L keys d ->
  0 <= limit < 2 ^ 64 ->
  exists t a,
    YTrie_new L keys = Ret t /\
    getPredecessor t limit = Ret (a, t) /\
    a <= limit /\ (a = 0 \/ a ∈ keys).
Proof.
  intros Hvalid Hlimit.
  destruct (Z.lt_ge_cases limit (2 ^ (d + 1))) as [Hin|Hout].
  - destruct (built_index_answers L keys d Hvalid) as (t & Hnew & Hans).
    exists t, (default 0 (predecessor keys limit)).
    split; [exact Hnew|]. split; [apply Hans; lia|].
    destruct (predecessor keys limit) as [r|] eqn:E; simpl.
    + apply predecessor_Some_inv in E as (Hr & Hle & _). auto.
    + split; [lia | left; reflexivity].
  - destruct (built_index_good L keys d Hvalid) as (t & Hnew & Hdt & Hspec & Hne & Hsearch).
    destruct Hvalid as (Hsorted & Hrange & Hdepth & Hd & Hdn & Hcover).
    destruct (Hsearch limit) as (q & rest & node & _ & _ & _ & Hg & Hbest).
    destruct (answer_beyond d keys (representatives_ t) node (limit mod 2 ^ (d + 1)) limit)
      as (i & r & Hi & Ha & _); auto.
    { intros k Hk. specialize (Hrange k Hk). lia. }
    { intros k Hk. specialize (Hcover k Hk). lia. }
    pose proof (value_in_keys d keys _ Hspec Hsorted i r Hi) as Hv.
    exists t, (value r). split; [exact Hnew|]. split; [|split].
    + unfold getPredecessor. rewrite Hbest. cbn [bind fst snd]. rewrite Ha. cbn [bind].
      rewrite YTrie_eta. reflexivity.
    + specialize (Hcover _ Hv). lia.
    + right. exact Hv.
Qed.

(** ** Keys of at most 32 bits *)

(** Keys below [2^32], enough of them, are a valid input for every math
    library, with the depth [floor(log2(max))]. *)
Lemma valid_input_small_keys L keys mx :
  StronglySorted Z.lt keys -> (forall k, k ∈ keys -> 1 <= k) ->
  last keys = Some mx -> 2 <= mx < 2 ^ 32 ->
  Z.log2 mx <= Z.of_nat (length keys) ->
  valid_input L keys (Z.log2 mx).
Proof.
  intros Hsorted Hpos Hlast Hmx Hn.
  pose proof (calcDepth_small L keys mx Hlast ltac:(lia)) as Hd.
  pose proof (Z.log2_spec mx ltac:(lia)) as [Hlo Hhi].
  replace (Z.succ (Z.log2 mx)) with (Z.log2 mx + 1) in Hhi by lia.
  assert (Hd63 : 0 <= Z.log2 mx < 32).
  { split; [apply Z.log2_nonneg | apply Z.log2_lt_pow2; lia]. }
  set (d := Z.log2 mx) in *.
  assert (H3263 : 2 ^ 32 < 2 ^ 63) by (apply Z.pow_lt_mono_r; lia).
  assert (Hle : forall k, k ∈ keys -> k <= mx) by (apply sorted_le_last; assumption).
  split; [exact Hsorted|]. split.
  { intros k Hk. specialize (Hpos k Hk). specialize (Hle k Hk). lia. }
  split; [exact Hd|]. split.
  { split; [|lia]. destruct (Z.eq_dec d 0) as [->|]; [|lia].
    change (2 ^ (0 + 1)) with 2 in Hhi. lia. }
  split; [exact Hn|].
  intros k Hk. specialize (Hle k Hk). lia.
Qed.

(** X17. For every strictly ascending sequence of keys in [1, 2^32) whose
    largest key [mx] is at least 2, with at least [floor(log2(mx))] keys,
    and for every math library, the constructor returns an index of depth
    [floor(log2(mx))], and [getPredecessor] returns for every limit below
    [2^(depth+1)] (which includes every limit up to [mx]) the largest key
    that is at most the limit, or 0 when there is none. *)
Theorem small_keys_answered_exactly L keys mx limit :
  StronglySorted Z.lt keys -> (forall k, k ∈ keys -> 1 <= k) ->
  last keys = Some mx -> 2 <= mx < 2 ^ 32 ->
  Z.log2 mx <= Z.of_nat (length keys) ->
  0 <= limit < 2 ^ (Z.log2 mx + 1) ->
  exists t, YTrie_new L keys = Ret t /\ depth_ t = Z.log2 mx /\
    getPredecessor t limit = Ret (default 0 (predecessor keys limit), t).
Proof.
  intros Hsorted Hpos Hlast Hmx Hn Hlimit.
  pose proof (valid_input_small_keys L keys mx Hsorted Hpos Hlast Hmx Hn) as Hvalid.
  destruct (built_index_answers L keys _ Hvalid) as (t & Hnew & Hans).
  exists t. split; [exact Hnew|]. split; [|apply Hans; exact Hlimit].
  apply YTrie_new_inv in Hnew as (d & reps & st & Hd & _ & _ & ->). simpl.
  destruct Hvalid as (_ & _ & Hd' & _). rewrite Hd in Hd'. injection Hd' as ->. reflexivity.
Qed.

Lemma small_keys_answered_exactly_witness :
  StronglySorted Z.lt scenario /\ (forall k, k ∈ scenario -> 1 <= k) /\
  last scenario = Some 40 /\ 2 <= 40 < 2 ^ 32 /\
  Z.log2 40 <= Z.of_nat (length scenario) /\
  0 <= 34 < 2 ^ (Z.log2 40 + 1) /\
  exists t, YTrie_new exact_libm scenario = Ret t /\ depth_ t = Z.log2 40 /\
    getPredecessor t 34 = Ret (default 0 (predecessor scenario 34), t).
Proof.
  assert (H1 : StronglySorted Z.lt scenario) by (unfold scenario; repeat constructor; lia).
  assert (H2 : forall k, k ∈ scenario -> 1 <= k).
  { intros k Hk. unfold scenario in Hk.
    repeat (apply elem_of_cons in Hk as [->|Hk]; [lia|]). inversion Hk. }
  assert (H3 : last scenario = Some 40) by reflexivity.
  assert (H4 : 2 <= 40 < 2 ^ 32) by lia.
  assert (H5 : Z.log2 40 <= Z.of_nat (length scenario)) by (simpl; lia).
  assert (H6 : 0 <= 34 < 2 ^ (Z.log2 40 + 1)) by (simpl; lia).
  repeat (split; [assumption|]).
  exact (small_keys_answered_exactly exact_libm scenario 40 34 H1 H2 H3 H4 H5 H6).
Defined.

(** ** Instances on the scenario *)

Lemma scenario_valid_input : valid_input exact_libm scenario 5.
Proof.
  unfold valid_input.
  assert (H1 : StronglySorted Z.lt scenario) by (unfold scenario; repeat constructor; lia).
  assert (H2 : forall k, k ∈ scenario -> 1 <= k < 2 ^ 63).
  { intros k Hk. unfold scenario in Hk.
    repeat (apply elem_of_cons in Hk as [->|Hk]; [lia|]). inversion Hk. }
  assert (H3 : calcDepth exact_libm scenario = Ret 5) by reflexivity.
  assert (H6 : forall k, k ∈ scenario -> k < 2 ^ (5 + 1)).
  { intros k Hk. unfold scenario in Hk.
    repeat (apply elem_of_cons in Hk as [->|Hk]; [lia|]). inversion Hk. }
  repeat (split; [assumption|]). split; [lia|]. split; [simpl; lia | exact H6].
Qed.

Lemma calcDepth_bit_length_witness :
  last scenario = Some 40 /\
  (1 <= 40 < 2 ^ 32 \/ (exists k, 0 <= k <= 63 /\ 40 = 2 ^ k)) /\
  exists d, calcDepth exact_libm scenario = Ret d /\ 0 <= d <= 63 /\
            2 ^ d <= 40 < 2 ^ (d + 1).
Proof.
  assert (H1 : last scenario = Some 40) by reflexivity.
  assert (H2 : 1 <= 40 < 2 ^ 32 \/ (exists k, 0 <= k <= 63 /\ 40 = 2 ^ k)) by (left; lia).
  repeat (split; [assumption|]).
  exact (calcDepth_bit_length exact_libm scenario 40 H1 H2).
Defined.


Lemma split_blocks_are_chunks_witness :
  1 <= 5 < 2 ^ 63 /\ 5 <= Z.of_nat (length scenario) < 2 ^ 63 /\
  exists reps, split 5 scenario = Ret reps /\
    Z.of_nat (length reps) = (Z.of_nat (length scenario) + 5 - 1) / 5 /\
    forall (i : nat) r, reps !! i = Some r ->
      binarySearchTree r = take (Z.to_nat 5) (drop (i * Z.to_nat 5) scenario) /\
      binarySearchTree r <> [] /\
      last (binarySearchTree r) = Some (value r).
Proof.
  assert (H1 : 1 <= 5 < 2 ^ 63) by lia.
  assert (H2 : 5 <= Z.of_nat (length scenario) < 2 ^ 63) by (simpl; lia).
  repeat (split; [assumption|]).
  exact (split_blocks_are_chunks 5 scenario H1 H2).
Defined.

Lemma split_links_neighbours_witness :
  1 <= 5 < 2 ^ 63 /\ 5 <= Z.of_nat (length scenario) < 2 ^ 63 /\
  exists reps, split 5 scenario = Ret reps /\ reps <> [] /\
    forall (i : nat) r, reps !! i = Some r ->
      previous r = (if decide (i = 0%nat) then None else Some (Z.of_nat i - 1)) /\
      next r = (if decide (S i = length reps) then None else Some (Z.of_nat i + 1)).
Proof.
  assert (H1 : 1 <= 5 < 2 ^ 63) by lia.
  assert (H2 : 5 <= Z.of_nat (length scenario) < 2 ^ 63) by (simpl; lia).
  repeat (split; [assumption|]).
  exact (split_links_neighbours 5 scenario H1 H2).
Defined.

Lemma constructor_few_keys_undefined_witness :
  calcDepth exact_libm [40] = Ret 5 /\ 0 <= 5 < 2 ^ 63 /\
  (Z.of_nat (length [40]) < 5 \/ 5 = 0) /\
  YTrie_new exact_libm [40] = Undefined.
Proof.
  assert (H1 : calcDepth exact_libm [40] = Ret 5) by reflexivity.
  assert (H2 : 0 <= 5 < 2 ^ 63) by lia.
  assert (H3 : Z.of_nat (length [40]) < 5 \/ 5 = 0) by (left; simpl; lia).
  repeat (split; [assumption|]).
  exact (constructor_few_keys_undefined exact_libm [40] 5 H1 H2 H3).
Defined.

Lemma constructor_returns_for_any_order_witness :
  calcDepth exact_libm [9; 3; 40; 5; 33; 12; 20] = Ret 4 /\ 1 <= 4 <= 63 /\
  4 <= Z.of_nat (length [9; 3; 40; 5; 33; 12; 20]) < 2 ^ 63 /\
  exists t, YTrie_new exact_libm [9; 3; 40; 5; 33; 12; 20] = Ret t /\ depth_ t = 4 /\
    concat (map binarySearchTree (representatives_ t)) = [9; 3; 40; 5; 33; 12; 20].
Proof.
  assert (H1 : calcDepth exact_libm [9; 3; 40; 5; 33; 12; 20] = Ret 4) by reflexivity.
  assert (H2 : 1 <= 4 <= 63) by lia.
  assert (H3 : 4 <= Z.of_nat (length [9; 3; 40; 5; 33; 12; 20]) < 2 ^ 63) by (simpl; lia).
  repeat (split; [assumption|]).
  exact (constructor_returns_for_any_order exact_libm [9; 3; 40; 5; 33; 12; 20] 4 H1 H2 H3).
Defined.

Lemma lookup_size_bound_witness :
  YTrie_new exact_libm scenario = Ret scenario_index /\
  Z.of_nat (size (lookup_ scenario_index)) <=
    Z.of_nat (length (representatives_ scenario_index)) * (depth_ scenario_index + 1) + 1.
Proof.
  assert (H : YTrie_new exact_libm scenario = Ret scenario_index)
    by (vm_compute; reflexivity).
  split; [exact H|].
  exact (lookup_size_bound exact_libm scenario scenario_index H).
Defined.

Lemma representatives_are_leaves_witness :
  valid_input exact_libm scenario 5 /\
  exists t, YTrie_new exact_libm scenario = Ret t /\
    (forall (i : nat) r, representatives_ t !! i = Some r ->
       lookup_ t !! bitset_to_string (Z.to_nat (5 + 1)) (value r)
         = Some (leafNode (Z.of_nat i))) /\
    (forall p j, lookup_ t !! p = Some (leafNode j) ->
       0 <= j /\
       exists r, representatives_ t !! Z.to_nat j = Some r /\
         p = bitset_to_string (Z.to_nat (5 + 1)) (value r)).
Proof.
  split; [exact scenario_valid_input|].
  exact (representatives_are_leaves exact_libm scenario 5 scenario_valid_input).
Defined.

Lemma table_holds_paths_of_representatives_witness :
  valid_input exact_libm scenario 5 /\
  exists t, YTrie_new exact_libm scenario = Ret t /\
    forall p, is_Some (lookup_ t !! p) <-> exists j, below_path t p j.
Proof.
  split; [exact scenario_valid_input|].
  exact (table_holds_paths_of_representatives exact_libm scenario 5 scenario_valid_input).
Defined.

Lemma inner_nodes_bound_subtrees_witness :
  valid_input exact_libm scenario 5 /\
  exists t, YTrie_new exact_libm scenario = Ret t /\
    forall p l r, lookup_ t !! p = Some (innerNode l r) -> sides_ok t p l r.
Proof.
  split; [exact scenario_valid_input|].
  exact (inner_nodes_bound_subtrees exact_libm scenario 5 scenario_valid_input).
Defined.

Lemma search_ends_at_longest_prefix_witness :
  YTrie_new exact_libm scenario = Ret scenario_index /\
  exists (n : nat) node,
    Z.of_nat n <= depth_ scenario_index + 1 /\
    lookup_ scenario_index !!
      substring 0 n (bitset_to_string (Z.to_nat (depth_ scenario_index + 1)) 34)
      = Some node /\
    (forall k : nat, (n < k)%nat -> Z.of_nat k <= depth_ scenario_index + 1 ->
       lookup_ scenario_index !!
         substring 0 k (bitset_to_string (Z.to_nat (depth_ scenario_index + 1)) 34)
         = None) /\
    bestMatchingNode scenario_index 34 = Ret (node, lookup_ scenario_index).
Proof.
  assert (H : YTrie_new exact_libm scenario = Ret scenario_index)
    by (vm_compute; reflexivity).
  split; [exact H|].
  exact (search_ends_at_longest_prefix exact_libm scenario scenario_index 34 H).
Defined.

Lemma getPredecessor_returns_key_or_zero_witness :
  YTrie_new exact_libm scenario = Ret scenario_index /\
  Z.of_nat (length scenario) < 2 ^ 63 /\
  exists v, getPredecessor scenario_index 2 = Ret (i64 v, scenario_index) /\
            (v = 0 \/ v ∈ scenario).
Proof.
  assert (H1 : YTrie_new exact_libm scenario = Ret scenario_index)
    by (vm_compute; reflexivity).
  assert (H2 : Z.of_nat (length scenario) < 2 ^ 63) by (simpl; lia).
  repeat (split; [assumption|]).
  exact (getPredecessor_returns_key_or_zero exact_libm scenario scenario_index 2 H1 H2).
Defined.

Lemma getPredecessor_of_key_witness :
  valid_input exact_libm scenario 5 /\ 33 ∈ scenario /\
  exists t, YTrie_new exact_libm scenario = Ret t /\ getPredecessor t 33 = Ret (33, t).
Proof.
  assert (H : 33 ∈ scenario) by (unfold scenario; set_solver).
  split; [exact scenario_valid_input|]. split; [exact H|].
  exact (getPredecessor_of_key exact_libm scenario 5 33 scenario_valid_input H).
Defined.

Lemma getPredecessor_monotone_witness :
  valid_input exact_libm scenario 5 /\
  0 <= 10 /\ 10 <= 34 /\ 34 < 2 ^ (5 + 1) /\
  exists t a1 a2, YTrie_new exact_libm scenario = Ret t /\
    getPredecessor t 10 = Ret (a1, t) /\
    getPredecessor t 34 = Ret (a2, t) /\
    a1 <= a2 <= 34.
Proof.
  assert (H1 : 0 <= 10) by lia.
  assert (H2 : 10 <= 34) by lia.
  assert (H3 : 34 < 2 ^ (5 + 1)) by lia.
  split; [exact scenario_valid_input|].
  repeat (split; [assumption|]).
  exact (getPredecessor_monotone exact_libm scenario 5 10 34 scenario_valid_input H1 H2 H3).
Defined.

Lemma getPredecessor_beyond_width_witness :
  valid_input exact_libm scenario 5 /\
  2 ^ (5 + 1) <= 66 < 2 ^ 64 /\
  exists t (i : nat) r,
    YTrie_new exact_libm scenario = Ret t /\
    representatives_ t !! i = Some r /\
    getPredecessor t 66 = Ret (value r, t) /\
    (forall (j : nat) r', representatives_ t !! j = Some r' -> (j < i)%nat ->
       value r' < 66 mod 2 ^ (5 + 1)) /\
    (66 mod 2 ^ (5 + 1) <= value r \/ S i = length (representatives_ t)).
Proof.
  assert (H : 2 ^ (5 + 1) <= 66 < 2 ^ 64) by lia.
  split; [exact scenario_valid_input|]. split; [exact H|].
  exact (getPredecessor_beyond_width exact_libm scenario 5 66 scenario_valid_input H).
Defined.

Lemma getPredecessor_never_above_limit_witness :
  valid_input exact_libm scenario 5 /\
  0 <= 66 < 2 ^ 64 /\
  exists t a,
    YTrie_new exact_libm scenario = Ret t /\
    getPredecessor t 66 = Ret (a, t) /\
    a <= 66 /\ (a = 0 \/ a ∈ scenario).
Proof.
  assert (H : 0 <= 66 < 2 ^ 64) by lia.
  split; [exact scenario_valid_input|]. split; [exact H|].
  exact (getPredecessor_never_above_limit exact_libm scenario 5 66 scenario_valid_input H).
Defined.
